(** * ts-dedup: time-bounded message deduplication

    A shallow embedding of the TypeScript sources

    - [src/lib/hasher/index.ts]   (canonical hashing),
    - [src/lib/cache/base.ts]     (cache contract and shared defaults),
    - [src/lib/cache/memory.ts]   (in-process TTL cache),
    - [src/lib/cache/redis.ts]    (networked TTL cache),
    - [src/lib/deduplicator.ts]   (orchestrator and its factories),
    - the earlier [RedisCache], without connection tracking,

    followed by the properties established about them.

    Conventions.  An [async] method is a state transformer that returns
    either a value or a thrown error together with the state reached; an
    [await] is sequencing.  Unless a statement says otherwise, calls on
    one instance are made one after another, each awaited before the next
    begins; what the runtime does in between (the clock moving on, timers
    firing, connection events) is a transition of its own.  Where calls on
    the in-process cache overlap, the two halves of [set] on either side
    of its [await] are composed one by one.  A [setTimeout] callback runs
    at some point after the clock has reached the registration instant
    plus the delay Node gives the timer, never before; that delay is one
    millisecond when the one asked for is not between 1 and 2^31 - 1.
    JavaScript numbers that carry a TTL are rationals ([Q]) and their sums
    and products exact.  The code computes them in binary64, whose
    rounding keeps [<=] between a deadline and an instant of the clock and
    may turn [<] into equality when they are less than a millisecond
    apart; not-a-number is outside the model.  [Date.now()] is an integer
    number of milliseconds.  Debug logging ([this.debug]) writes to the
    console only and is left out. *)

From Stdlib Require Import ZArith QArith Qround Lia Lqa Ascii.
From stdpp Require Import base tactics option list sorting strings pretty gmap fin_maps.

Local Open Scope string_scope.
Local Open Scope list_scope.
Local Open Scope Z_scope.

Set Warnings "-register-all".

(** ** Thrown values and results *)

Module JS.

(** Every error the sources raise is a plain [Error] carrying a message;
    [hashMessage] re-wraps by message, so the message is all that is kept. *)
Inductive JSError : Type :=
  | Error (message : string).

Definition error_message (e : JSError) : string :=
  match e with Error m => m end.

(** Outcome of a call: normal completion or a throw. *)
Inductive Res (A : Type) : Type :=
  | Ok (a : A)
  | Throw (e : JSError).
Arguments Ok {A} a.
Arguments Throw {A} e.

Definition res_bind {A B} (r : Res A) (k : A -> Res B) : Res B :=
  match r with
  | Ok a => k a
  | Throw e => Throw e
  end.

(** [try { body } catch (error) { handler }] on a pure computation. *)
Definition res_catch {A} (r : Res A) (h : JSError -> Res A) : Res A :=
  match r with
  | Ok a => Ok a
  | Throw e => h e
  end.

End JS.
Export JS.

(** ** SHA-256 ([crypto.createHash('sha256')]), FIPS 180-4 *)

Module Crypto.

Definition w32 (x : Z) : Z := Z.land x 4294967295.

Definition rotr (n x : Z) : Z :=
  Z.lor (Z.shiftr x n) (w32 (Z.shiftl x (32 - n))).

Definition Ch (x y z : Z) : Z :=
  Z.lxor (Z.land x y) (Z.land (Z.lxor x 4294967295) z).
Definition Maj (x y z : Z) : Z :=
  Z.lxor (Z.lxor (Z.land x y) (Z.land x z)) (Z.land y z).
Definition Sigma0 (x : Z) : Z := Z.lxor (Z.lxor (rotr 2 x) (rotr 13 x)) (rotr 22 x).
Definition Sigma1 (x : Z) : Z := Z.lxor (Z.lxor (rotr 6 x) (rotr 11 x)) (rotr 25 x).
Definition sigma0 (x : Z) : Z := Z.lxor (Z.lxor (rotr 7 x) (rotr 18 x)) (Z.shiftr x 3).
Definition sigma1 (x : Z) : Z := Z.lxor (Z.lxor (rotr 17 x) (rotr 19 x)) (Z.shiftr x 10).

(** The constants are the first 32 bits of the fractional parts of the
    cube roots (round constants) and of the square roots (initial hash
    value) of the first primes. *)
Definition is_prime (n : Z) : bool :=
  forallb (fun d => negb (n mod d =? 0) || (n <=? d))
          (map Z.of_nat (seq 2 (Z.to_nat (Z.sqrt n)))).

Definition primes (count : nat) : list Z :=
  firstn count (List.filter is_prime (map Z.of_nat (seq 2 320))).

(** The largest [r] with [r ^ 3 <= n], one bit at a time from bit [bits]. *)
Fixpoint cube_root (bits : nat) (n r : Z) : Z :=
  match bits with
  | O => r
  | S b =>
      let candidate := r + 2 ^ Z.of_nat b in
      cube_root b n (if candidate ^ 3 <=? n then candidate else r)
  end.

Definition K256 : list Z :=
  map (fun p => w32 (cube_root 40 (p * 2 ^ 96) 0)) (primes 64).

Definition H256 : list Z :=
  map (fun p => w32 (Z.sqrt (p * 2 ^ 64))) (primes 8).

(** Message padding: a [1] bit, zeros up to 56 modulo 64 bytes, then the
    bit length as a 64-bit big-endian integer. *)
Definition be_bytes (n : nat) (x : Z) : list Z :=
  map (fun i => Z.land (Z.shiftr x (8 * Z.of_nat i)) 255) (rev (seq 0 n)).

Definition pad (msg : list Z) : list Z :=
  let len := Z.of_nat (length msg) in
  let zeros := Z.to_nat ((55 - len) mod 64) in
  msg ++ [128] ++ repeat 0 zeros ++ be_bytes 8 (8 * len).

Fixpoint words_of_bytes (bs : list Z) : list Z :=
  match bs with
  | b0 :: b1 :: b2 :: b3 :: rest =>
      (Z.shiftl b0 24 + Z.shiftl b1 16 + Z.shiftl b2 8 + b3) :: words_of_bytes rest
  | _ => []
  end.

(** One round: the schedule is kept as a sliding window of sixteen words. *)
Definition round (st : list Z * list Z) (k : Z) : list Z * list Z :=
  match st with
  | ([a; b; c; d; e; f; g; h], w) =>
      let wt := nth 0 w 0 in
      let t1 := w32 (h + Sigma1 e + Ch e f g + k + wt) in
      let t2 := w32 (Sigma0 a + Maj a b c) in
      let wnew := w32 (sigma1 (nth 14 w 0) + nth 9 w 0 + sigma0 (nth 1 w 0) + wt) in
      ([w32 (t1 + t2); a; b; c; w32 (d + t1); e; f; g], tl w ++ [wnew])
  | _ => st
  end.

Definition compress (hs : list Z) (block : list Z) : list Z :=
  let '(out, _) := fold_left round K256 (hs, block) in
  map (fun p => w32 (fst p + snd p)) (combine hs out).

Fixpoint blocks (fuel : nat) (ws : list Z) : list (list Z) :=
  match fuel with
  | O => []
  | S n =>
      match ws with
      | [] => []
      | _ => firstn 16 ws :: blocks n (skipn 16 ws)
      end
  end.

Definition hex_digit (d : Z) : Ascii.ascii :=
  nth (Z.to_nat d) (String.list_ascii_of_string "0123456789abcdef") "0"%char.

Definition hex_byte (b : Z) : string :=
  String (hex_digit (Z.shiftr b 4)) (String (hex_digit (Z.land b 15)) EmptyString).

Definition hex_of_words (ws : list Z) : string :=
  String.concat "" (map hex_byte (concat (map (be_bytes 4) ws))).

(** [createHash('sha256').update(data).digest('hex')] on a byte sequence. *)
Definition sha256_bytes (msg : list Byte.byte) : string :=
  let bs := pad (map (fun b => Z.of_N (Byte.to_N b)) msg) in
  let ws := words_of_bytes bs in
  hex_of_words (fold_left compress (blocks (length ws) ws) H256).

(** [update] on a string hashes its UTF-8 encoding; a [string] here is
    already that byte sequence. *)
Definition sha256 (data : string) : string :=
  sha256_bytes (String.list_byte_of_string data).

End Crypto.

(** ** JavaScript values

    The payloads the library hashes.  Numbers are the integral ones whose
    JSON text is their decimal numeral.  A [JDate] holds its time value in
    milliseconds, or [None] for an invalid date.  A [JObject] is a
    non-array, non-Date, non-Buffer object: its own enumerable properties in
    property order and, for a generated Protobuf message, the
    [serializeBinary] method of its prototype (what the call returns or
    throws).  Strings are the bytes of their UTF-8 text.  Functions,
    symbols, big integers, objects that contain themselves and a property
    named [__proto__] (which an assignment does not create) are outside
    the model. *)

Module Value.

Inductive JSValue : Type :=
  | JUndefined
  | JNull
  | JBool (b : bool)
  | JNumber (n : Z)
  | JString (s : string)
  | JDate (t : option Z)
  | JBuffer (bytes : list Byte.byte)
  | JArray (items : list JSValue)
  | JObject (serializeBinary : option (Res (list Byte.byte)))
            (fields : list (string * JSValue)).

(** A plain object literal [{ k1: v1, ... }]. *)
Abbreviation obj fields := (JObject None fields).

(** [value] in a boolean context. *)
Definition truthy (v : JSValue) : bool :=
  match v with
  | JUndefined | JNull | JBool false | JNumber 0 | JString "" => false
  | _ => true
  end.

(** [typeof v === 'object'] (true of [null] as well). *)
Definition typeof_object (v : JSValue) : bool :=
  match v with
  | JNull | JDate _ | JBuffer _ | JArray _ | JObject _ _ => true
  | _ => false
  end.

(** Own property read [o[key]] on a property list. *)
Fixpoint get_field {A} (key : string) (fields : list (string * A)) : option A :=
  match fields with
  | [] => None
  | (k, v) :: rest => if String.eqb k key then Some v else get_field key rest
  end.

(** The same read with a function applied to the value found. *)
Definition get_with {A B} (f : A -> B) (key : string) :
    list (string * A) -> option B :=
  fix go fields :=
    match fields with
    | [] => None
    | (k, v) :: rest => if String.eqb k key then Some (f v) else go rest
    end.

(** [key in o] for the own properties of [o]. *)
Definition has_field {A} (key : string) (fields : list (string * A)) : bool :=
  match get_field key fields with Some _ => true | None => false end.

(** *** Property order

    Own keys are enumerated array indices first, in ascending numeric
    order, then the other strings in creation order. *)

Definition digit_of (c : Ascii.ascii) : option N :=
  let n := Ascii.N_of_ascii c in
  if ((48 <=? n) && (n <=? 57))%N then Some (n - 48)%N else None.

Fixpoint parse_digits (acc : N) (cs : list Ascii.ascii) : option N :=
  match cs with
  | [] => Some acc
  | c :: rest =>
      match digit_of c with
      | Some d => parse_digits (acc * 10 + d)%N rest
      | None => None
      end
  end.

(** An array index is a canonical numeral below [2^32 - 1]. *)
Definition array_index (k : string) : option N :=
  match String.list_ascii_of_string k with
  | [] => None
  | cs =>
      match parse_digits 0%N cs with
      | Some n =>
          if (String.eqb (pretty n) k && (n <? 4294967295)%N)%bool
          then Some n else None
      | None => None
      end
  end.

Fixpoint replace_field {A} (key : string) (v : A) (fields : list (string * A)) :=
  match fields with
  | [] => []
  | (k, x) :: rest =>
      if String.eqb k key then (k, v) :: rest
      else (k, x) :: replace_field key v rest
  end.

Fixpoint insert_index {A} (n : N) (key : string) (v : A)
    (fields : list (string * A)) : list (string * A) :=
  match fields with
  | [] => [(key, v)]
  | (k, x) :: rest =>
      match array_index k with
      | Some m =>
          if (m <? n)%N then (k, x) :: insert_index n key v rest
          else (key, v) :: fields
      | None => (key, v) :: fields
      end
  end.

(** The assignment [o[key] = v]. *)
Definition set_field {A} (key : string) (v : A)
    (fields : list (string * A)) : list (string * A) :=
  if has_field key fields then replace_field key v fields
  else
    match array_index key with
    | Some n => insert_index n key v fields
    | None => fields ++ [(key, v)]
    end.

(** *** [Array.prototype.sort()] on strings

    The default comparison orders strings by UTF-16 code unit, which on
    names without characters beyond the Basic Multilingual Plane is the
    order of their UTF-8 bytes. *)

Definition sort_keys (keys : list string) : list string :=
  merge_sort String.le keys.

(** *** [Date.prototype.toISOString] *)

Definition zero_pad (width : nat) (n : Z) : string :=
  let s := pretty (Z.to_N n) in
  String.concat "" (repeat "0" (width - String.length s)%nat) +:+ s.

(** Civil date of a day count relative to 1970-01-01. *)
Definition civil_from_days (days : Z) : Z * Z * Z :=
  let z := days + 719468 in
  let era := z / 146097 in
  let doe := z - era * 146097 in
  let yoe := (doe - doe / 1460 + doe / 36524 - doe / 146096) / 365 in
  let doy := doe - (365 * yoe + yoe / 4 - yoe / 100) in
  let mp := (5 * doy + 2) / 153 in
  let d := doy - (153 * mp + 2) / 5 + 1 in
  let m := if mp <? 10 then mp + 3 else mp - 9 in
  let y := yoe + era * 400 + (if m <=? 2 then 1 else 0) in
  (y, m, d).

Definition iso_year (y : Z) : string :=
  if (0 <=? y) && (y <=? 9999) then zero_pad 4 y
  else (if y <? 0 then "-" else "+") +:+ zero_pad 6 (Z.abs y).

Definition iso_of_time (t : Z) : string :=
  let '(y, m, d) := civil_from_days (t / 86400000) in
  let ms := t mod 86400000 in
  iso_year y +:+ "-" +:+ zero_pad 2 m +:+ "-" +:+ zero_pad 2 d +:+ "T"
  +:+ zero_pad 2 (ms / 3600000) +:+ ":" +:+ zero_pad 2 (ms / 60000 mod 60)
  +:+ ":" +:+ zero_pad 2 (ms / 1000 mod 60) +:+ "." +:+ zero_pad 3 (ms mod 1000)
  +:+ "Z".

(** An invalid date makes [toISOString] throw a [RangeError]. *)
Definition toISOString (t : option Z) : Res string :=
  match t with
  | Some ms => Ok (iso_of_time ms)
  | None => Throw (Error "Invalid time value")
  end.

(** *** [JSON.stringify] *)

(** The double quote character. *)
Definition dquote : string := String (Ascii.ascii_of_nat 34) EmptyString.

Definition json_escape_char (c : Ascii.ascii) : string :=
  let n := Z.of_N (Ascii.N_of_ascii c) in
  if n =? 34 then "\" +:+ dquote
  else if n =? 92 then "\\"
  else if n =? 8 then "\b"
  else if n =? 9 then "\t"
  else if n =? 10 then "\n"
  else if n =? 12 then "\f"
  else if n =? 13 then "\r"
  else if n <? 32 then "\u00" +:+ Crypto.hex_byte n
  else String c EmptyString.

Definition json_quote (s : string) : string :=
  dquote +:+ String.concat "" (map json_escape_char (String.list_ascii_of_string s))
  +:+ dquote.

Definition byte_number (b : Byte.byte) : Z := Z.of_N (Byte.to_N b).

(** [None] stands for the result [undefined]: the value has no JSON text.
    Such a value is written [null] inside an array and left out of an
    object.  Dates and Buffers serialize through their [toJSON]. *)
Fixpoint stringify (v : JSValue) : option string :=
  match v with
  | JUndefined => None
  | JNull => Some "null"
  | JBool b => Some (if b then "true" else "false")
  | JNumber n => Some (pretty n)
  | JString s => Some (json_quote s)
  | JDate (Some t) => Some (json_quote (iso_of_time t))
  | JDate None => Some "null"
  | JBuffer bytes =>
      Some ("{" +:+ json_quote "type" +:+ ":" +:+ json_quote "Buffer" +:+ ","
            +:+ json_quote "data" +:+ ":["
            +:+ String.concat "," (map (fun b => pretty (byte_number b)) bytes) +:+ "]}")
  | JArray items =>
      Some ("[" +:+ String.concat ","
              (map (fun x => default "null" (stringify x)) items) +:+ "]")
  | JObject _ fields =>
      Some ("{" +:+ String.concat ","
              (omap (fun kv => match stringify (snd kv) with
                               | Some text => Some (json_quote (fst kv) +:+ ":" +:+ text)
                               | None => None
                               end) fields) +:+ "}")
  end.

(** *** String conversion in a template literal

    Exact on strings, booleans, [null] and [undefined].
    [Date.prototype.toString] prints local time in an engine-defined
    format; the ISO text stands in for it.  A number prints as its decimal
    numeral, as JavaScript does below 10^21. *)
Fixpoint js_ToString (v : JSValue) : string :=
  match v with
  | JUndefined => "undefined"
  | JNull => "null"
  | JBool b => if b then "true" else "false"
  | JNumber n => pretty n
  | JString s => s
  | JDate (Some t) => iso_of_time t
  | JDate None => "Invalid Date"
  | JBuffer bytes => String.string_of_list_byte bytes
  | JArray items =>
      String.concat ","
        (map (fun x => match x with
                       | JUndefined | JNull => ""
                       | _ => js_ToString x
                       end) items)
  | JObject _ _ => "[object Object]"
  end.

(** *** Well-formed values and equality up to property order *)

(** No object holds two properties of the same name. *)
Inductive well_formed : JSValue -> Prop :=
  | wf_undefined : well_formed JUndefined
  | wf_null : well_formed JNull
  | wf_bool b : well_formed (JBool b)
  | wf_number n : well_formed (JNumber n)
  | wf_string s : well_formed (JString s)
  | wf_date t : well_formed (JDate t)
  | wf_buffer bytes : well_formed (JBuffer bytes)
  | wf_array items :
      Forall well_formed items -> well_formed (JArray items)
  | wf_object ser fields :
      NoDup fields.*1 ->
      Forall (fun kv => well_formed kv.2) fields ->
      well_formed (JObject ser fields).

(** Deep equality in which the properties of an object may come in any
    order, at every level; array elements keep their positions. *)
Inductive same_up_to_order : JSValue -> JSValue -> Prop :=
  | same_undefined : same_up_to_order JUndefined JUndefined
  | same_null : same_up_to_order JNull JNull
  | same_bool b : same_up_to_order (JBool b) (JBool b)
  | same_number n : same_up_to_order (JNumber n) (JNumber n)
  | same_string s : same_up_to_order (JString s) (JString s)
  | same_date t : same_up_to_order (JDate t) (JDate t)
  | same_buffer bytes : same_up_to_order (JBuffer bytes) (JBuffer bytes)
  | same_array items1 items2 :
      Forall2 same_up_to_order items1 items2 ->
      same_up_to_order (JArray items1) (JArray items2)
  | same_object ser fields1 reordered fields2 :
      fields1 ≡ₚ reordered ->
      Forall2 (fun kv1 kv2 => kv1.1 = kv2.1 /\ same_up_to_order kv1.2 kv2.2)
              reordered fields2 ->
      same_up_to_order (JObject ser fields1) (JObject ser fields2).

End Value.
Export Value.

(** ** Canonical hasher ([src/lib/hasher/index.ts]) *)

Module Hasher.

(** The own enumerable properties [Object.keys] sees on a non-array object:
    none on a Date, the byte indices on a Buffer. *)
Definition buffer_props (bytes : list Byte.byte) : list (string * JSValue) :=
  imap (fun i b => (pretty (N.of_nat i), JNumber (byte_number b))) bytes.

Definition own_properties (o : JSValue) : list (string * JSValue) :=
  match o with
  | JBuffer bytes => buffer_props bytes
  | JObject _ fields => fields
  | _ => []
  end.

Section NormalizeLoop.
(** [recur] is [normalizeObject] itself. *)
Variable recur : JSValue -> Res JSValue.

(** The three branches of the loop body on [value = obj[key]]: what is
    assigned to [result[key]], or [None] when nothing is. *)
Definition normalize_value (value : JSValue) : Res (option JSValue) :=
  match value with
  | JDate t =>
      (* value instanceof Date *)
      res_bind (toISOString t) (fun iso => Ok (Some (JString iso)))
  | JArray _ | JObject _ _ =>
      (* value && typeof value === 'object' && !Buffer.isBuffer(value) *)
      res_bind (recur value) (fun v => Ok (Some v))
  | JUndefined => Ok None
  | JNull | JBool _ | JNumber _ | JString _ | JBuffer _ =>
      (* value !== undefined *)
      Ok (Some value)
  end.

(** [for (const key of sortedKeys) { ... }] over the properties [props]. *)
Definition normalize_loop (props : list (string * JSValue))
    (sortedKeys : list string) : Res (list (string * JSValue)) :=
  fold_left
    (fun result key =>
       res_bind result (fun fields =>
         match get_with normalize_value key props with
         | Some step =>
             res_bind step (fun assigned =>
               match assigned with
               | Some v => Ok (set_field key v fields)
               | None => Ok fields
               end)
         | None => Ok fields
         end))
    sortedKeys (Ok []).

Definition normalize_props (props : list (string * JSValue)) : Res JSValue :=
  res_bind (normalize_loop props (sort_keys (map fst props)))
           (fun fields => Ok (obj fields)).
End NormalizeLoop.

(** [obj.map(item => normalizeObject(item))], stopping at the first throw. *)
Definition map_items (f : JSValue -> Res JSValue) : list JSValue -> Res (list JSValue) :=
  fix go items :=
    match items with
    | [] => Ok []
    | item :: rest =>
        res_bind (f item) (fun v => res_bind (go rest) (fun vs => Ok (v :: vs)))
    end.

(** [normalizeObject].  On a Buffer the loop only meets numbers, which it
    keeps as they are, so no recursive call is made there. *)
Fixpoint normalizeObject (o : JSValue) : Res JSValue :=
  match o with
  | JUndefined | JNull | JBool _ | JNumber _ | JString _ =>
      (* obj === null || typeof obj !== 'object' *)
      Ok o
  | JArray items =>
      res_bind (map_items normalizeObject items) (fun vs => Ok (JArray vs))
  | JDate _ => normalize_props (fun v => Ok v) []
  | JBuffer bytes => normalize_props (fun v => Ok v) (buffer_props bytes)
  | JObject _ fields => normalize_props normalizeObject fields
  end.

(** [sha256(JSON.stringify(x))]; [update(undefined)] is a [TypeError]. *)
Definition sha256_text (text : option string) : Res string :=
  match text with
  | Some data => Ok (Crypto.sha256 data)
  | None => Throw (Error "The data argument must be of type string")
  end.

Definition hashJson (o : JSValue) : Res string :=
  match o with
  | JUndefined => Throw (Error "Cannot hash undefined value")
  | JNull | JBool _ | JNumber _ | JString _ =>
      sha256_text (stringify o)
  | JDate _ | JBuffer _ | JArray _ | JObject _ _ =>
      res_bind (normalizeObject o) (fun normalized => sha256_text (stringify normalized))
  end.

(** [typeof message.serializeBinary === 'function']: the prototype method,
    unless an own property of that name shadows it. *)
Definition serializeBinary_method (message : JSValue) : option (Res (list Byte.byte)) :=
  match message with
  | JObject ser fields => if has_field "serializeBinary" fields then None else ser
  | _ => None
  end.

Definition hashProtobuf (message : JSValue) : Res string :=
  if negb (truthy message) then
    Throw (Error "Cannot hash null or undefined Protobuf message")
  else
    match serializeBinary_method message with
    | None => Throw (Error "Invalid Protobuf message: missing serializeBinary method")
    | Some call =>
        res_catch
          (res_bind call (fun binary => Ok (Crypto.sha256_bytes binary)))
          (fun error =>
             Throw (Error ("Failed to serialize Protobuf message: " +:+ error_message error)))
    end.

(** [hashMessage(message, format = 'json')]: the default applies when the
    argument is [undefined]. *)
Definition hashMessage (message format : JSValue) : Res string :=
  let format := match format with JUndefined => JString "json" | _ => format end in
  res_catch
    (match format with
     | JString f =>
         if String.eqb f "json" then hashJson message
         else if String.eqb f "protobuf" then hashProtobuf message
         else Throw (Error ("Unsupported message format: " +:+ js_ToString format))
     | _ => Throw (Error ("Unsupported message format: " +:+ js_ToString format))
     end)
    (fun error => Throw (Error ("Failed to hash message: " +:+ error_message error))).

End Hasher.
Export Hasher.

(** ** Asynchronous, stateful code *)

Module Async.

(** An [async] method over instance state [S]: the outcome and the state
    reached (a throw keeps the mutations made before it). *)
Definition M (S A : Type) : Type := S -> Res A * S.

Definition ret {S A} (a : A) : M S A := fun s => (Ok a, s).
Definition throw {S A} (e : JSError) : M S A := fun s => (Throw e, s).

Definition bind {S A B} (m : M S A) (k : A -> M S B) : M S B :=
  fun s =>
    match m s with
    | (Ok a, s') => k a s'
    | (Throw e, s') => (Throw e, s')
    end.

(** [try { body } catch (error) { handler }]. *)
Definition try_catch {S A} (body : M S A) (handler : JSError -> M S A) : M S A :=
  fun s =>
    match body s with
    | (Ok a, s') => (Ok a, s')
    | (Throw e, s') => handler e s'
    end.

(** A synchronous, pure step inside an [async] body. *)
Definition lift {S A} (r : Res A) : M S A := fun s => (r, s).

Definition gets {S A} (f : S -> A) : M S A := fun s => (Ok (f s), s).
Definition modify {S} (f : S -> S) : M S unit := fun s => (Ok tt, f s).

End Async.
Export Async.

Declare Scope async_scope.
Delimit Scope async_scope with async.
Notation "'let!' x ':=' m 'in' k" := (bind m (fun x => k))
  (at level 10, x pattern, m at level 100, k at level 200) : async_scope.
Notation "m ';;' k" := (bind m (fun _ => k))
  (at level 100, k at level 200, right associativity) : async_scope.

(** ** Cache contract and shared defaults ([src/lib/cache/base.ts]) *)

Module Base.

Record DeduplicatorOptions : Type := {
  opt_ttl : option Q;
  opt_namespace : option string;
  opt_debug : option bool;
}.

(** [Required<DeduplicatorOptions>]. *)
Record Options : Type := {
  ttl : Q;
  namespace : string;
  debug : bool;
}.

(** The [BaseCache] constructor. *)
Definition base_options (options : DeduplicatorOptions) : Options :=
  {| ttl := default (300 : Q) (opt_ttl options);
     namespace := default "ts-dedup" (opt_namespace options);
     debug := default false (opt_debug options) |}.

Definition getNamespacedKey (options : Options) (key : string) : string :=
  namespace options +:+ ":" +:+ key.

(** [interface Cache]; [clear] is optional. *)
Class Cache (S : Type) : Type := {
  has : string -> M S bool;
  set : string -> Q -> M S unit;
  delete : string -> M S unit;
  clear : option (M S unit);
}.

End Base.
Export Base.

(** ** In-process TTL cache ([src/lib/cache/memory.ts]) *)

Module MemoryCache.

Record CacheEntry : Type := {
  expires : Q;
  timeout : nat;
}.

(** A pending [setTimeout]: the instant from which it may run, in
    milliseconds, and the key its callback
    [() => this.cache.delete(namespacedKey)] removes. *)
Record Timer : Type := {
  due : Z;
  target : string;
}.

(** The delay Node gives a timer: [setTimeout(callback, delay)] replaces a
    delay that is not between 1 and [TIMEOUT_MAX] = 2^31 - 1 milliseconds
    by 1; of any other the whole milliseconds are kept, before which the
    timer does not run. *)
Definition TIMEOUT_MAX : Z := 2147483647.

Definition timer_delay (delay : Q) : Z :=
  if Qle_bool 1 delay && Qle_bool delay (inject_Z TIMEOUT_MAX)
  then Qfloor delay
  else 1.

(** The instance ([cache]) with the part of the runtime it depends on: the
    pending timers in registration order, the next timer handle and the
    clock read by [Date.now()]. *)
Record State : Type := {
  cache : gmap string CacheEntry;
  timers : list (nat * Timer);
  next_timer : nat;
  now : Z;
}.

Definition empty (t : Z) : State :=
  {| cache := ∅; timers := []; next_timer := 0; now := t |}.

Definition Qltb (a b : Q) : bool := negb (Qle_bool b a).

(** [clearTimeout(handle)]. *)
Definition clearTimeout (handle : nat) (pending : list (nat * Timer)) :
    list (nat * Timer) :=
  filter (fun p => p.1 ≠ handle) pending.

Section Instance.
Variable options : Options.

Definition delete (key : string) : M State unit :=
  fun s =>
    let namespacedKey := getNamespacedKey options key in
    match cache s !! namespacedKey with
    | Some entry =>
        (Ok tt, {| cache := base.delete namespacedKey (cache s);
                   timers := clearTimeout (timeout entry) (timers s);
                   next_timer := next_timer s;
                   now := now s |})
    | None => (Ok tt, s)
    end.

Definition has (key : string) : M State bool :=
  fun s =>
    let namespacedKey := getNamespacedKey options key in
    match cache s !! namespacedKey with
    | None => (Ok false, s)
    | Some entry =>
        if Qltb (expires entry) (inject_Z (now s))
        then (delete key ;; ret false)%async s
        else (Ok true, s)
    end.

(** The locals of a [set] call while it is suspended at
    [await this.delete(key)]. *)
Record Suspended : Type := {
  namespacedKey : string;
  expires_at : Q;
  delay : Q;
}.

(** [set] up to its [await]: the deadline is computed and [delete] has
    run. *)
Definition set_begin (key : string) (ttl : Q) : M State Suspended :=
  fun s =>
    let namespacedKey := getNamespacedKey options key in
    let expires := (inject_Z (now s) + ttl * 1000)%Q in
    match delete key s with
    | (Throw e, s1) => (Throw e, s1)
    | (Ok _, s1) =>
        (Ok {| namespacedKey := namespacedKey; expires_at := expires;
               delay := (ttl * 1000)%Q |}, s1)
    end.

(** [set] from its [await] on: the timer is registered and the entry
    stored. *)
Definition set_resume (locals : Suspended) : M State unit :=
  fun s =>
    let timeout := next_timer s in
    (Ok tt,
     {| cache := <[namespacedKey locals :=
                     {| expires := expires_at locals; timeout := timeout |}]> (cache s);
        timers := timers s
                  ++ [(timeout, {| due := now s + timer_delay (delay locals);
                                   target := namespacedKey locals |})];
        next_timer := S timeout;
        now := now s |}).

(** A [set] that nothing interrupts at its [await]. *)
Definition set (key : string) (ttl : Q) : M State unit :=
  (let! locals := set_begin key ttl in set_resume locals)%async.

(** Two [set] calls on one key of which the second is made before the
    first is awaited ([const a = cache.set(key, ttl1); const b =
    cache.set(key, ttl2)]): each runs up to its [await], then they resume
    in the order in which they were made. *)
Definition set_twice_unawaited (key : string) (ttl1 ttl2 : Q) : M State unit :=
  (let! first := set_begin key ttl1 in
   let! second := set_begin key ttl2 in
   let! _ := set_resume first in
   set_resume second)%async.

Definition clear : M State unit :=
  fun s =>
    (Ok tt,
     {| cache := ∅;
        timers := foldr (fun entry pending => clearTimeout (timeout entry.2) pending)
                        (timers s) (map_to_list (cache s));
        next_timer := next_timer s;
        now := now s |}).

#[export] Instance memory_cache : Cache State :=
  {| Base.has := has; Base.set := set; Base.delete := delete;
     Base.clear := Some clear |}.
End Instance.

(** *** The runtime between two calls

    The clock moves on, and a pending timer that has come due runs its
    callback; a timer may run late, never before its delay has passed. *)

Definition tick (t : Z) (s : State) : State :=
  {| cache := cache s; timers := timers s; next_timer := next_timer s; now := t |}.

(** The callback [() => this.cache.delete(namespacedKey)] of timer
    [handle]; a timer that has run is no longer pending. *)
Definition fire (handle : nat) (tm : Timer) (s : State) : State :=
  {| cache := base.delete (target tm) (cache s);
     timers := clearTimeout handle (timers s);
     next_timer := next_timer s;
     now := now s |}.

Inductive runtime_step : State -> State -> Prop :=
  | step_tick s t :
      now s <= t -> runtime_step s (tick t s)
  | step_fire s handle tm :
      (handle, tm) ∈ timers s ->
      due tm <= now s ->
      runtime_step s (fire handle tm s).

(** Any stretch of time between two calls. *)
Definition passes : State -> State -> Prop := rtc runtime_step.

(** What may go on between two submissions of the message with key
    [key]: time passes, and the instance serves calls that neither delete
    nor overwrite that key. *)
Inductive meanwhile_step (options : Options) (key : string) : State -> State -> Prop :=
  | meanwhile_runtime s s1 :
      runtime_step s s1 -> meanwhile_step options key s s1
  | meanwhile_has key' s :
      meanwhile_step options key s (has options key' s).2
  | meanwhile_set key' ttl s :
      key' <> key -> meanwhile_step options key s (set options key' ttl s).2
  | meanwhile_delete key' s :
      key' <> key -> meanwhile_step options key s (delete options key' s).2.

Definition meanwhile (options : Options) (key : string) : State -> State -> Prop :=
  rtc (meanwhile_step options key).

(** [createMemoryCache]. *)
Definition createMemoryCache (options : DeduplicatorOptions) : Options :=
  base_options options.

(** The store and the timers agree: every entry holds the handle of a
    pending timer that targets its key, every pending timer belongs to the
    entry of its target, and handles are not reused. *)
Record consistent (s : State) : Prop := {
  entry_has_timer :
    forall k e, cache s !! k = Some e ->
      exists d, (timeout e, {| due := d; target := k |}) ∈ timers s;
  timer_has_entry :
    forall id tm, (id, tm) ∈ timers s ->
      exists e, cache s !! target tm = Some e /\ timeout e = id;
  handles_fresh :
    forall id tm, (id, tm) ∈ timers s -> (id < next_timer s)%nat;
  handles_unique :
    forall id tm1 tm2, (id, tm1) ∈ timers s -> (id, tm2) ∈ timers s -> tm1 = tm2;
}.

(** The states an instance goes through when the calls of its methods are
    made one after another, each awaited before the next, with the passing
    of time in between.  (Calls that overlap reach further states:
    [set_twice_unawaited].) *)
Inductive reachable (options : Options) : State -> Prop :=
  | reach_new t : reachable options (empty t)
  | reach_has key s :
      reachable options s -> reachable options (has options key s).2
  | reach_set key ttl s :
      reachable options s -> reachable options (set options key ttl s).2
  | reach_delete key s :
      reachable options s -> reachable options (delete options key s).2
  | reach_clear s :
      reachable options s -> reachable options (clear s).2
  | reach_runtime s s1 :
      reachable options s -> runtime_step s s1 -> reachable options s1.

End MemoryCache.

(** ** Networked TTL cache ([src/lib/cache/redis.ts]) *)

Module RedisCache.

(** What a scan stream emits: its ['data'] batches, then ['end'] or
    ['error']. *)
Record ScanEvents : Type := {
  data : list (list string);
  failure : option JSError;
}.

(** The part of the [ioredis] client the cache calls, over a client state
    [C] (connection and server).  A rejected promise is a [Throw].  The
    pipeline's [del] only queues; [exec] sends the queued commands. *)
Class RedisClient (C : Type) : Type := {
  exists_ : string -> M C Z;
  set_ex : string -> string -> Z -> M C unit;
  del : list string -> M C Z;
  scanStream : string -> Z -> C -> ScanEvents * C;
  exec : list (list string) -> M C unit;
  quit : M C unit;
}.

Record State (C : Type) : Type := {
  client : C;
  isConnected : bool;
}.
Arguments client {C} _.
Arguments isConnected {C} _.

Record RedisCacheOptions : Type := {
  prefix_option : option string;
  ttl_option : option Q;
  debug_option : option bool;
}.

(** [s.replace(/:?$/, '')]. *)
Fixpoint strip_trailing_colon (s : string) : string :=
  match s with
  | EmptyString => EmptyString
  | String c EmptyString => if Ascii.eqb c ":" then EmptyString else s
  | String c rest => String c (strip_trailing_colon rest)
  end.

Fixpoint ends_with_colon (s : string) : bool :=
  match s with
  | EmptyString => false
  | String c EmptyString => Ascii.eqb c ":"
  | String _ rest => ends_with_colon rest
  end.

(** [s.replace(/::+/g, ':')]; [after_colon] tells that the previous
    character was a colon. *)
Fixpoint collapse_colons (after_colon : bool) (s : string) : string :=
  match s with
  | EmptyString => EmptyString
  | String c rest =>
      if Ascii.eqb c ":" then
        if after_colon then collapse_colons true rest
        else String c (collapse_colons true rest)
      else String c (collapse_colons false rest)
  end.

(** The constructor's option handling; the instance starts connected. *)
Definition cache_options (options : RedisCacheOptions) : Options :=
  base_options
    {| opt_ttl := ttl_option options;
       opt_namespace :=
         Some (match prefix_option options with
               | Some p => if String.eqb p "" then "ts-dedup" else strip_trailing_colon p
               | None => "ts-dedup"
               end);
       opt_debug := debug_option options |}.

Definition prefix_of (options : Options) : string :=
  if ends_with_colon (namespace options) then namespace options
  else namespace options +:+ ":".

Section Instance.
Context {C : Type} `{RedisClient C}.
Variable options : Options.

Definition prefix : string := prefix_of options.
Definition defaultTtl : Q := ttl options.

Definition init (c : C) : State C := {| client := c; isConnected := true |}.

(** Connection lifecycle events of the transport. *)
Definition on_connect (s : State C) : State C :=
  {| client := client s; isConnected := true |}.
Definition on_end (s : State C) : State C :=
  {| client := client s; isConnected := false |}.

(** A call on [this.client]. *)
Definition call {A} (m : M C A) : M (State C) A :=
  fun s =>
    let '(r, c) := m (client s) in
    (r, {| client := c; isConnected := isConnected s |}).

Definition getKey (key : string) : Res string :=
  if String.eqb key "" then Throw (Error "Cache key cannot be empty")
  else Ok (collapse_colons false (prefix +:+ key)).

Definition has (key : string) : M (State C) bool :=
  (let! connected := gets isConnected in
   if negb connected then ret false
   else
     try_catch
       (let! cacheKey := lift (getKey key) in
        let! result := call (exists_ cacheKey) in
        ret (result =? 1))
       (fun _ => ret false))%async.

Definition set (key : string) (ttl : Q) : M (State C) unit :=
  (if String.eqb key "" then throw (Error "Cache key cannot be empty")
   else if Qle_bool ttl 0 then throw (Error "TTL must be greater than 0")
   else
     let! connected := gets isConnected in
     if negb connected then ret tt
     else
       let! cacheKey := lift (getKey key) in
       let ttlSeconds := Z.max 1 (Qfloor ttl) in
       try_catch
         (call (set_ex cacheKey "1" ttlSeconds))
         (fun error => throw error))%async.

Definition delete (key : string) : M (State C) unit :=
  (if String.eqb key "" then ret tt
   else
     let! connected := gets isConnected in
     if negb connected then ret tt
     else
       try_catch
         (let! cacheKey := lift (getKey key) in
          let! _ := call (del [cacheKey]) in
          ret tt)
         (fun _ => ret tt))%async.

Definition deleteWithResult (key : string) : M (State C) bool :=
  (let! connected := gets isConnected in
   if String.eqb key "" || negb connected then ret false
   else
     try_catch
       (let! cacheKey := lift (getKey key) in
        let! result := call (del [cacheKey]) in
        ret (0 <? result))
       (fun _ => ret false))%async.

(** The accumulators of [clearWithCount]: the pipeline's queued [del]
    commands, [keysToDelete] and [deletedCount]. *)
Record Scan : Type := {
  pipeline : list (list string);
  keysToDelete : list string;
  deletedCount : nat;
}.

(** The ['data'] handler. *)
Definition on_data (acc : Scan) (keys : list string) : Scan :=
  if (length keys =? 0)%nat then acc
  else
    let queued := keysToDelete acc ++ keys in
    if (100 <=? length queued)%nat then
      {| pipeline := pipeline acc ++ [queued];
         keysToDelete := [];
         deletedCount := deletedCount acc + length queued |}
    else
      {| pipeline := pipeline acc;
         keysToDelete := queued;
         deletedCount := deletedCount acc |}.

(** The ['end'] handler. *)
Definition on_stream_end (acc : Scan) : M (State C) nat :=
  (let acc :=
     if (0 <? length (keysToDelete acc))%nat then
       {| pipeline := pipeline acc ++ [keysToDelete acc];
          keysToDelete := keysToDelete acc;
          deletedCount := deletedCount acc + length (keysToDelete acc) |}
     else acc in
   try_catch
     (let! _ := (if (0 <? deletedCount acc)%nat then call (exec (pipeline acc))
                 else ret tt) in
      ret (deletedCount acc))
     (fun error => throw error))%async.

Definition clearWithCount : M (State C) nat :=
  (let! connected := gets isConnected in
   if negb connected then ret 0%nat
   else
     try_catch
       (fun s =>
          let '(events, c) := scanStream (prefix +:+ "*") 100 (client s) in
          let s := {| client := c; isConnected := isConnected s |} in
          let acc := fold_left on_data (data events)
                       {| pipeline := []; keysToDelete := []; deletedCount := 0 |} in
          match failure events with
          | Some error => throw error s
          | None => on_stream_end acc s
          end)
       (fun error => throw error))%async.

Definition clear : M (State C) unit :=
  (let! connected := gets isConnected in
   if negb connected then ret tt
   else
     try_catch
       (let! _ := clearWithCount in ret tt)
       (fun _ => ret tt))%async.

Definition disconnect : M (State C) bool :=
  (let! connected := gets isConnected in
   if negb connected then ret true
   else
     try_catch
       (let! _ := call quit in
        let! _ := modify on_end in
        ret true)
       (fun _ => ret false))%async.

#[export] Instance redis_cache : Cache (State C) :=
  {| Base.has := has; Base.set := set; Base.delete := delete;
     Base.clear := Some clear |}.
End Instance.

End RedisCache.

(** ** Deduplicator ([src/lib/deduplicator.ts]) *)

Module Deduplicator.

(** A property read [message.name]; a missing property reads [undefined]. *)
Definition property (name : string) (message : JSValue) : JSValue :=
  match message with
  | JObject _ fields => default JUndefined (get_field name fields)
  | _ => JUndefined
  end.

(** ['payload' in message]. *)
Definition has_payload (message : JSValue) : bool :=
  match message with
  | JObject _ fields => has_field "payload" fields
  | _ => false
  end.

(** [message && typeof message === 'object' && 'payload' in message]. *)
Definition is_envelope (message : JSValue) : bool :=
  truthy message && typeof_object message && has_payload message.

Definition normalizeMessage (message : JSValue) : JSValue :=
  if is_envelope message then message
  else obj [("payload", message); ("format", JString "json")].

Section Instance.
Context {S : Type} `{Cache S}.
Variable options : Options.

Definition getCacheKey (message : JSValue) : Res string :=
  let deduplicationKey := property "deduplicationKey" message in
  if truthy deduplicationKey then
    Ok (namespace options +:+ ":" +:+ js_ToString deduplicationKey)
  else
    res_bind (hashMessage (property "payload" message) (property "format" message))
             (fun hash => Ok (namespace options +:+ ":" +:+ hash)).

Definition isDuplicate (message : JSValue) : M S bool :=
  (let normalized := normalizeMessage message in
   let! key := lift (getCacheKey normalized) in
   try_catch
     (let! present := has key in
      if present : bool then ret true
      else
        let! _ := set key (ttl options) in
        ret false)
     (fun _ => ret false))%async.

Record Processed (R : Type) : Type := {
  result : option R;
  duplicate : bool;
}.

Definition processIfNotDuplicate {R} (message : JSValue)
    (processor : JSValue -> M S R) : M S (Processed R) :=
  (let! isDup := isDuplicate message in
   if isDup : bool then ret {| result := None; duplicate := true |}
   else
     let normalized := normalizeMessage message in
     let! r := processor (property "payload" normalized) in
     ret {| result := Some r; duplicate := false |})%async.

Definition removeFromCache (message : JSValue) : M S unit :=
  (let normalized := normalizeMessage message in
   let! key := lift (getCacheKey normalized) in
   try_catch
     (delete key)
     (fun error => throw error))%async.

Definition clearCache : M S unit :=
  try_catch
    (match clear with
     | Some clear_it => clear_it
     | None => ret tt
     end)
    (fun error => throw error).
End Instance.

End Deduplicator.

(** ** Test doubles

    A scripted backend (any object implementing [Cache] can be injected
    into the [Deduplicator]) and a scripted Redis client, used to run the
    code on concrete inputs. *)

Module Fixtures.

(** A backend whose operations can be made to throw. *)
Record Scripted : Type := {
  known : gset string;
  has_error : option JSError;
  set_error : option JSError;
  admin_error : option JSError;
}.

Definition with_known (keys : gset string) (s : Scripted) : Scripted :=
  {| known := keys; has_error := has_error s; set_error := set_error s;
     admin_error := admin_error s |}.

#[export] Instance scripted_cache : Cache Scripted :=
  {| has key := fun s =>
       match has_error s with
       | Some e => (Throw e, s)
       | None => (Ok (bool_decide (key ∈ known s)), s)
       end;
     set key _ := fun s =>
       match set_error s with
       | Some e => (Throw e, s)
       | None => (Ok tt, with_known ({[key]} ∪ known s) s)
       end;
     delete key := fun s =>
       match admin_error s with
       | Some e => (Throw e, s)
       | None => (Ok tt, with_known (known s ∖ {[key]}) s)
       end;
     clear := Some (fun s =>
       match admin_error s with
       | Some e => (Throw e, s)
       | None => (Ok tt, with_known ∅ s)
       end) |}.

(** A Redis client in front of a key set; every command is rejected while
    the wire is down. *)
Record Wire : Type := {
  stored : gset string;
  up : bool;
}.

Definition closed : JSError := Error "Connection is closed.".

Definition matches (pattern key : string) : bool :=
  String.prefix (String.substring 0 (String.length pattern - 1) pattern) key.

#[export] Instance wire_client : RedisCache.RedisClient Wire :=
  {| RedisCache.exists_ key := fun w =>
       if up w then (Ok (if bool_decide (key ∈ stored w) then 1 else 0), w)
       else (Throw closed, w);
     RedisCache.set_ex key _ _ := fun w =>
       if up w then (Ok tt, {| stored := {[key]} ∪ stored w; up := true |})
       else (Throw closed, w);
     RedisCache.del keys := fun w =>
       if up w then
         (Ok (Z.of_nat (length (List.filter (fun k => bool_decide (k ∈ stored w)) keys))),
          {| stored := stored w ∖ list_to_set keys; up := true |})
       else (Throw closed, w);
     RedisCache.scanStream pattern _ := fun w =>
       if up w then
         ({| RedisCache.data := [List.filter (matches pattern) (elements (stored w))];
             RedisCache.failure := None |}, w)
       else ({| RedisCache.data := []; RedisCache.failure := Some closed |}, w);
     RedisCache.exec commands := fun w =>
       if up w then
         (Ok tt, {| stored := stored w ∖ list_to_set (concat commands); up := true |})
       else (Throw closed, w);
     RedisCache.quit := fun w =>
       (Ok tt, {| stored := stored w; up := false |}) |}.

Definition defaults : Options :=
  base_options {| opt_ttl := None; opt_namespace := None; opt_debug := None |}.

(** A deduplicator configured with a TTL of thirty days. *)
Definition thirty_days : Options :=
  base_options {| opt_ttl := Some (2592000 : Q); opt_namespace := None; opt_debug := None |}.

(** The message [{id: "1"}] and its key under the default namespace. *)
Definition message_1 : JSValue := obj [("id", JString "1")].
Definition text_1 : string := "{" +:+ json_quote "id" +:+ ":" +:+ json_quote "1" +:+ "}".
Definition key_1 : string := "ts-dedup:" +:+ Crypto.sha256 text_1.

(** Two spellings of one payload, reordered at both levels. *)
Definition order_1 : JSValue :=
  obj [("b", JNumber 1);
       ("a", obj [("y", JNull); ("x", JArray [JString "p"; JBool true])])].
Definition order_2 : JSValue :=
  obj [("a", obj [("x", JArray [JString "p"; JBool true]); ("y", JNull)]);
       ("b", JNumber 1)].

(** An envelope around [{id: "1"}], twice, with different extra fields;
    and an object that itself has a [payload] property. *)
Definition envelope_1 : JSValue :=
  obj [("payload", message_1); ("traceId", JString "a")].
Definition envelope_2 : JSValue :=
  obj [("receivedAt", JNumber 7); ("payload", message_1)].
Definition has_payload_1 : JSValue := obj [("payload", JNumber 1)].

(** The in-process cache after two insertions. *)
Definition two_entries : MemoryCache.State :=
  (MemoryCache.set defaults "b" 60
     (MemoryCache.set defaults "a" 60 (MemoryCache.empty 0)).2).2.

Definition quiet (keys : gset string) : Scripted :=
  {| known := keys; has_error := None; set_error := None; admin_error := None |}.

Definition failing_has : Scripted :=
  {| known := ∅; has_error := Some (Error "backend unavailable");
     set_error := None; admin_error := None |}.

Definition failing_set : Scripted :=
  {| known := ∅; has_error := None;
     set_error := Some (Error "backend unavailable"); admin_error := None |}.

Definition failing_admin : Scripted :=
  {| known := ∅; has_error := None; set_error := None;
     admin_error := Some (Error "backend unavailable") |}.

(** Networked cache instances: the wire up or down, and whether the
    instance has been told. *)
Definition redis (keys : gset string) (wire_up connected : bool) :
    RedisCache.State Wire :=
  {| RedisCache.client := {| stored := keys; up := wire_up |};
     RedisCache.isConnected := connected |}.

End Fixtures.

(** ** Further methods of the networked cache ([src/lib/cache/redis.ts]) *)

Module RedisAdmin.

(** [client.status] and [client.info()]. *)
Class RedisInfo (C : Type) : Type := {
  status : C -> string;
  info : M C string;
}.

Definition isConnectedToRedis {C : Type} `{RedisInfo C} (s : RedisCache.State C) : bool :=
  RedisCache.isConnected s && String.eqb (status (RedisCache.client s)) "ready".

Definition getServerInfo {C : Type} `{RedisInfo C} : M (RedisCache.State C) string :=
  (let! connected := gets RedisCache.isConnected in
   if negb connected then ret "Redis client not connected"
   else
     try_catch (RedisCache.call info)
               (fun _ => ret "Error getting server info"))%async.

(** [createRedisCache(options, cacheOptions)]: the cache options are those
    given; the first argument only selects how the client is built. *)
Definition createRedisCache (cacheOptions : RedisCache.RedisCacheOptions) : Options :=
  RedisCache.cache_options cacheOptions.

(** Whether two colons stand next to each other somewhere in a string. *)
Fixpoint has_double_colon (s : string) : bool :=
  match s with
  | String a (String b _ as rest) =>
      (Ascii.eqb a ":" && Ascii.eqb b ":") || has_double_colon rest
  | _ => false
  end.

End RedisAdmin.

(** ** The earlier networked cache ([src/lib/cache], second [RedisCache])

    The variant without connection tracking: the instance is its client. *)

Module RedisCacheLegacy.

Record Settings : Type := {
  prefix : string;
  defaultTtl : Q;
  debugEnabled : bool;
}.

(** The constructor: [options.prefix || 'ts-dedup:'], [options.ttl ?? 300],
    [options.debug ?? false]. *)
Definition settings (options : RedisCache.RedisCacheOptions) : Settings :=
  {| prefix := match RedisCache.prefix_option options with
               | Some p => if String.eqb p "" then "ts-dedup:" else p
               | None => "ts-dedup:"
               end;
     defaultTtl := default (300 : Q) (RedisCache.ttl_option options);
     debugEnabled := default false (RedisCache.debug_option options) |}.

Section Instance.
Context {C : Type} `{RedisCache.RedisClient C}.
Variable options : Settings.

Definition getKey (key : string) : string := prefix options +:+ key.

Definition has (key : string) : M C bool :=
  try_catch
    (let! result := RedisCache.exists_ (getKey key) in
     ret (result =? 1))%async
    (fun _ => ret false).

Definition set (key : string) (ttl : Q) : M C unit :=
  try_catch
    (RedisCache.set_ex (getKey key) "1" (Z.max 1 (Qfloor ttl)))
    (fun error => throw error).

Definition delete (key : string) : M C unit :=
  try_catch
    (let! _ := RedisCache.del [getKey key] in ret tt)%async
    (fun error => throw error).

(** The ['end'] handler. *)
Definition on_stream_end (acc : RedisCache.Scan) : M C unit :=
  (let acc :=
     if (0 <? length (RedisCache.keysToDelete acc))%nat then
       {| RedisCache.pipeline :=
            RedisCache.pipeline acc ++ [RedisCache.keysToDelete acc];
          RedisCache.keysToDelete := RedisCache.keysToDelete acc;
          RedisCache.deletedCount :=
            RedisCache.deletedCount acc + length (RedisCache.keysToDelete acc) |}
     else acc in
   try_catch
     (let! _ := (if (0 <? RedisCache.deletedCount acc)%nat
                 then RedisCache.exec (RedisCache.pipeline acc)
                 else ret tt) in
      ret tt)
     (fun error => throw error))%async.

Definition clear : M C unit :=
  try_catch
    (fun c =>
       let '(events, c) := RedisCache.scanStream (prefix options +:+ "*") 100 c in
       let acc := fold_left RedisCache.on_data (RedisCache.data events)
                    {| RedisCache.pipeline := [];
                       RedisCache.keysToDelete := [];
                       RedisCache.deletedCount := 0 |} in
       match RedisCache.failure events with
       | Some error => throw error c
       | None => on_stream_end acc c
       end)
    (fun error => throw error).

Definition disconnect : M C unit :=
  try_catch RedisCache.quit (fun error => throw error).

#[export] Instance legacy_cache : Cache C :=
  {| Base.has := has; Base.set := set; Base.delete := delete;
     Base.clear := Some clear |}.
End Instance.

End RedisCacheLegacy.

(** ** Shapes of payloads *)

Module Payloads.

(** No property of an object, at any depth, holds an invalid Date.  (A
    Date that is the payload itself or an array element is never asked for
    its ISO text.) *)
Inductive date_properties_valid : JSValue -> Prop :=
  | valid_undefined : date_properties_valid JUndefined
  | valid_null : date_properties_valid JNull
  | valid_bool b : date_properties_valid (JBool b)
  | valid_number n : date_properties_valid (JNumber n)
  | valid_string s : date_properties_valid (JString s)
  | valid_date t : date_properties_valid (JDate t)
  | valid_buffer bytes : date_properties_valid (JBuffer bytes)
  | valid_array items :
      Forall date_properties_valid items -> date_properties_valid (JArray items)
  | valid_object ser fields :
      Forall (fun kv => kv.2 <> JDate None /\ date_properties_valid kv.2) fields ->
      date_properties_valid (JObject ser fields).

(** The properties that hold a value other than [undefined], with [f]
    applied to the value. *)
Definition defined_fields (f : JSValue -> JSValue) :
    list (string * JSValue) -> list (string * JSValue) :=
  fix go fields :=
    match fields with
    | [] => []
    | (_, JUndefined) :: rest => go rest
    | (k, x) :: rest => (k, f x) :: go rest
    end.

(** The payload with every property that holds [undefined] left out, at
    any depth. *)
Fixpoint without_undefined (v : JSValue) : JSValue :=
  match v with
  | JArray items => JArray (map without_undefined items)
  | JObject ser fields => JObject ser (defined_fields without_undefined fields)
  | _ => v
  end.

End Payloads.

(** ** Construction ([src/lib/deduplicator.ts])

    How [this.options] of a [Deduplicator] comes about.  A property of an
    options literal is left out, or present and holding [undefined] or a
    value; the constructor and the two factories tell these apart. *)

Module Construction.

Inductive Given (A : Type) : Type :=
  | Absent
  | Undefined
  | Value (a : A).
Arguments Absent {A}.
Arguments Undefined {A}.
Arguments Value {A} a.

Record Supplied : Type := {
  ttl_supplied : Given Q;
  namespace_supplied : Given string;
  debug_supplied : Given bool;
}.

(** [options.p ?? d]. *)
Definition nullish {A} (p : Given A) (d : A) : A :=
  match p with
  | Value a => a
  | Absent | Undefined => d
  end.

(** [{ p: earlier, ...options }]: the spread copies every own property of
    [options] over the one written before it, also a property that holds
    [undefined] ([None]). *)
Definition spread {A} (earlier : A) (p : Given A) : option A :=
  match p with
  | Absent => Some earlier
  | Undefined => None
  | Value a => Some a
  end.

(** [this.options]. *)
Record Settings : Type := {
  ttl_setting : option Q;
  namespace_setting : option string;
  debug_setting : option bool;
}.

(** The constructor:
    [{ ttl: options.ttl ?? 300, namespace: options.namespace ?? 'ts-dedup',
       debug: options.debug ?? false, ...options }]. *)
Definition constructor (options : Supplied) : Settings :=
  {| ttl_setting := spread (nullish (ttl_supplied options) (300 : Q)) (ttl_supplied options);
     namespace_setting :=
       spread (nullish (namespace_supplied options) "ts-dedup") (namespace_supplied options);
     debug_setting :=
       spread (nullish (debug_supplied options) false) (debug_supplied options) |}.

(** [createMemoryDeduplicator(options)] passes [{ ...options, cache }]. *)
Definition createMemoryDeduplicator (options : Supplied) : Settings :=
  constructor options.

(** [p ?? options.p] as the value of a property that is always written. *)
Definition written {A} (p : Given A) : Given A :=
  match p with
  | Value a => Value a
  | Absent | Undefined => Undefined
  end.

(** [createRedisDeduplicator(options)] passes
    [{ ...deduplicatorOptions, cache, ttl: ttl ?? options.ttl,
       namespace: namespace ?? options.namespace }]. *)
Definition createRedisDeduplicator (options : Supplied) : Settings :=
  constructor
    {| ttl_supplied := written (ttl_supplied options);
       namespace_supplied := written (namespace_supplied options);
       debug_supplied := debug_supplied options |}.

(** What the methods read from [this.options]: the namespace inside a
    template literal, and the TTL handed to [cache.set(key, ttl)], where
    the default parameter of the networked cache's [set]
    ([ttl = this.defaultTtl]) stands in for [undefined]. *)
Definition in_use (defaultTtl : Q) (settings : Settings) : Options :=
  {| ttl := default defaultTtl (ttl_setting settings);
     namespace := match namespace_setting settings with
                  | Some ns => ns
                  | None => "undefined"
                  end;
     debug := default false (debug_setting settings) |}.

End Construction.

(** ** Scenarios

    Further instances and payloads on which the code is run. *)

Module Scenarios.

Import Fixtures.

(** The status and the [INFO] reply of the scripted client. *)
#[export] Instance wire_info : RedisAdmin.RedisInfo Wire :=
  {| RedisAdmin.status w := if up w then "ready" else "end";
     RedisAdmin.info := fun w =>
       if up w then (Ok "redis_version:7.2.0", w) else (Throw closed, w) |}.

(** The in-process cache holding the key of [{id: "1"}] since instant 0. *)
Definition one_entry : MemoryCache.State :=
  (MemoryCache.set defaults key_1 300 (MemoryCache.empty 0)).2.

Definition entry_1 : MemoryCache.CacheEntry :=
  {| MemoryCache.expires := (inject_Z 0 + 300 * 1000)%Q; MemoryCache.timeout := 0 |}.


(** An envelope that names its own key. *)
Definition keyed_1 : JSValue :=
  obj [("payload", message_1); ("deduplicationKey", JString "order-1")].

(** A payload with a property left [undefined] and a date. *)
Definition sparse_1 : JSValue :=
  obj [("id", JString "1"); ("note", JUndefined); ("at", JDate (Some 0))].

(** A networked cache configured with a prefix that holds two colons in a
    row. *)
Definition doubled : Options :=
  RedisCache.cache_options
    {| RedisCache.prefix_option := Some "app::cache";
       RedisCache.ttl_option := None;
       RedisCache.debug_option := None |}.

(** A server holding two keys of the default prefix and one of another. *)
Definition three_keys : gset string :=
  {[ "ts-dedup:a"; "ts-dedup:b"; "other:c" ]}.

(** Options literals: nothing supplied. *)
Definition nothing_supplied : Construction.Supplied :=
  {| Construction.ttl_supplied := Construction.Absent;
     Construction.namespace_supplied := Construction.Absent;
     Construction.debug_supplied := Construction.Absent |}.

End Scenarios.

(** * Properties *)

(** ** The model on known values *)

Example sha256_constants :
  hd 0 Crypto.K256 = 1116352408 /\ last Crypto.K256 = Some 3329325298
  /\ hd 0 Crypto.H256 = 1779033703 /\ last Crypto.H256 = Some 1541459225
  /\ length Crypto.K256 = 64%nat.
Proof. vm_compute. repeat split. Qed.

Example sha256_abc :
  Crypto.sha256 "abc" = "ba7816bf8f01cfea414140de5dae2223b00361a396177a9cb410ff61f20015ad".
Proof. vm_compute. reflexivity. Qed.

Example sha256_empty :
  Crypto.sha256 "" = "e3b0c44298fc1c149afbf4c8996fb92427ae41e4649b934ca495991b7852b855".
Proof. vm_compute. reflexivity. Qed.

Example sha256_two_blocks :
  Crypto.sha256 "abcdbcdecdefdefgefghfghighijhijkijkljklmklmnlmnomnopnopq"
  = "248d6a61d20638b8e5c026930c3e6039a33ce45964ff2167f6ecedd419db06c1".
Proof. vm_compute. reflexivity. Qed.

Example iso_epoch : iso_of_time 0 = "1970-01-01T00:00:00.000Z".
Proof. vm_compute. reflexivity. Qed.

Example iso_recent : iso_of_time 1700000000123 = "2023-11-14T22:13:20.123Z".
Proof. vm_compute. reflexivity. Qed.

Example iso_before_epoch : iso_of_time (-1) = "1969-12-31T23:59:59.999Z".
Proof. vm_compute. reflexivity. Qed.

Example iso_leap_day : iso_of_time 1709209800000 = "2024-02-29T12:30:00.000Z".
Proof. vm_compute. reflexivity. Qed.

Example stringify_nested :
  stringify (obj [("a", JArray [JNumber 1; JUndefined; JNull]);
                  ("b", JUndefined); ("c", JString ("x" +:+ dquote +:+ "y"))])
  = Some ("{" +:+ dquote +:+ "a" +:+ dquote +:+ ":[1,null,null],"
          +:+ dquote +:+ "c" +:+ dquote +:+ ":"
          +:+ dquote +:+ "x\" +:+ dquote +:+ "y" +:+ dquote +:+ "}").
Proof. vm_compute. reflexivity. Qed.

Example set_field_order :
  map fst (set_field "1" tt (set_field "b" tt (set_field "10" tt (set_field "a" tt []))))
  = ["1"; "10"; "a"; "b"].
Proof. vm_compute. reflexivity. Qed.

Example normalize_sorts_keys :
  normalizeObject (obj [("b", JNumber 1); ("a", obj [("z", JNull); ("y", JUndefined)])])
  = Ok (obj [("a", obj [("z", JNull)]); ("b", JNumber 1)]).
Proof. vm_compute. reflexivity. Qed.

Example hashJson_id_1 :
  hashJson (obj [("id", JString "1")])
  = Ok (Crypto.sha256 ("{" +:+ json_quote "id" +:+ ":" +:+ json_quote "1" +:+ "}")).
Proof. vm_compute. reflexivity. Qed.

(** ** The fail-open boundary of [isDuplicate] *)

Section Orchestrator.
Context {S : Type} `{Cache S}.
Variable options : Options.

Import Deduplicator.

Lemma isDuplicate_key_error message e s :
  getCacheKey options (normalizeMessage message) = Throw e ->
  isDuplicate options message s = (Throw e, s).
Proof.
  intros Hkey. unfold isDuplicate, bind, lift. now rewrite Hkey.
Qed.

Lemma isDuplicate_unfold message key s :
  getCacheKey options (normalizeMessage message) = Ok key ->
  isDuplicate options message s
  = match has key s with
    | (Ok true, s1) => (Ok true, s1)
    | (Ok false, s1) =>
        match set key (ttl options) s1 with
        | (_, s2) => (Ok false, s2)
        end
    | (Throw _, s1) => (Ok false, s1)
    end.
Proof.
  intros Hkey. unfold isDuplicate, bind, lift, try_catch, ret.
  rewrite Hkey.
  destruct (has key s) as [[[|]|e] s1]; try reflexivity.
  destruct (set key (ttl options) s1) as [[[]|e] s2]; reflexivity.
Qed.

(** C4. A throw of the key derivation leaves [isDuplicate] with the same
    error and an untouched backend; a throw of the backend's [has], or of
    the [set] that follows an absent key, is turned into the answer
    [false]. *)
Theorem isDuplicate_fail_open_boundary message s :
  (forall e,
      getCacheKey options (normalizeMessage message) = Throw e ->
      isDuplicate options message s = (Throw e, s))
  /\ (forall key e s1,
        getCacheKey options (normalizeMessage message) = Ok key ->
        has key s = (Throw e, s1) ->
        isDuplicate options message s = (Ok false, s1))
  /\ (forall key e s1 s2,
        getCacheKey options (normalizeMessage message) = Ok key ->
        has key s = (Ok false, s1) ->
        set key (ttl options) s1 = (Throw e, s2) ->
        isDuplicate options message s = (Ok false, s2)).
Proof.
  split; [|split].
  - intros e. apply isDuplicate_key_error.
  - intros key e s1 Hkey Hhas.
    rewrite (isDuplicate_unfold _ _ _ Hkey), Hhas. reflexivity.
  - intros key e s1 s2 Hkey Hhas Hset.
    rewrite (isDuplicate_unfold _ _ _ Hkey), Hhas, Hset. reflexivity.
Qed.

Lemma isDuplicate_present message key s s1 :
  getCacheKey options (normalizeMessage message) = Ok key ->
  has key s = (Ok true, s1) ->
  isDuplicate options message s = (Ok true, s1).
Proof.
  intros Hkey Hhas. rewrite (isDuplicate_unfold _ _ _ Hkey), Hhas. reflexivity.
Qed.

Lemma removeFromCache_propagates message key e s s1 :
  getCacheKey options (normalizeMessage message) = Ok key ->
  delete key s = (Throw e, s1) ->
  removeFromCache options message s = (Throw e, s1).
Proof.
  intros Hkey Hdel. unfold removeFromCache, bind, lift, try_catch, throw.
  now rewrite Hkey, Hdel.
Qed.

Lemma clearCache_propagates clear_it e s s1 :
  clear = Some clear_it ->
  clear_it s = (Throw e, s1) ->
  clearCache s = (Throw e, s1).
Proof.
  intros Hcap Hclear. unfold clearCache, try_catch, throw.
  now rewrite Hcap, Hclear.
Qed.
End Orchestrator.

(** A [catch] block that only logs turns every outcome into a normal
    completion. *)
Lemma try_catch_swallows {S} (body : M S unit) (s : S) :
  exists s1, try_catch body (fun _ => ret tt) s = (Ok tt, s1).
Proof.
  unfold try_catch, ret. destruct (body s) as [[[]|e] s1]; eauto.
Qed.

(** ** The networked cache *)

Section Redis.
Context {C : Type} `{RedisCache.RedisClient C}.
Variable options : Options.

Import RedisCache.

Lemma getKey_nonempty key :
  key <> "" ->
  getKey options key = Ok (collapse_colons false (prefix options +:+ key)).
Proof.
  intros Hkey. unfold getKey.
  destruct (String.eqb_spec key ""); [contradiction | reflexivity].
Qed.

Lemma set_rejects key ttl (s : State C) :
  key = "" \/ (ttl <= 0)%Q ->
  exists e, set options key ttl s = (Throw e, s).
Proof.
  intros Hbad. unfold set, throw.
  destruct (String.eqb_spec key "") as [->|Hkey]; [eauto|].
  destruct Hbad as [?|Httl]; [contradiction|].
  apply Qle_bool_iff in Httl. rewrite Httl. eauto.
Qed.

Lemma set_accepts key ttl :
  key <> "" -> (0 < ttl)%Q ->
  set options key ttl
  = (let! connected := gets isConnected in
     if negb connected then ret tt
     else
       let! cacheKey := lift (getKey options key) in
       try_catch (call (set_ex cacheKey "1" (Z.max 1 (Qfloor ttl))))
                 (fun error => throw error))%async.
Proof.
  intros Hkey Httl. unfold set.
  destruct (String.eqb_spec key ""); [contradiction|].
  destruct (Qle_bool ttl 0) eqn:Hle; [|reflexivity].
  apply Qle_bool_iff in Hle. exfalso. apply (Qlt_not_le _ _ Httl Hle).
Qed.

Lemma set_disconnected key ttl (s : State C) :
  key <> "" -> (0 < ttl)%Q -> isConnected s = false ->
  set options key ttl s = (Ok tt, s).
Proof.
  intros Hkey Httl Hdown. rewrite set_accepts by assumption.
  unfold bind, gets, ret. rewrite Hdown. reflexivity.
Qed.

Lemma set_write_fails key ttl (s : State C) e c :
  key <> "" -> (0 < ttl)%Q -> isConnected s = true ->
  set_ex (collapse_colons false (prefix options +:+ key)) "1"
         (Z.max 1 (Qfloor ttl)) (client s) = (Throw e, c) ->
  set options key ttl s = (Throw e, {| client := c; isConnected := true |}).
Proof.
  intros Hkey Httl Hup Hwrite. rewrite set_accepts by assumption.
  destruct s as [c0 connected]; cbn in Hup, Hwrite; subst connected.
  unfold bind, gets, ret, lift, try_catch, call, throw.
  rewrite getKey_nonempty by assumption. cbn.
  rewrite Hwrite. reflexivity.
Qed.

Lemma delete_never_throws key (s : State C) :
  exists s1, delete options key s = (Ok tt, s1).
Proof.
  unfold delete, bind, gets, ret, lift, try_catch, call.
  destruct (String.eqb key ""); [eauto|].
  destruct (isConnected s); cbn; [|eauto].
  destruct (getKey options key) as [cacheKey|e]; [|eauto].
  destruct (del [cacheKey] (client s)) as [[n|e] c]; eauto.
Qed.

Lemma clear_never_throws (s : State C) :
  exists s1, clear options s = (Ok tt, s1).
Proof.
  unfold clear. unfold bind at 1. unfold gets.
  destruct (isConnected s); cbv beta iota delta [negb].
  - apply try_catch_swallows.
  - unfold ret. eauto.
Qed.

Lemma has_never_throws key (s : State C) :
  exists b s1, has options key s = (Ok b, s1).
Proof.
  unfold has, bind, gets, ret, lift, try_catch, call.
  destruct (isConnected s); cbn; [|eauto].
  destruct (getKey options key) as [cacheKey|e]; [|eauto].
  destruct (exists_ cacheKey (client s)) as [[n|e] c]; eauto.
Qed.

Lemma has_found key (s : State C) c :
  key <> "" -> isConnected s = true ->
  exists_ (collapse_colons false (prefix options +:+ key)) (client s) = (Ok 1, c) ->
  has options key s = (Ok true, {| client := c; isConnected := true |}).
Proof.
  intros Hkey Hup Hexists.
  destruct s as [c0 connected]; cbn in Hup, Hexists; subst connected.
  unfold has, bind, gets, ret, lift, try_catch, call.
  rewrite getKey_nonempty by assumption. cbn.
  rewrite Hexists. reflexivity.
Qed.

(** C2, as the code has it.  With a non-empty key and a positive TTL, a
    rejected write is rethrown to the caller, and a cache that knows its
    connection to be down returns normally without calling the client. *)
Theorem redis_set_failure_modes key ttl (s : State C) :
  key <> "" -> (0 < ttl)%Q ->
  (isConnected s = true ->
   forall e c,
     set_ex (collapse_colons false (prefix options +:+ key)) "1"
            (Z.max 1 (Qfloor ttl)) (client s) = (Throw e, c) ->
     set options key ttl s = (Throw e, {| client := c; isConnected := true |}))
  /\ (isConnected s = false -> set options key ttl s = (Ok tt, s)).
Proof.
  intros Hkey Httl. split.
  - intros Hup e c Hwrite. now apply set_write_fails.
  - intros Hdown. now apply set_disconnected.
Qed.

(** The networked cache rejects an empty key and a TTL that is not
    positive before anything else: the call throws and the instance and
    its client are left as they were. *)
Theorem redis_set_validates key ttl (s : State C) :
  key = "" \/ (ttl <= 0)%Q ->
  exists e, set options key ttl s = (Throw e, s).
Proof. apply set_rejects. Qed.
End Redis.

(** ** The in-process cache *)

Section Memory.
Variable options : Options.

Import MemoryCache.

Lemma elem_of_clearTimeout handle p pending :
  p ∈ clearTimeout handle pending <-> p.1 <> handle /\ p ∈ pending.
Proof. unfold clearTimeout. now rewrite list_elem_of_filter. Qed.

Lemma empty_consistent t : consistent (empty t).
Proof.
  split; cbn.
  - intros k e Hk. rewrite lookup_empty in Hk. discriminate.
  - intros id tm Hin. apply elem_of_nil in Hin. contradiction.
  - intros id tm Hin. apply elem_of_nil in Hin. contradiction.
  - intros id tm1 tm2 Hin. apply elem_of_nil in Hin. contradiction.
Qed.

Lemma delete_ok key s : (delete options key s).1 = Ok tt.
Proof. unfold delete. destruct (cache s !! _); reflexivity. Qed.

Lemma delete_now key s : now (delete options key s).2 = now s.
Proof. unfold delete. destruct (cache s !! _); reflexivity. Qed.

Lemma delete_next_timer key s :
  next_timer (delete options key s).2 = next_timer s.
Proof. unfold delete. destruct (cache s !! _); reflexivity. Qed.

Lemma delete_cache key s :
  cache (delete options key s).2
  = base.delete (getNamespacedKey options key) (cache s).
Proof.
  unfold delete.
  destruct (cache s !! _) eqn:Hk; cbn; [reflexivity|].
  symmetry. now apply delete_id.
Qed.

Lemma delete_consistent key s :
  consistent s -> consistent (delete options key s).2.
Proof.
  intros Hs. unfold delete.
  set (nk := getNamespacedKey options key).
  destruct (cache s !! nk) as [entry|] eqn:Hentry; cbn; [|assumption].
  split; cbn.
  - intros k e Hk.
    apply lookup_delete_Some in Hk as [Hne Hk].
    destruct (entry_has_timer s Hs _ _ Hk) as [d H1].
    destruct (entry_has_timer s Hs _ _ Hentry) as [d' H2].
    exists d. apply elem_of_clearTimeout. split; [cbn|exact H1].
    intros Hsame. rewrite Hsame in H1.
    pose proof (handles_unique s Hs _ _ _ H1 H2) as Heq.
    inversion Heq. congruence.
  - intros id tm Hin.
    apply elem_of_clearTimeout in Hin as [Hne Hin]. cbn in Hne.
    destruct (timer_has_entry s Hs _ _ Hin) as (e & Hk & Hid).
    exists e. split; [|exact Hid].
    rewrite lookup_delete_ne; [assumption|].
    intros Hsame. rewrite <- Hsame, Hentry in Hk. inversion Hk. subst entry.
    now apply Hne.
  - intros id tm Hin.
    apply elem_of_clearTimeout in Hin as [_ Hin].
    now apply (handles_fresh s Hs id tm).
  - intros id tm1 tm2 H1 H2.
    apply elem_of_clearTimeout in H1 as [_ H1].
    apply elem_of_clearTimeout in H2 as [_ H2].
    now apply (handles_unique s Hs id).
Qed.

Lemma has_consistent key s :
  consistent s -> consistent (has options key s).2.
Proof.
  intros Hs. unfold has.
  destruct (cache s !! _) as [entry|]; [|assumption].
  destruct (Qltb _ _); [|assumption].
  unfold bind, ret.
  pose proof (delete_consistent key s Hs) as Hd.
  destruct (delete options key s) as [[[]|e] s1]; assumption.
Qed.

(** [set] written out: the entry and its timer are created on the state
    [delete] leaves. *)
Lemma set_unfold key ttl s :
  set options key ttl s
  = (Ok tt,
     let s1 := (delete options key s).2 in
     let nk := getNamespacedKey options key in
     let deadline := (inject_Z (now s) + ttl * 1000)%Q in
     {| cache := <[nk := {| expires := deadline; timeout := next_timer s |}]> (cache s1);
        timers := timers s1
                  ++ [(next_timer s, {| due := now s + timer_delay (ttl * 1000);
                                        target := nk |})];
        next_timer := S (next_timer s);
        now := now s |}).
Proof.
  unfold set, bind, set_begin, set_resume.
  pose proof (delete_ok key s) as Hok.
  pose proof (delete_now key s) as Hnow.
  pose proof (delete_next_timer key s) as Hnext.
  destruct (delete options key s) as [[[]|e] s1]; cbn in *; [|discriminate].
  now rewrite Hnow, Hnext.
Qed.

Lemma set_consistent key ttl s :
  consistent s -> consistent (set options key ttl s).2.
Proof.
  intros Hs. rewrite set_unfold. cbn.
  pose proof (delete_consistent key s Hs) as Hd.
  pose proof (delete_cache key s) as Hcache.
  pose proof (delete_next_timer key s) as Hnext.
  set (s1 := (delete options key s).2) in *.
  set (nk := getNamespacedKey options key) in *.
  assert (Hgone : cache s1 !! nk = None).
  { rewrite Hcache. apply lookup_delete_eq. }
  split; cbn.
  - intros k e Hk.
    destruct (decide (nk = k)) as [<-|Hne].
    + rewrite lookup_insert_eq in Hk. inversion Hk.
      eexists. apply elem_of_app. right. cbn. apply list_elem_of_singleton.
      reflexivity.
    + rewrite lookup_insert_ne in Hk by assumption.
      destruct (entry_has_timer s1 Hd _ _ Hk) as [d Hin].
      exists d. apply elem_of_app. now left.
  - intros id tm Hin. apply elem_of_app in Hin as [Hin|Hin].
    + destruct (timer_has_entry s1 Hd _ _ Hin) as (e & Hk & Hid).
      exists e. split; [|exact Hid].
      rewrite lookup_insert_ne; [assumption|].
      intros Hsame. rewrite <- Hsame, Hgone in Hk. discriminate.
    + apply list_elem_of_singleton in Hin. inversion Hin. cbn.
      eexists. split; [apply lookup_insert_eq | reflexivity].
  - intros id tm Hin. apply elem_of_app in Hin as [Hin|Hin].
    + pose proof (handles_fresh s1 Hd _ _ Hin). lia.
    + apply list_elem_of_singleton in Hin. inversion Hin. lia.
  - intros id tm1 tm2 H1 H2.
    apply elem_of_app in H1 as [H1|H1]; apply elem_of_app in H2 as [H2|H2].
    + now apply (handles_unique s1 Hd id).
    + apply list_elem_of_singleton in H2. inversion H2. subst.
      pose proof (handles_fresh s1 Hd _ _ H1). lia.
    + apply list_elem_of_singleton in H1. inversion H1. subst.
      pose proof (handles_fresh s1 Hd _ _ H2). lia.
    + apply list_elem_of_singleton in H1. apply list_elem_of_singleton in H2.
      congruence.
Qed.

Lemma elem_of_cancel_all p pending (entries : list (string * CacheEntry)) :
  p ∈ foldr (fun entry rest => clearTimeout (timeout entry.2) rest) pending entries
  <-> p ∈ pending /\ forall entry, entry ∈ entries -> p.1 <> timeout entry.2.
Proof.
  induction entries as [|entry entries IH]; cbn.
  - split; [|tauto]. intros Hin. split; [assumption|].
    intros entry Hentry. apply elem_of_nil in Hentry. contradiction.
  - rewrite elem_of_clearTimeout, IH. split.
    + intros [Hne [Hin Hrest]]. split; [assumption|].
      intros entry' [->|Hentry]%elem_of_cons; auto.
    + intros [Hin Hall]. split; [|split; [assumption|]].
      * apply Hall. left.
      * intros entry' Hentry. apply Hall. now right.
Qed.

(** On a consistent state [clear] cancels every pending timer. *)
Lemma clear_timers s : consistent s -> timers (clear s).2 = [].
Proof.
  intros Hs. cbn. apply elem_of_nil_inv. intros [id tm] Hin.
  apply elem_of_cancel_all in Hin as [Hin Hall].
  destruct (timer_has_entry s Hs _ _ Hin) as (e & Hk & Hid).
  apply elem_of_map_to_list in Hk.
  apply (Hall _ Hk). cbn. now rewrite Hid.
Qed.

Lemma clear_consistent s : consistent s -> consistent (clear s).2.
Proof.
  intros Hs. pose proof (clear_timers s Hs) as Hnone.
  split; rewrite ?Hnone; cbn.
  - intros k e Hk. rewrite lookup_empty in Hk. discriminate.
  - intros id tm Hin. apply elem_of_nil in Hin. contradiction.
  - intros id tm Hin. apply elem_of_nil in Hin. contradiction.
  - intros id tm1 tm2 Hin. apply elem_of_nil in Hin. contradiction.
Qed.

Lemma runtime_step_consistent s s1 :
  runtime_step s s1 -> consistent s -> consistent s1.
Proof.
  intros Hstep Hs.
  destruct Hstep as [s0 t Hlater | s0 handle tm Hpending Hdue].
  - destruct Hs as [H1 H2 H3 H4]. split; assumption.
  - split; cbn.
    + intros k e Hk. apply lookup_delete_Some in Hk as [Hne Hk].
      destruct (entry_has_timer s0 Hs _ _ Hk) as [d Hin].
      exists d. apply elem_of_clearTimeout. split; [cbn|assumption].
      intros Hsame. rewrite Hsame in Hin.
      pose proof (handles_unique s0 Hs _ _ _ Hin Hpending) as Heq.
      subst tm. now apply Hne.
    + intros id tm' Hin. apply elem_of_clearTimeout in Hin as [Hne Hin].
      cbn in Hne.
      destruct (timer_has_entry s0 Hs _ _ Hin) as (e & Hk & Hid).
      exists e. split; [|exact Hid].
      rewrite lookup_delete_ne; [assumption|].
      intros Hsame.
      destruct (timer_has_entry s0 Hs _ _ Hpending) as (e' & Hk' & Hid').
      rewrite Hsame, Hk in Hk'. inversion Hk'. subst e'. apply Hne. congruence.
    + intros id tm' Hin. apply elem_of_clearTimeout in Hin as [_ Hin].
      now apply (handles_fresh s0 Hs id tm').
    + intros id tm1 tm2 H1 H2.
      apply elem_of_clearTimeout in H1 as [_ H1].
      apply elem_of_clearTimeout in H2 as [_ H2].
      now apply (handles_unique s0 Hs id).
Qed.

Lemma passes_consistent s s1 : passes s s1 -> consistent s -> consistent s1.
Proof.
  induction 1 as [|s0 s1 s2 Hstep _ IH]; [tauto|].
  intros Hs. apply IH. now apply (runtime_step_consistent s0).
Qed.

Lemma runtime_step_clock s s1 : runtime_step s s1 -> now s <= now s1.
Proof. intros Hstep. destruct Hstep as [s0 t Hlater | s0 handle tm _ _]; cbn; lia. Qed.


Lemma reachable_consistent s : reachable options s -> consistent s.
Proof.
  induction 1.
  - apply empty_consistent.
  - now apply has_consistent.
  - now apply set_consistent.
  - now apply delete_consistent.
  - now apply clear_consistent.
  - now apply (runtime_step_consistent s).
Qed.

Lemma has_true_reads_only key s :
  (has options key s).1 = Ok true -> has options key s = (Ok true, s).
Proof.
  unfold has. destruct (cache s !! _) as [entry|]; [|discriminate].
  destruct (Qltb _ _); [|reflexivity].
  unfold bind, ret. destruct (delete options key s) as [[[]|e] s1]; discriminate.
Qed.

Lemma has_false_absent key s :
  (has options key s).1 = Ok false ->
  cache (has options key s).2 !! getNamespacedKey options key = None
  /\ now (has options key s).2 = now s
  /\ next_timer (has options key s).2 = next_timer s.
Proof.
  unfold has. destruct (cache s !! _) as [entry|] eqn:Hk; [|auto].
  destruct (Qltb _ _); [|discriminate]. intros _.
  unfold bind, ret.
  pose proof (delete_cache key s) as Hc.
  pose proof (delete_now key s) as Hn.
  pose proof (delete_next_timer key s) as Ht.
  destruct (delete options key s) as [[[]|e] s1]; cbn in *;
    rewrite Hc, lookup_delete_eq; auto.
Qed.

Lemma has_absent key s :
  cache s !! getNamespacedKey options key = None ->
  has options key s = (Ok false, s).
Proof. intros Hk. unfold has. now rewrite Hk. Qed.

Lemma has_live key s e :
  cache s !! getNamespacedKey options key = Some e ->
  (inject_Z (now s) <= expires e)%Q ->
  has options key s = (Ok true, s).
Proof.
  intros Hk Hlive. unfold has, Qltb. rewrite Hk.
  apply Qle_bool_iff in Hlive. now rewrite Hlive.
Qed.

Lemma set_on_absent key ttl s :
  cache s !! getNamespacedKey options key = None ->
  set options key ttl s
  = (Ok tt,
     let nk := getNamespacedKey options key in
     let deadline := (inject_Z (now s) + ttl * 1000)%Q in
     {| cache := <[nk := {| expires := deadline; timeout := next_timer s |}]> (cache s);
        timers := timers s
                  ++ [(next_timer s, {| due := now s + timer_delay (ttl * 1000);
                                        target := nk |})];
        next_timer := S (next_timer s);
        now := now s |}).
Proof.
  intros Hk. rewrite set_unfold. unfold delete. now rewrite Hk.
Qed.


Lemma timer_delay_overflow d :
  (inject_Z TIMEOUT_MAX < d)%Q -> timer_delay d = 1.
Proof.
  intros Hhigh. unfold timer_delay.
  destruct (Qle_bool d (inject_Z TIMEOUT_MAX)) eqn:Hle.
  - apply Qle_bool_iff in Hle. exfalso. apply (Qlt_not_le _ _ Hhigh Hle).
  - now rewrite andb_false_r.
Qed.

Lemma timer_delay_positive d : 1 <= timer_delay d.
Proof.
  unfold timer_delay.
  destruct (Qle_bool 1 d) eqn:Hlow; cbn [andb]; [|lia].
  destruct (Qle_bool d (inject_Z TIMEOUT_MAX)); [|lia].
  apply Qle_bool_iff in Hlow. apply (Qfloor_resp_le 1 d Hlow).
Qed.

(** An entry outlives the passing of time up to any instant at which its
    timer is not due: the only timer that targets its key is its own. *)
Lemma entry_survives_step s s1 key e :
  consistent s ->
  cache s !! key = Some e ->
  (forall tm, (timeout e, tm) ∈ timers s -> now s1 < due tm) ->
  runtime_step s s1 ->
  cache s1 !! key = Some e.
Proof.
  intros Hs Hk Hbefore Hstep.
  destruct Hstep as [s t Hlater | s handle tm Hpending Hdue]; [exact Hk|].
  cbn in *. rewrite lookup_delete_ne; [assumption|].
  intros Hsame.
  destruct (timer_has_entry s Hs _ _ Hpending) as (e' & Hentry & Hid).
  rewrite Hsame, Hk in Hentry. inversion Hentry; subst e'.
  rewrite <- Hid in Hpending. specialize (Hbefore tm Hpending). lia.
Qed.

Lemma getNamespacedKey_inj key1 key2 :
  getNamespacedKey options key1 = getNamespacedKey options key2 -> key1 = key2.
Proof.
  unfold getNamespacedKey. intros Hsame.
  apply (inj (String.app (namespace options))) in Hsame.
  now apply (inj (String.app ":")) in Hsame.
Qed.

Lemma meanwhile_step_consistent key s s1 :
  meanwhile_step options key s s1 -> consistent s -> consistent s1.
Proof.
  intros Hstep Hs.
  destruct Hstep as [s s1 Hrun | key' s | key' ttl s Hother | key' s Hother].
  - now apply (runtime_step_consistent s).
  - now apply has_consistent.
  - now apply set_consistent.
  - now apply delete_consistent.
Qed.

Lemma has_now key s : now (has options key s).2 = now s.
Proof.
  unfold has. destruct (cache s !! _) as [entry|]; [|reflexivity].
  destruct (Qltb _ _); [|reflexivity].
  unfold bind, ret. pose proof (delete_now key s) as Hn.
  destruct (delete options key s) as [[[]|e] s1]; exact Hn.
Qed.

Lemma set_now key ttl s : now (set options key ttl s).2 = now s.
Proof. rewrite set_unfold. reflexivity. Qed.

Lemma meanwhile_step_clock key s s1 :
  meanwhile_step options key s s1 -> now s <= now s1.
Proof.
  intros Hstep.
  destruct Hstep as [s s1 Hrun | key' s | key' ttl s Hother | key' s Hother].
  - now apply runtime_step_clock.
  - rewrite has_now. lia.
  - rewrite set_now. lia.
  - rewrite delete_now. lia.
Qed.

Lemma meanwhile_clock key s s1 : meanwhile options key s s1 -> now s <= now s1.
Proof.
  induction 1 as [|s0 s1 s2 Hstep _ IH]; [lia|].
  pose proof (meanwhile_step_clock _ _ _ Hstep). lia.
Qed.

(** A live entry is untouched by [has], whatever the key asked for. *)
Lemma has_keeps_live key' s k e :
  cache s !! k = Some e ->
  (inject_Z (now s) <= expires e)%Q ->
  cache (has options key' s).2 !! k = Some e.
Proof.
  intros Hk Hlive. unfold has.
  destruct (cache s !! getNamespacedKey options key') as [entry|] eqn:Hentry;
    [|exact Hk].
  unfold Qltb. destruct (Qle_bool _ _) eqn:Hle; cbn; [exact Hk|].
  pose proof (delete_cache key' s) as Hc.
  unfold bind, ret. destruct (delete options key' s) as [[[]|err] s1]; cbn in *;
    rewrite Hc; (rewrite lookup_delete_ne; [exact Hk|]);
    intros Hsame; rewrite Hsame, Hk in Hentry; inversion Hentry; subst entry;
    apply Qle_bool_iff in Hlive; congruence.
Qed.

(** The timers of a handle that is pending, after a call on the instance:
    they were pending before. *)
Lemma delete_timers key s p : p ∈ timers (delete options key s).2 -> p ∈ timers s.
Proof.
  unfold delete. destruct (cache s !! _) as [entry|]; cbn; [|auto].
  intros Hin. now apply elem_of_clearTimeout in Hin as [_ Hin].
Qed.

Lemma has_timers key s p : p ∈ timers (has options key s).2 -> p ∈ timers s.
Proof.
  unfold has. destruct (cache s !! _) as [entry|]; [|auto].
  destruct (Qltb _ _); [|auto].
  unfold bind, ret. pose proof (delete_timers key s p) as Hd.
  destruct (delete options key s) as [[[]|e] s1]; exact Hd.
Qed.

Lemma entry_survives_meanwhile_step key s s1 e (T : Z) :
  consistent s ->
  cache s !! getNamespacedKey options key = Some e ->
  (forall tm, (timeout e, tm) ∈ timers s -> T < due tm) ->
  (inject_Z T <= expires e)%Q ->
  now s1 <= T ->
  meanwhile_step options key s s1 ->
  cache s1 !! getNamespacedKey options key = Some e
  /\ forall tm, (timeout e, tm) ∈ timers s1 -> T < due tm.
Proof.
  intros Hs Hk Htimer Hlive Hclock Hstep.
  destruct Hstep as [s s1 Hrun | key' s | key' ttl s Hother | key' s Hother].
  - split.
    + apply (entry_survives_step s); [assumption.. | | assumption].
      intros tm Hin. specialize (Htimer tm Hin). lia.
    + intros tm Hin. apply Htimer.
      destruct Hrun as [s t Hlater | s handle tm' Hpending Hdue]; [exact Hin|].
      cbn in Hin. now apply elem_of_clearTimeout in Hin as [_ Hin].
  - split.
    + apply has_keeps_live; [exact Hk|].
      rewrite has_now in Hclock.
      apply Qle_trans with (inject_Z T); [|exact Hlive]. now rewrite <- Zle_Qle.
    + intros tm Hin. apply Htimer. now apply (has_timers key' s).
  - split.
    + rewrite set_unfold. cbn. rewrite lookup_insert_ne, delete_cache, lookup_delete_ne;
        [exact Hk | |]; intros Hsame; now apply getNamespacedKey_inj in Hsame.
    + intros tm Hin. rewrite set_unfold in Hin. cbn in Hin.
      apply elem_of_app in Hin as [Hin|Hin].
      * apply Htimer. now apply (delete_timers key' s).
      * apply list_elem_of_singleton in Hin. inversion Hin as [[Hid Htm]].
        destruct (entry_has_timer s Hs _ _ Hk) as [d Hpending].
        pose proof (handles_fresh s Hs _ _ Hpending). lia.
  - split.
    + rewrite delete_cache, lookup_delete_ne; [exact Hk|].
      intros Hsame. now apply getNamespacedKey_inj in Hsame.
    + intros tm Hin. apply Htimer. now apply (delete_timers key' s).
Qed.

Lemma entry_survives key s s1 e :
  consistent s ->
  cache s !! getNamespacedKey options key = Some e ->
  meanwhile options key s s1 ->
  (forall tm, (timeout e, tm) ∈ timers s -> now s1 < due tm) ->
  (inject_Z (now s1) <= expires e)%Q ->
  cache s1 !! getNamespacedKey options key = Some e.
Proof.
  intros Hs Hk Hmeanwhile. revert Hs Hk.
  induction Hmeanwhile as [|s0 s1 s2 Hstep Hrest IH]; intros Hs Hk Htimer Hlive;
    [assumption|].
  pose proof (meanwhile_clock _ _ _ Hrest) as Hclock.
  destruct (entry_survives_meanwhile_step key s0 s1 e (now s2) Hs Hk Htimer Hlive
              Hclock Hstep) as [Hk1 Htimer1].
  apply IH; [now apply (meanwhile_step_consistent key s0) | assumption..].
Qed.

(** Once no timer is pending, the passing of time changes the clock
    only. *)
Lemma passes_without_timers s s1 :
  passes s s1 -> timers s = [] -> cache s1 = cache s /\ timers s1 = [].
Proof.
  induction 1 as [|s0 s1 s2 Hstep _ IH]; [tauto|].
  intros Hnone. destruct Hstep as [s0 t Hlater | s0 handle tm Hpending Hdue].
  - apply IH. exact Hnone.
  - rewrite Hnone in Hpending. apply elem_of_nil in Hpending. contradiction.
Qed.
End Memory.

(** ** The orchestrator over the in-process cache *)

Section MemoryDeduplicator.
(** The options of the cache instance and of the [Deduplicator]. *)
Variables cache_options options : Options.

Import MemoryCache Deduplicator.

Local Abbreviation isDuplicate_memory :=
  (@isDuplicate State (memory_cache cache_options) options).

(** In an instance whose calls are made one after another, a message
    whose key the cache does not hold is reported new and its key is
    stored with a deadline one configured TTL ahead; submitted again while
    that deadline has not passed and the timer of the entry is not due,
    after any stretch of time and any calls that left its key alone, it is
    reported a duplicate. *)
Lemma first_seen_then_duplicate message key s :
  reachable cache_options s ->
  getCacheKey options (normalizeMessage message) = Ok key ->
  (has cache_options key s).1 = Ok false ->
  exists s1,
    isDuplicate_memory message s = (Ok false, s1)
    /\ cache s1 !! getNamespacedKey cache_options key
       = Some {| expires := (inject_Z (now s) + ttl options * 1000)%Q;
                 timeout := next_timer s |}
    /\ forall s2,
         meanwhile cache_options key s1 s2 ->
         (inject_Z (now s2) <= inject_Z (now s) + ttl options * 1000)%Q ->
         now s2 < now s + timer_delay (ttl options * 1000) ->
         isDuplicate_memory message s2 = (Ok true, s2).
Proof.
  intros Hreach Hkey Hnew.
  pose proof (has_consistent cache_options key s
                (reachable_consistent _ _ Hreach)) as Hcons.
  destruct (has_false_absent cache_options key s Hnew) as (Habsent & Hnow & Hnext).
  destruct (has cache_options key s) as [r s0] eqn:Hhas.
  cbn in Hnew, Hcons, Habsent, Hnow, Hnext. subst r.
  pose proof (set_on_absent cache_options key (ttl options) s0 Habsent) as Hset.
  pose proof (set_consistent cache_options key (ttl options) s0 Hcons) as Hcons1.
  rewrite Hset in Hcons1. cbn in Hset, Hcons1. rewrite Hnow, Hnext in Hset, Hcons1.
  eexists. split; [|split].
  - rewrite (@isDuplicate_unfold _ (memory_cache cache_options) _ _ _ _ Hkey). cbn.
    rewrite Hhas. cbn. rewrite Hset. reflexivity.
  - cbn. apply lookup_insert_eq.
  - intros s2 Hmeanwhile Hlive Hbefore.
    rewrite (@isDuplicate_unfold _ (memory_cache cache_options) _ _ _ _ Hkey). cbn.
    erewrite has_live; [reflexivity| |].
    + eapply entry_survives; [exact Hcons1| |exact Hmeanwhile| |].
      * cbn. apply lookup_insert_eq.
      * cbn. intros tm Hin. apply elem_of_app in Hin as [Hin|Hin].
        -- pose proof (handles_fresh s0 Hcons _ _ Hin). lia.
        -- apply list_elem_of_singleton in Hin. inversion Hin. cbn. exact Hbefore.
      * exact Hlive.
    + exact Hlive.
Qed.

Lemma memory_duplicate_untouched message key s :
  getCacheKey options (normalizeMessage message) = Ok key ->
  (has cache_options key s).1 = Ok true ->
  isDuplicate_memory message s = (Ok true, s).
Proof.
  intros Hkey Hfound.
  apply (@isDuplicate_present _ (memory_cache cache_options) _ _ _ _ _ Hkey). cbn.
  now apply has_true_reads_only.
Qed.

(** After [clear] on an instance whose calls are made one after another,
    the store is empty and no timer is pending: every timer that was
    pending has been cancelled, store and timers agree, [has] answers
    [false] for every key, and the passing of time runs no callback
    against the cleared store. *)
Lemma memory_clear_cancels_and_empties s :
  reachable cache_options s ->
  let s1 := (clear s).2 in
  (clear s).1 = Ok tt
  /\ cache s1 = ∅
  /\ timers s1 = []
  /\ (forall id tm, (id, tm) ∈ timers s -> (id, tm) ∉ timers s1)
  /\ consistent s1
  /\ (forall key, has cache_options key s1 = (Ok false, s1))
  /\ (forall s2, passes s1 s2 -> cache s2 = ∅ /\ timers s2 = []).
Proof.
  intros Hreach s1.
  pose proof (reachable_consistent _ _ Hreach) as Hs.
  pose proof (clear_timers s Hs) as Hnone. fold s1 in Hnone.
  refine (conj eq_refl (conj eq_refl (conj Hnone
           (conj _ (conj (clear_consistent s Hs) (conj _ _)))))).
  - rewrite Hnone. intros id tm _ Hin. apply elem_of_nil in Hin. contradiction.
  - intros key. apply has_absent. apply lookup_empty.
  - intros s2 Hpasses. now apply (passes_without_timers s1).
Qed.
End MemoryDeduplicator.

(** ** Where the in-process cache loses an entry before its deadline *)

(** C1 fails on the code for a long TTL.  The delay of the timer that is
    to remove the entry "when it expires" is [ttl * 1000]; beyond
    [TIMEOUT_MAX] milliseconds (about 24.8 days) Node makes it one
    millisecond.  So a message stored with such a TTL is removed by its own
    timer a millisecond later, and submitted again then, long before the
    deadline that [has] would check, it is reported new.  So it is with a
    TTL of thirty days. *)
Theorem long_ttl_is_evicted_after_a_millisecond :
  (forall cache_options options message key s,
      Deduplicator.getCacheKey options (Deduplicator.normalizeMessage message) = Ok key ->
      (MemoryCache.has cache_options key s).1 = Ok false ->
      (inject_Z MemoryCache.TIMEOUT_MAX < ttl options * 1000)%Q ->
      exists s1 s2 s3,
        @Deduplicator.isDuplicate _ (MemoryCache.memory_cache cache_options)
          options message s = (Ok false, s1)
        /\ MemoryCache.cache s1 !! getNamespacedKey cache_options key
           = Some {| MemoryCache.expires :=
                       (inject_Z (MemoryCache.now s) + ttl options * 1000)%Q;
                     MemoryCache.timeout := MemoryCache.next_timer s |}
        /\ MemoryCache.passes s1 s2
        /\ MemoryCache.now s2 = MemoryCache.now s + 1
        /\ (inject_Z (MemoryCache.now s2)
            < inject_Z (MemoryCache.now s) + ttl options * 1000)%Q
        /\ @Deduplicator.isDuplicate _ (MemoryCache.memory_cache cache_options)
             options message s2 = (Ok false, s3))
  /\ (let first :=
        @Deduplicator.isDuplicate _ (MemoryCache.memory_cache Fixtures.defaults)
          Fixtures.thirty_days Fixtures.message_1 (MemoryCache.empty 0) in
      let own_timer :=
        {| MemoryCache.due := 1;
           MemoryCache.target := getNamespacedKey Fixtures.defaults Fixtures.key_1 |} in
      let later := MemoryCache.fire 0 own_timer (MemoryCache.tick 1 first.2) in
      first.1 = Ok false
      /\ MemoryCache.passes first.2 later
      /\ MemoryCache.now later = 1
      /\ (@Deduplicator.isDuplicate _ (MemoryCache.memory_cache Fixtures.defaults)
            Fixtures.thirty_days Fixtures.message_1 later).1 = Ok false).
Proof.
  split.
  - intros cache_options options message key s Hkey Hnew Hlong.
    destruct (has_false_absent cache_options key s Hnew) as (Habsent & Hnow & Hnext).
    destruct (MemoryCache.has cache_options key s) as [r s0] eqn:Hhas.
    cbn in Hnew, Habsent, Hnow, Hnext. subst r.
    pose proof (set_on_absent cache_options key (ttl options) s0 Habsent) as Hset.
    cbn in Hset. rewrite Hnow, Hnext, (timer_delay_overflow _ Hlong) in Hset.
    set (nk := getNamespacedKey cache_options key) in *.
    set (own_timer := {| MemoryCache.due := MemoryCache.now s + 1;
                         MemoryCache.target := nk |}) in *.
    match type of Hset with _ = (_, ?st) => set (s1 := st) in * end.
    set (s2 := MemoryCache.fire (MemoryCache.next_timer s) own_timer
                 (MemoryCache.tick (MemoryCache.now s + 1) s1)).
    assert (Hgone : MemoryCache.cache s2 !! nk = None).
    { cbn. apply lookup_delete_eq. }
    exists s1, s2, (MemoryCache.set cache_options key (ttl options) s2).2.
    split; [|split; [|split; [|split; [|split]]]].
    + rewrite (@isDuplicate_unfold _ (MemoryCache.memory_cache cache_options)
                 _ _ _ _ Hkey).
      cbn [Base.has Base.set MemoryCache.memory_cache].
      rewrite Hhas, Hset. reflexivity.
    + cbn. apply lookup_insert_eq.
    + eapply rtc_l; [apply (MemoryCache.step_tick s1 (MemoryCache.now s + 1)); cbn; lia|].
      apply rtc_once. apply MemoryCache.step_fire; cbn; [|lia].
      apply elem_of_app. right. apply list_elem_of_singleton. reflexivity.
    + reflexivity.
    + cbn. rewrite inject_Z_plus.
      assert (Hmax : (1 < inject_Z MemoryCache.TIMEOUT_MAX)%Q) by reflexivity.
      change (inject_Z 1) with 1%Q. lra.
    + rewrite (@isDuplicate_unfold _ (MemoryCache.memory_cache cache_options)
                 _ _ _ _ Hkey).
      cbn [Base.has Base.set MemoryCache.memory_cache].
      rewrite (has_absent cache_options key s2 Hgone), set_unfold. reflexivity.
  - cbv zeta. split; [vm_compute; reflexivity|]. split; [|split].
    + eapply (rtc_l _ _ (MemoryCache.tick 1 _));
        [apply MemoryCache.step_tick; vm_compute; discriminate|].
      apply rtc_once, MemoryCache.step_fire; [|vm_compute; discriminate].
      vm_compute. apply list_elem_of_singleton. reflexivity.
    + reflexivity.
    + vm_compute. reflexivity.
Qed.

(** ** Where [clear] leaves a timer pending *)

(** C8 fails on the code when calls overlap.  [set] gives way at
    [await this.delete(key)] before it registers its timer and stores its
    entry; of two [set] calls on one key that are not awaited one after
    the other, the second overwrites the entry of the first and the timer
    of the first is left with no entry that holds its handle.  [clear]
    cancels the timers of the entries it finds and so leaves that one
    pending; when it runs it removes whatever entry the key has then, were
    it stored a moment before.  So it is with two [set("k", 60)] on a new
    cache. *)
Theorem overlapping_sets_leave_a_timer_behind :
  (forall options key ttl1 ttl2 s,
      MemoryCache.reachable options s ->
      let nk := getNamespacedKey options key in
      let left_over :=
        {| MemoryCache.due := MemoryCache.now s + MemoryCache.timer_delay (ttl1 * 1000);
           MemoryCache.target := nk |} in
      let s1 := (MemoryCache.set_twice_unawaited options key ttl1 ttl2 s).2 in
      let s2 := (MemoryCache.clear s1).2 in
      (MemoryCache.next_timer s, left_over) ∈ MemoryCache.timers s1
      /\ MemoryCache.cache s2 = ∅
      /\ (MemoryCache.next_timer s, left_over) ∈ MemoryCache.timers s2
      /\ forall ttl3 t,
           MemoryCache.due left_over <= t ->
           let s3 := (MemoryCache.set options key ttl3 (MemoryCache.tick t s2)).2 in
           let s4 := MemoryCache.fire (MemoryCache.next_timer s) left_over s3 in
           MemoryCache.runtime_step s2 (MemoryCache.tick t s2)
           /\ MemoryCache.runtime_step s3 s4
           /\ MemoryCache.cache s3 !! nk
              = Some {| MemoryCache.expires := (inject_Z t + ttl3 * 1000)%Q;
                        MemoryCache.timeout := S (S (MemoryCache.next_timer s)) |}
           /\ MemoryCache.cache s4 !! nk = None)
  /\ MemoryCache.timers
       (MemoryCache.clear
          (MemoryCache.set_twice_unawaited Fixtures.defaults "k" 60 60
             (MemoryCache.empty 0)).2).2
     = [(0%nat, {| MemoryCache.due := 60000; MemoryCache.target := "ts-dedup:k" |})].
Proof.
  split; [|vm_compute; reflexivity].
  intros options key ttl1 ttl2 s Hreach nk left_over s1 s2.
  pose proof (reachable_consistent options s Hreach) as Hs.
  pose proof (delete_ok options key s) as Hok.
  pose proof (delete_now options key s) as Hnow.
  pose proof (delete_next_timer options key s) as Hnext.
  pose proof (delete_cache options key s) as Hcache.
  pose proof (delete_consistent options key s Hs) as Hd.
  assert (Hs1 : s1 = {| MemoryCache.cache :=
                          <[nk := {| MemoryCache.expires :=
                                       (inject_Z (MemoryCache.now s) + ttl2 * 1000)%Q;
                                     MemoryCache.timeout := S (MemoryCache.next_timer s) |}]>
                            (<[nk := {| MemoryCache.expires :=
                                          (inject_Z (MemoryCache.now s) + ttl1 * 1000)%Q;
                                        MemoryCache.timeout := MemoryCache.next_timer s |}]>
                               (MemoryCache.cache (MemoryCache.delete options key s).2));
                        MemoryCache.timers :=
                          (MemoryCache.timers (MemoryCache.delete options key s).2
                           ++ [(MemoryCache.next_timer s, left_over)])
                          ++ [(S (MemoryCache.next_timer s),
                               {| MemoryCache.due :=
                                    MemoryCache.now s + MemoryCache.timer_delay (ttl2 * 1000);
                                  MemoryCache.target := nk |})];
                        MemoryCache.next_timer := S (S (MemoryCache.next_timer s));
                        MemoryCache.now := MemoryCache.now s |}).
  { unfold s1, MemoryCache.set_twice_unawaited, bind, MemoryCache.set_begin.
    destruct (MemoryCache.delete options key s) as [[[]|e] d1] eqn:Hdelete;
      cbn in Hok, Hnow, Hnext, Hcache; [|discriminate].
    assert (Hagain : MemoryCache.delete options key d1 = (Ok tt, d1)).
    { unfold MemoryCache.delete. fold nk. rewrite Hcache, lookup_delete_eq. reflexivity. }
    rewrite Hagain. cbn. rewrite Hnow, Hnext. reflexivity. }
  assert (Hleft : (MemoryCache.next_timer s, left_over) ∈ MemoryCache.timers s1).
  { rewrite Hs1. cbn. apply elem_of_app. left. apply elem_of_app. right.
    apply list_elem_of_singleton. reflexivity. }
  assert (Hkept : (MemoryCache.next_timer s, left_over) ∈ MemoryCache.timers s2).
  { unfold s2. cbn. apply elem_of_cancel_all. split; [exact Hleft|].
    intros [k e] Hentry. apply elem_of_map_to_list in Hentry. cbn.
    rewrite Hs1 in Hentry. cbn in Hentry.
    destruct (decide (nk = k)) as [<-|Hother].
    - rewrite lookup_insert_eq in Hentry. inversion Hentry. cbn. lia.
    - rewrite !lookup_insert_ne in Hentry by exact Hother.
      destruct (MemoryCache.entry_has_timer _ Hd _ _ Hentry) as [d Hpending].
      pose proof (MemoryCache.handles_fresh _ Hd _ _ Hpending) as Hfresh.
      rewrite Hnext in Hfresh. lia. }
  split; [exact Hleft|]. split; [reflexivity|]. split; [exact Hkept|].
  intros ttl3 t Hdue s3 s4.
  assert (Hs3 : s3 = {| MemoryCache.cache :=
                          <[nk := {| MemoryCache.expires := (inject_Z t + ttl3 * 1000)%Q;
                                     MemoryCache.timeout :=
                                       S (S (MemoryCache.next_timer s)) |}]> ∅;
                        MemoryCache.timers :=
                          MemoryCache.timers s2
                          ++ [(S (S (MemoryCache.next_timer s)),
                               {| MemoryCache.due := t + MemoryCache.timer_delay (ttl3 * 1000);
                                  MemoryCache.target := nk |})];
                        MemoryCache.next_timer := S (S (S (MemoryCache.next_timer s)));
                        MemoryCache.now := t |}).
  { unfold s3. rewrite set_on_absent by apply lookup_empty.
    unfold s2. rewrite Hs1. reflexivity. }
  split; [|split; [|split]].
  - apply MemoryCache.step_tick. unfold s2. rewrite Hs1. cbn.
    pose proof (timer_delay_positive (ttl1 * 1000)) as Hpositive.
    unfold left_over in Hdue. cbn in Hdue. lia.
  - apply MemoryCache.step_fire.
    + rewrite Hs3. cbn [MemoryCache.timers]. apply elem_of_app. now left.
    + rewrite Hs3. exact Hdue.
  - rewrite Hs3. cbn. apply lookup_insert_eq.
  - unfold s4. cbn. apply lookup_delete_eq.
Qed.

(** ** Canonical hashing *)

Section Canonical.

(** Induction over values that reaches inside arrays and objects. *)
Lemma JSValue_nested_ind (P : JSValue -> Prop) :
  P JUndefined -> P JNull -> (forall b, P (JBool b)) ->
  (forall n, P (JNumber n)) -> (forall s, P (JString s)) ->
  (forall t, P (JDate t)) -> (forall bytes, P (JBuffer bytes)) ->
  (forall items, Forall P items -> P (JArray items)) ->
  (forall ser fields, Forall (fun kv => P kv.2) fields -> P (JObject ser fields)) ->
  forall v, P v.
Proof.
  intros Hu Hn Hb Hnum Hs Hd Hbuf Harr Hobj.
  fix IH 1. intros [| |b|n|s|t|bytes|items|ser fields].
  - exact Hu.
  - exact Hn.
  - apply Hb.
  - apply Hnum.
  - apply Hs.
  - apply Hd.
  - apply Hbuf.
  - apply Harr.
    induction items as [|item items IHitems]; constructor; [apply IH | exact IHitems].
  - apply Hobj.
    induction fields as [|[k v] fields IHfields]; constructor; [apply IH | exact IHfields].
Qed.

(** Sorting forgets the order the keys came in. *)
Lemma sort_keys_permutation keys1 keys2 :
  keys1 ≡ₚ keys2 -> sort_keys keys1 = sort_keys keys2.
Proof.
  intros Hperm. unfold sort_keys.
  apply (Sorted_unique String.le); try apply Sorted_merge_sort; try apply _.
  now rewrite !merge_sort_Permutation.
Qed.

(** *** Property reads *)

Lemma get_with_get_field {A B} (f : A -> B) key (fields : list (string * A)) :
  get_with f key fields = f <$> get_field key fields.
Proof.
  induction fields as [|[k v] fields IH]; cbn; [reflexivity|].
  destruct (String.eqb k key); [reflexivity | exact IH].
Qed.

Lemma get_field_Some {A} key (v : A) (fields : list (string * A)) :
  NoDup fields.*1 ->
  get_field key fields = Some v <-> (key, v) ∈ fields.
Proof.
  induction fields as [|[k x] fields IH]; cbn; intros Hnd.
  - split; [discriminate|]. intros Hin. apply elem_of_nil in Hin. contradiction.
  - apply NoDup_cons in Hnd as [Hfresh Hnd].
    destruct (String.eqb_spec k key) as [->|Hne].
    + split.
      * intros [= ->]. left.
      * intros [Heq|Hin]%elem_of_cons; [congruence|].
        exfalso. apply Hfresh. apply list_elem_of_fmap. now exists (key, v).
    + rewrite IH by assumption. split.
      * intros Hin. now right.
      * intros [Heq|Hin]%elem_of_cons; [congruence | assumption].
Qed.

Lemma get_field_permutation {A} key (fields1 fields2 : list (string * A)) :
  NoDup fields1.*1 -> fields1 ≡ₚ fields2 ->
  get_field key fields1 = get_field key fields2.
Proof.
  intros Hnd Hperm.
  assert (Hnd2 : NoDup fields2.*1) by now rewrite <- Hperm.
  destruct (get_field key fields1) as [v|] eqn:H1.
  - symmetry. apply get_field_Some; [assumption|].
    rewrite <- Hperm. now apply get_field_Some.
  - destruct (get_field key fields2) as [v|] eqn:H2; [|reflexivity].
    apply get_field_Some in H2; [|assumption].
    rewrite <- Hperm in H2. apply get_field_Some in H2; [|assumption].
    congruence.
Qed.

Lemma get_field_elem_of {A} key (v : A) fields :
  get_field key fields = Some v -> (key, v) ∈ fields.
Proof.
  induction fields as [|[k x] fields IH]; cbn; [discriminate|].
  destruct (String.eqb_spec k key) as [->|Hne].
  - intros [= ->]. left.
  - intros Hget. right. now apply IH.
Qed.

(** Reads from two property lists related pointwise. *)
Lemma get_field_Forall2 {A} (R : A -> A -> Prop) key
    (fields1 fields2 : list (string * A)) :
  Forall2 (fun kv1 kv2 => kv1.1 = kv2.1 /\ R kv1.2 kv2.2) fields1 fields2 ->
  option_Forall2 R (get_field key fields1) (get_field key fields2).
Proof.
  induction 1 as [|[k1 v1] [k2 v2] fields1 fields2 [Hk Hv] _ IH]; cbn in *.
  - constructor.
  - subst k2. destruct (String.eqb k1 key); [now constructor | exact IH].
Qed.

Lemma fold_left_ext {A B} (f g : A -> B -> A) (l : list B) (a : A) :
  (forall a b, f a b = g a b) -> fold_left f l a = fold_left g l a.
Proof.
  intros Hfg. revert a. induction l as [|b l IH]; intros a; cbn; [reflexivity|].
  now rewrite Hfg, IH.
Qed.

(** The loop depends on the object only through its sorted keys and
    what each key reads. *)
Lemma normalize_props_ext recur props1 props2 :
  map fst props1 ≡ₚ map fst props2 ->
  (forall key, get_with (normalize_value recur) key props1
               = get_with (normalize_value recur) key props2) ->
  normalize_props recur props1 = normalize_props recur props2.
Proof.
  intros Hkeys Hreads. unfold normalize_props, normalize_loop.
  rewrite (sort_keys_permutation _ _ Hkeys).
  f_equal. apply fold_left_ext. intros result key. now rewrite Hreads.
Qed.

(** *** One loop for every object

    On a Date, a Buffer and any other non-array object alike,
    [normalizeObject] is the loop over the sorted own keys. *)

Lemma Forall_imap {A B} (P : B -> Prop) (f : nat -> A -> B) (l : list A) :
  (forall i x, P (f i x)) -> Forall P (imap f l).
Proof.
  revert f. induction l as [|x l IH]; intros f Hf; cbn; constructor.
  - apply Hf.
  - apply IH. intros i y. apply Hf.
Qed.

Lemma get_with_numbers recur1 recur2 key props :
  Forall (fun kv => exists n, kv.2 = JNumber n) props ->
  get_with (normalize_value recur1) key props
  = get_with (normalize_value recur2) key props.
Proof.
  induction 1 as [|[k v] props [n Hn] _ IH]; cbn in *; [reflexivity|].
  subst v. destruct (String.eqb k key); [reflexivity | exact IH].
Qed.

Lemma normalizeObject_object o :
  match o with
  | JDate _ | JBuffer _ | JObject _ _ =>
      normalizeObject o = normalize_props normalizeObject (own_properties o)
  | _ => True
  end.
Proof.
  destruct o as [| |b|n|s|t|bytes|items|ser fields]; try exact I; try reflexivity.
  cbn. unfold normalize_props, normalize_loop. f_equal.
  apply fold_left_ext. intros result key.
  rewrite (get_with_numbers (fun v => Ok v) normalizeObject); [reflexivity|].
  apply Forall_imap. intros i x. now eexists.
Qed.

(** *** Invariance of the normal form *)

Lemma map_items_ext (f : JSValue -> Res JSValue) items1 items2 :
  Forall2 (fun x y => f x = f y) items1 items2 ->
  map_items f items1 = map_items f items2.
Proof.
  induction 1 as [|x y xs ys Hxy _ IH]; cbn; [reflexivity|].
  now rewrite Hxy, IH.
Qed.

Lemma same_keys {A} (R : A -> A -> Prop) (fields1 fields2 : list (string * A)) :
  Forall2 (fun kv1 kv2 => kv1.1 = kv2.1 /\ R kv1.2 kv2.2) fields1 fields2 ->
  fields1.*1 = fields2.*1.
Proof.
  induction 1 as [|kv1 kv2 fields1 fields2 [Hk _] _ IH]; cbn; [reflexivity|].
  now rewrite Hk, IH.
Qed.

Lemma normalize_value_same recur x y :
  same_up_to_order x y -> recur x = recur y ->
  normalize_value recur x = normalize_value recur y.
Proof.
  intros Hsame Hrecur. inversion Hsame; subst; try reflexivity;
    unfold normalize_value; now rewrite Hrecur.
Qed.

Lemma normalizeObject_order_independent v1 :
  forall v2, well_formed v1 -> same_up_to_order v1 v2 ->
             normalizeObject v1 = normalizeObject v2.
Proof.
  induction v1 as [| |b|n|s|t|bytes|items IH|ser fields IH] using JSValue_nested_ind;
    intros v2 Hwf Hsame; inversion Hsame; subst; try reflexivity.
  - (* arrays *)
    cbn. f_equal. apply map_items_ext.
    inversion Hwf as [| | | | | | |? Hitems|]; subst. clear Hwf Hsame.
    match goal with Hall : Forall2 _ items _ |- _ =>
      induction Hall as [|x y xs ys Hxy Hrest IHrest] end; constructor.
    + apply Forall_cons in IH as [IHx _].
      apply Forall_cons in Hitems as [Hx _]. now apply IHx.
    + apply Forall_cons in IH as [_ IHxs].
      apply Forall_cons in Hitems as [_ Hxs]. now apply IHrest.
  - (* objects *)
    inversion Hwf as [| | | | | | | |? ? Hnd Hvalues]; subst.
    match goal with
    | Hperm : fields ≡ₚ ?r, Hall : Forall2 _ ?r ?f2 |- _ =>
        rename r into reordered; rename f2 into fields2
    end.
    cbn. apply normalize_props_ext.
    + change (fields.*1 ≡ₚ fields2.*1).
      erewrite <- (same_keys _ reordered fields2) by eassumption.
      now apply fmap_Permutation.
    + intros key. rewrite !get_with_get_field.
      match goal with Hperm : fields ≡ₚ reordered |- _ =>
        rewrite (get_field_permutation key _ _ Hnd Hperm) end.
      match goal with Hall : Forall2 _ reordered fields2 |- _ =>
        pose proof (get_field_Forall2 _ key _ _ Hall) as Hread end.
      destruct (get_field key reordered) as [x|] eqn:Hx;
        destruct (get_field key fields2) as [y|] eqn:Hy;
        inversion Hread as [? ? Hxy|]; subst; [|reflexivity].
      cbn. f_equal. apply normalize_value_same; [assumption|].
      apply get_field_elem_of in Hx.
      match goal with Hperm : fields ≡ₚ reordered |- _ => rewrite <- Hperm in Hx end.
      rewrite Forall_forall in IH, Hvalues.
      apply (IH _ Hx); [|assumption]. apply (Hvalues _ Hx).
Qed.

(** C5. [hashJson] is a function of its argument alone, and two
    well-formed payloads that are deeply equal up to the order of object
    properties, at any depth, have the same outcome: the same digest, or
    the same error. *)
Theorem hashJson_order_independent p1 p2 :
  well_formed p1 -> same_up_to_order p1 p2 -> hashJson p1 = hashJson p2.
Proof.
  intros Hwf Hsame.
  pose proof (normalizeObject_order_independent p1 p2 Hwf Hsame) as Hnorm.
  inversion Hsame; subst; try reflexivity; unfold hashJson; now rewrite Hnorm.
Qed.
End Canonical.

(** ** Key derivation *)

Section Keys.
Variable options : Options.

Import Deduplicator.

Lemma getCacheKey_nonempty message key :
  getCacheKey options message = Ok key -> key <> "".
Proof.
  unfold getCacheKey.
  destruct (truthy _).
  - intros [= <-]. destruct (namespace options); discriminate.
  - destruct (hashMessage _ _) as [hash|e]; cbn; [|discriminate].
    intros [= <-]. destruct (namespace options); discriminate.
Qed.

(** The key of an envelope is read off three of its properties. *)
Lemma getCacheKey_envelope m1 m2 :
  property "payload" m1 = property "payload" m2 ->
  property "format" m1 = property "format" m2 ->
  property "deduplicationKey" m1 = property "deduplicationKey" m2 ->
  getCacheKey options m1 = getCacheKey options m2.
Proof.
  intros Hp Hf Hk. unfold getCacheKey. now rewrite Hp, Hf, Hk.
Qed.

Lemma getCacheKey_wrapped x :
  is_envelope x = false ->
  getCacheKey options (normalizeMessage x)
  = getCacheKey options (normalizeMessage (obj [("payload", x)])).
Proof.
  intros Hbare. unfold normalizeMessage. rewrite Hbare. reflexivity.
Qed.

(** C10, as the code has it.  An object with a [payload] property is the
    envelope: two envelopes that agree on [payload], [format] and
    [deduplicationKey] derive the same key, whatever else they hold; and
    a value that is not such an object derives the same key bare as
    wrapped in [{payload: x}]. *)
Theorem envelope_key_derivation :
  (forall m1 m2,
      is_envelope m1 = true -> is_envelope m2 = true ->
      property "payload" m1 = property "payload" m2 ->
      property "format" m1 = property "format" m2 ->
      property "deduplicationKey" m1 = property "deduplicationKey" m2 ->
      getCacheKey options (normalizeMessage m1)
      = getCacheKey options (normalizeMessage m2))
  /\ (forall x,
        is_envelope x = false ->
        getCacheKey options (normalizeMessage x)
        = getCacheKey options (normalizeMessage (obj [("payload", x)]))).
Proof.
  split.
  - intros m1 m2 H1 H2 Hp Hf Hk. unfold normalizeMessage. rewrite H1, H2.
    now apply getCacheKey_envelope.
  - apply getCacheKey_wrapped.
Qed.
End Keys.

(** ** Administrative operations *)

(** C7, as the code has it.  [removeFromCache] and [clearCache] rethrow
    whatever the backend's [delete] and [clear] throw.  The networked
    backend's own [delete] and [clear] complete normally from every state
    of the instance and of the wire, so a wire failure behind them does not
    reach the [Deduplicator]. *)
Theorem admin_errors_propagate_from_backend :
  (forall (S : Type) (backend : Cache S) options message key e s s1,
      Deduplicator.getCacheKey options (Deduplicator.normalizeMessage message) = Ok key ->
      delete key s = (Throw e, s1) ->
      Deduplicator.removeFromCache options message s = (Throw e, s1))
  /\ (forall (S : Type) (backend : Cache S) clear_it e s s1,
        clear = Some clear_it ->
        clear_it s = (Throw e, s1) ->
        Deduplicator.clearCache s = (Throw e, s1))
  /\ (forall (C : Type) (client : RedisCache.RedisClient C) options key s,
        exists s1, RedisCache.delete options key s = (Ok tt, s1))
  /\ (forall (C : Type) (client : RedisCache.RedisClient C) options s,
        exists s1, RedisCache.clear options s = (Ok tt, s1)).
Proof.
  repeat split.
  - intros S backend options message key e s s1. apply removeFromCache_propagates.
  - intros S backend clear_it e s s1. apply clearCache_propagates.
  - intros C client options key s. apply delete_never_throws.
  - intros C client options s. apply clear_never_throws.
Qed.

(** ** Presence is read-only *)

(** C9. When the backend reports the key present, [isDuplicate] answers
    [true] and ends in the state the existence check alone leaves: no
    [set] follows.  Over the in-process cache that state is the initial
    one, with every entry, deadline and timer as before; over the
    networked cache the only command sent is the existence query. *)
Theorem duplicate_is_read_only :
  (forall (S : Type) (backend : Cache S) options message key s s1,
      Deduplicator.getCacheKey options (Deduplicator.normalizeMessage message) = Ok key ->
      has key s = (Ok true, s1) ->
      Deduplicator.isDuplicate options message s = (Ok true, s1))
  /\ (forall cache_options options message key s,
        Deduplicator.getCacheKey options (Deduplicator.normalizeMessage message) = Ok key ->
        (MemoryCache.has cache_options key s).1 = Ok true ->
        @Deduplicator.isDuplicate _ (MemoryCache.memory_cache cache_options)
          options message s = (Ok true, s))
  /\ (forall (C : Type) (client : RedisCache.RedisClient C)
             cache_options options message key s c,
        Deduplicator.getCacheKey options (Deduplicator.normalizeMessage message) = Ok key ->
        RedisCache.isConnected s = true ->
        RedisCache.exists_
          (RedisCache.collapse_colons false (RedisCache.prefix cache_options +:+ key))
          (RedisCache.client s) = (Ok 1, c) ->
        @Deduplicator.isDuplicate _ (RedisCache.redis_cache cache_options)
          options message s
        = (Ok true, {| RedisCache.client := c; RedisCache.isConnected := true |})).
Proof.
  repeat split.
  - intros S backend options message key s s1. apply isDuplicate_present.
  - intros cache_options options message key s. apply memory_duplicate_untouched.
  - intros C client cache_options options message key s c Hkey Hup Hfound.
    apply (@isDuplicate_present _ (RedisCache.redis_cache cache_options) _ _ _ _ _ Hkey).
    cbn. apply has_found; [|assumption..].
    now apply (getCacheKey_nonempty options (Deduplicator.normalizeMessage message)).
Qed.

(** * Concrete runs *)

Import Deduplicator Fixtures.

(** The message [{id: "1"}], a fresh default cache and a second
    submission one millisecond before the five minutes are over. *)
Lemma first_seen_then_duplicate_witness :
  exists s1,
    @isDuplicate _ (MemoryCache.memory_cache defaults) defaults message_1
      (MemoryCache.empty 0) = (Ok false, s1)
    /\ (@isDuplicate _ (MemoryCache.memory_cache defaults) defaults message_1
          (MemoryCache.tick 299999 s1)).1 = Ok true.
Proof.
  destruct (first_seen_then_duplicate defaults defaults message_1 key_1
              (MemoryCache.empty 0)) as (s1 & Hfirst & Hentry & Hsecond).
  - apply MemoryCache.reach_new.
  - vm_compute. reflexivity.
  - vm_compute. reflexivity.
  - exists s1. split; [assumption|].
    assert (Hclock : MemoryCache.now s1 = 0).
    { apply (f_equal snd) in Hfirst. cbn [snd] in Hfirst. rewrite <- Hfirst.
      vm_compute. reflexivity. }
    rewrite (Hsecond (MemoryCache.tick 299999 s1)); [reflexivity| | |].
    + apply rtc_once, MemoryCache.meanwhile_runtime, MemoryCache.step_tick.
      rewrite Hclock. lia.
    + vm_compute. discriminate.
    + vm_compute. reflexivity.
Defined.

(** C2 at the key ["k"] and a TTL of sixty seconds. *)
Lemma redis_set_failure_modes_witness :
  RedisCache.set defaults "k" 60 (redis ∅ false true)
  = (Throw closed, redis ∅ false true)
  /\ RedisCache.set defaults "k" 60 (redis ∅ false false)
     = (Ok tt, redis ∅ false false).
Proof.
  split.
  - apply (proj1 (redis_set_failure_modes defaults "k" 60 (redis ∅ false true)
                    ltac:(discriminate) ltac:(reflexivity)) eq_refl closed).
    reflexivity.
  - apply (proj2 (redis_set_failure_modes defaults "k" 60 (redis ∅ false false)
                    ltac:(discriminate) ltac:(reflexivity)) eq_refl).
Defined.

(** C2 as stated fails: with the connection known to be down, [set]
    completes normally and nothing is written. *)
Lemma redis_set_skips_when_disconnected :
  RedisCache.set defaults "k" 60 (redis ∅ false false)
  = (Ok tt, redis ∅ false false)
  /\ ~ exists e s1,
        RedisCache.set defaults "k" 60 (redis ∅ false false) = (Throw e, s1).
Proof.
  split; [reflexivity|]. intros (e & s1 & Hthrow). discriminate Hthrow.
Qed.

(** The validation of the networked cache at the empty key and at a TTL of
    zero. *)
Lemma redis_set_validates_witness :
  (exists e, RedisCache.set defaults "" 60 (redis ∅ true true)
             = (Throw e, redis ∅ true true))
  /\ (exists e, RedisCache.set defaults "k" 0 (redis ∅ true true)
                = (Throw e, redis ∅ true true)).
Proof.
  split.
  - apply (redis_set_validates defaults "" 60 (redis ∅ true true)).
    left. reflexivity.
  - apply (redis_set_validates defaults "k" 0 (redis ∅ true true)).
    right. apply Qle_refl.
Defined.

(** C3 fails on the code.  The in-process cache validates nothing: [set]
    completes normally for every key and TTL and leaves an entry for the
    key; so it does with the empty key and a TTL of zero, where the
    networked cache throws on either. *)
Theorem memory_set_accepts_invalid :
  (forall options key ttl s,
      exists s1,
        MemoryCache.set options key ttl s = (Ok tt, s1)
        /\ MemoryCache.cache s1 !! getNamespacedKey options key
           = Some {| MemoryCache.expires := (inject_Z (MemoryCache.now s) + ttl * 1000)%Q;
                     MemoryCache.timeout := MemoryCache.next_timer s |})
  /\ (MemoryCache.set defaults "" 0 (MemoryCache.empty 0)).1 = Ok tt
  /\ MemoryCache.cache (MemoryCache.set defaults "" 0 (MemoryCache.empty 0)).2
       !! "ts-dedup:"
     = Some {| MemoryCache.expires := (inject_Z 0 + 0 * 1000)%Q;
               MemoryCache.timeout := 0 |}.
Proof.
  split; [|split].
  - intros options key ttl s. eexists. split; [apply set_unfold|].
    cbn. apply lookup_insert_eq.
  - reflexivity.
  - rewrite set_unfold. cbn. apply lookup_insert_eq.
Qed.

(** C4 on an absent payload, on a backend whose [has] throws and on a
    backend whose [set] throws. *)
Lemma isDuplicate_fail_open_boundary_witness :
  isDuplicate defaults JUndefined (quiet ∅)
  = (Throw (Error "Failed to hash message: Cannot hash undefined value"), quiet ∅)
  /\ isDuplicate defaults message_1 failing_has = (Ok false, failing_has)
  /\ isDuplicate defaults message_1 failing_set = (Ok false, failing_set).
Proof.
  split; [|split].
  - apply (proj1 (isDuplicate_fail_open_boundary defaults JUndefined (quiet ∅))).
    vm_compute. reflexivity.
  - apply (proj1 (proj2 (isDuplicate_fail_open_boundary defaults message_1 failing_has))
             key_1 (Error "backend unavailable")).
    + vm_compute. reflexivity.
    + reflexivity.
  - apply (proj2 (proj2 (isDuplicate_fail_open_boundary defaults message_1 failing_set))
             key_1 (Error "backend unavailable") failing_set).
    + vm_compute. reflexivity.
    + vm_compute. reflexivity.
    + reflexivity.
Defined.

Lemma order_1_well_formed : well_formed order_1.
Proof.
  unfold order_1.
  repeat (first [ apply wf_object | apply wf_array | apply wf_null | apply wf_number
                | apply wf_string | apply wf_bool | apply Forall_cons; split
                | apply Forall_nil ]);
    apply (bool_decide_unpack _); vm_compute; exact I.
Defined.

Lemma order_1_same_as_order_2 : same_up_to_order order_1 order_2.
Proof.
  unfold order_1, order_2.
  eapply same_object; [apply perm_swap|].
  repeat constructor.
  eapply same_object; [apply perm_swap|].
  repeat constructor.
Defined.

(** C5 on these two payloads. *)
Lemma hashJson_order_independent_witness :
  hashJson order_1 = hashJson order_2.
Proof.
  apply (hashJson_order_independent order_1 order_2).
  - exact order_1_well_formed.
  - exact order_1_same_as_order_2.
Defined.

(** C6 fails on the code.  A Date is turned into its ISO text, and a
    Buffer kept as it is, only where it is the value of an object
    property.  At the top level or as an array element a Date is
    normalized as an object without properties, so that two arrays holding
    different dates hash alike, and a Buffer is taken apart into an object
    keyed by its byte indices. *)
Theorem dates_and_buffers_outside_properties :
  normalizeObject (obj [("at", JDate (Some 0)); ("raw", JBuffer [Byte.x01; Byte.x02])])
  = Ok (obj [("at", JString "1970-01-01T00:00:00.000Z");
             ("raw", JBuffer [Byte.x01; Byte.x02])])
  /\ normalizeObject (JDate (Some 0)) = Ok (obj [])
  /\ normalizeObject (JArray [JDate (Some 0)]) = Ok (JArray [obj []])
  /\ hashJson (JArray [JDate (Some 0)]) = hashJson (JArray [JDate (Some 86400000)])
  /\ hashJson (JArray [JDate (Some 0)]) = Ok (Crypto.sha256 "[{}]")
  /\ normalizeObject (JArray [JBuffer [Byte.x01; Byte.x02]])
     = Ok (JArray [obj [("0", JNumber 1); ("1", JNumber 2)]]).
Proof. vm_compute. repeat split. Qed.

(** C7 on a backend whose [delete] and [clear] throw. *)
Lemma admin_errors_propagate_from_backend_witness :
  removeFromCache defaults message_1 failing_admin
  = (Throw (Error "backend unavailable"), failing_admin)
  /\ clearCache failing_admin = (Throw (Error "backend unavailable"), failing_admin).
Proof.
  destruct admin_errors_propagate_from_backend as (Hremove & Hclear & _ & _).
  split.
  - apply (Hremove _ _ defaults message_1 key_1).
    + vm_compute. reflexivity.
    + reflexivity.
  - eapply (Hclear _ _ _ (Error "backend unavailable") failing_admin failing_admin).
    + reflexivity.
    + reflexivity.
Defined.

(** C7 as stated fails over the networked cache: with the wire down and
    the instance not yet told, the scan fails and [clearWithCount] rejects,
    the command of [delete] is rejected, and still [clearCache] and
    [removeFromCache] complete normally. *)
Lemma redis_admin_failures_are_swallowed :
  let s := redis {[ "ts-dedup:" +:+ key_1 ]} false true in
  RedisCache.failure
    (RedisCache.scanStream "ts-dedup:*" 100 (RedisCache.client s)).1 = Some closed
  /\ (RedisCache.clearWithCount defaults s).1 = Throw closed
  /\ @clearCache _ (RedisCache.redis_cache defaults) s = (Ok tt, s)
  /\ (RedisCache.del ["ts-dedup:" +:+ key_1] (RedisCache.client s)).1 = Throw closed
  /\ @removeFromCache _ (RedisCache.redis_cache defaults) defaults message_1 s
     = (Ok tt, s).
Proof. vm_compute. repeat split. Qed.

(** [clear] on a cache holding two entries, each set after the other. *)
Lemma memory_clear_cancels_and_empties_witness :
  length (MemoryCache.timers two_entries) = 2%nat
  /\ MemoryCache.cache (MemoryCache.clear two_entries).2 = ∅
  /\ MemoryCache.timers (MemoryCache.clear two_entries).2 = []
  /\ MemoryCache.has defaults "a" (MemoryCache.clear two_entries).2
     = (Ok false, (MemoryCache.clear two_entries).2).
Proof.
  destruct (memory_clear_cancels_and_empties defaults two_entries)
    as (_ & Hcache & Htimers & _ & _ & Hhas & _).
  - unfold two_entries. apply MemoryCache.reach_set, MemoryCache.reach_set,
      MemoryCache.reach_new.
  - split; [reflexivity|]. split; [assumption|]. split; [assumption | apply Hhas].
Defined.

(** C9 on a scripted backend that knows the key, on the in-process cache
    right after the first submission, and on a networked cache that holds
    the key. *)
Lemma duplicate_is_read_only_witness :
  isDuplicate defaults message_1 (quiet {[ key_1 ]}) = (Ok true, quiet {[ key_1 ]})
  /\ (let s := (MemoryCache.set defaults key_1 300 (MemoryCache.empty 0)).2 in
      @isDuplicate _ (MemoryCache.memory_cache defaults) defaults message_1 s
      = (Ok true, s))
  /\ (let s := redis {[ "ts-dedup:" +:+ key_1 ]} true true in
      @isDuplicate _ (RedisCache.redis_cache defaults) defaults message_1 s
      = (Ok true, s)).
Proof.
  destruct duplicate_is_read_only as (Hany & Hmemory & Hredis).
  split; [|split].
  - apply (Hany _ _ defaults message_1 key_1).
    + vm_compute. reflexivity.
    + vm_compute. reflexivity.
  - intros s. apply (Hmemory defaults defaults message_1 key_1).
    + vm_compute. reflexivity.
    + vm_compute. reflexivity.
  - intros s.
    apply (Hredis _ _ defaults defaults message_1 key_1 s (RedisCache.client s)).
    + vm_compute. reflexivity.
    + reflexivity.
    + vm_compute. reflexivity.
Defined.

(** C10 on two envelopes around the same payload and on a bare number. *)
Lemma envelope_key_derivation_witness :
  getCacheKey defaults (normalizeMessage envelope_1)
  = getCacheKey defaults (normalizeMessage envelope_2)
  /\ getCacheKey defaults (normalizeMessage (JNumber 5))
     = getCacheKey defaults (normalizeMessage (obj [("payload", JNumber 5)])).
Proof.
  split.
  - apply (proj1 (envelope_key_derivation defaults) envelope_1 envelope_2);
      reflexivity.
  - apply (proj2 (envelope_key_derivation defaults) (JNumber 5)). reflexivity.
Defined.

(** C10 as stated fails at a value that has a [payload] property itself:
    bare, it is taken for an envelope and the key comes from the number
    inside; wrapped, the key comes from the whole object. *)
Lemma wrapping_changes_key_of_envelope :
  getCacheKey defaults (normalizeMessage has_payload_1)
  = Ok ("ts-dedup:" +:+ Crypto.sha256 "1")
  /\ getCacheKey defaults (normalizeMessage (obj [("payload", has_payload_1)]))
     = Ok ("ts-dedup:" +:+ Crypto.sha256 ("{" +:+ json_quote "payload" +:+ ":1}"))
  /\ getCacheKey defaults (normalizeMessage has_payload_1)
     <> getCacheKey defaults (normalizeMessage (obj [("payload", has_payload_1)])).
Proof.
  split; [|split].
  - vm_compute. reflexivity.
  - vm_compute. reflexivity.
  - vm_compute. intros Hsame. discriminate Hsame.
Qed.


(** * Further properties *)

(** ** The in-process cache, method by method *)

Section MemoryMethods.
Variable options : Options.

Import MemoryCache.

Lemma deadline_not_passed (n : Z) (ttl : Q) :
  Qle_bool (inject_Z n) (inject_Z n + ttl * 1000) = Qle_bool 0 ttl.
Proof.
  destruct (Qle_bool 0 ttl) eqn:Httl.
  - apply Qle_bool_iff in Httl. apply Qle_bool_iff. lra.
  - destruct (Qle_bool (inject_Z n) _) eqn:Hle; [|reflexivity].
    apply Qle_bool_iff in Hle.
    assert (Hpos : (0 <= ttl)%Q) by lra.
    apply Qle_bool_iff in Hpos. congruence.
Qed.

(** X1. Right after [set(key, ttl)] with a TTL that is not negative,
    [has(key)] answers [true] and reads only; with a TTL of a millisecond
    or more below zero the entry is already expired, [has] answers [false]
    and removes it again.  (Between the two the answer depends on how the
    sum [Date.now() + ttl * 1000] is rounded, and nothing is said.) *)
Theorem memory_set_then_has key ttl s :
  ((0 <= ttl)%Q ->
   has options key (set options key ttl s).2 = (Ok true, (set options key ttl s).2))
  /\ ((ttl * 1000 <= -1)%Q ->
      (has options key (set options key ttl s).2).1 = Ok false
      /\ cache (has options key (set options key ttl s).2).2
           !! getNamespacedKey options key = None).
Proof.
  assert (Hentry : cache (set options key ttl s).2 !! getNamespacedKey options key
                   = Some {| expires := (inject_Z (now s) + ttl * 1000)%Q;
                             timeout := next_timer s |}).
  { rewrite set_unfold. cbn. apply lookup_insert_eq. }
  assert (Hnow : now (set options key ttl s).2 = now s) by apply set_now.
  split.
  - intros Httl. apply (has_live options key _ _ Hentry). cbn. rewrite Hnow. lra.
  - intros Httl.
    assert (Hfalse : (has options key (set options key ttl s).2).1 = Ok false).
    { unfold has. rewrite Hentry. unfold Qltb. cbn [expires].
      rewrite Hnow, deadline_not_passed.
      assert (Hneg : Qle_bool 0 ttl = false).
      { destruct (Qle_bool 0 ttl) eqn:Hle; [|reflexivity].
        apply Qle_bool_iff in Hle. lra. }
      rewrite Hneg. cbn. unfold bind, ret.
      pose proof (delete_ok options key (set options key ttl s).2) as Hok.
      destruct (delete options key _) as [[[]|e] s1]; [reflexivity | discriminate]. }
    split; [exact Hfalse | now apply has_false_absent].
Qed.

Lemma has_after_delete key s :
  has options key (delete options key s).2 = (Ok false, (delete options key s).2).
Proof. apply has_absent. rewrite delete_cache. apply lookup_delete_eq. Qed.

Lemma has_expired key s e :
  cache s !! getNamespacedKey options key = Some e ->
  (expires e < inject_Z (now s))%Q ->
  has options key s = (Ok false, (delete options key s).2).
Proof.
  intros Hk Hpast.
  assert (Hexpired : Qle_bool (inject_Z (now s)) (expires e) = false).
  { destruct (Qle_bool _ _) eqn:Hle; [|reflexivity].
    apply Qle_bool_iff in Hle. lra. }
  unfold has. rewrite Hk. unfold Qltb. rewrite Hexpired. cbn.
  unfold bind, ret.
  pose proof (delete_ok options key s) as Hok.
  destruct (delete options key s) as [[[]|err] s1]; [reflexivity | discriminate].
Qed.

(** X2. [delete] never throws; after it [has] answers [false] for the key;
    deleting again, or deleting a key the store does not hold, changes
    nothing. *)
Theorem memory_delete_forgets key s :
  delete options key s = (Ok tt, (delete options key s).2)
  /\ has options key (delete options key s).2 = (Ok false, (delete options key s).2)
  /\ delete options key (delete options key s).2 = (Ok tt, (delete options key s).2)
  /\ (cache s !! getNamespacedKey options key = None ->
      delete options key s = (Ok tt, s)).
Proof.
  assert (Hgone : cache (delete options key s).2 !! getNamespacedKey options key = None).
  { rewrite delete_cache. apply lookup_delete_eq. }
  repeat split.
  - pose proof (delete_ok options key s) as Hok.
    destruct (delete options key s) as [r s1]. cbn in *. now subst r.
  - apply has_after_delete.
  - unfold delete at 1. now rewrite Hgone.
  - intros Habsent. unfold delete. now rewrite Habsent.
Qed.

(** X3. [has] answers [true] exactly for a key whose entry has a deadline
    not yet passed (the deadline instant itself included); an entry whose
    deadline has passed is removed by the read, and its timer cancelled,
    whether or not the timer has run. *)
Theorem memory_has_contract key s :
  ((has options key s).1 = Ok true <->
   exists e, cache s !! getNamespacedKey options key = Some e
             /\ (inject_Z (now s) <= expires e)%Q)
  /\ (forall e,
        cache s !! getNamespacedKey options key = Some e ->
        (expires e < inject_Z (now s))%Q ->
        (has options key s).1 = Ok false
        /\ cache (has options key s).2 !! getNamespacedKey options key = None
        /\ forall tm, (timeout e, tm) ∉ timers (has options key s).2).
Proof.
  split.
  - split.
    + unfold has. destruct (cache s !! _) as [e|] eqn:Hk; [|discriminate].
      unfold Qltb. destruct (Qle_bool _ _) eqn:Hle; cbn.
      * intros _. exists e. split; [reflexivity|]. now apply Qle_bool_iff.
      * unfold bind, ret. destruct (delete options key s) as [[[]|err] s1]; discriminate.
    + intros (e & Hk & Hlive). now rewrite (has_live options key s e Hk Hlive).
  - intros e Hk Hpast.
    pose proof (has_expired key s e Hk Hpast) as Hhas.
    rewrite Hhas. cbn. split; [reflexivity|]. split.
    + rewrite delete_cache. apply lookup_delete_eq.
    + intros tm Hin. unfold delete in Hin. rewrite Hk in Hin. cbn in Hin.
      apply elem_of_clearTimeout in Hin as [Hne _]. now apply Hne.
Qed.

Lemma has_result_ext key s s1 :
  cache s1 !! getNamespacedKey options key = cache s !! getNamespacedKey options key ->
  now s1 = now s ->
  (has options key s1).1 = (has options key s).1.
Proof.
  intros Hk Hnow. unfold has. rewrite Hk, Hnow.
  destruct (cache s !! _) as [e|]; [|reflexivity].
  destruct (Qltb _ _); [|reflexivity].
  unfold bind, ret.
  pose proof (delete_ok options key s) as Hok.
  pose proof (delete_ok options key s1) as Hok1.
  destruct (delete options key s) as [[[]|err] s2];
    destruct (delete options key s1) as [[[]|err1] s3]; cbn in *;
    try discriminate; reflexivity.
Qed.

(** X4. Keys do not interfere: what [has] answers for one key is the same
    before and after a [set], a [delete] or a [has] on another key. *)
Theorem memory_keys_independent key key' ttl s :
  key' <> key ->
  (has options key (set options key' ttl s).2).1 = (has options key s).1
  /\ (has options key (delete options key' s).2).1 = (has options key s).1
  /\ (has options key (has options key' s).2).1 = (has options key s).1.
Proof.
  intros Hother.
  assert (Hne : getNamespacedKey options key' <> getNamespacedKey options key).
  { intros Hsame. now apply getNamespacedKey_inj in Hsame. }
  split; [|split]; apply has_result_ext.
  - rewrite set_unfold. cbn.
    now rewrite lookup_insert_ne, delete_cache, lookup_delete_ne.
  - apply set_now.
  - now rewrite delete_cache, lookup_delete_ne.
  - apply delete_now.
  - unfold has. destruct (cache s !! getNamespacedKey options key') as [e|];
      [|reflexivity].
    destruct (Qltb _ _); [|reflexivity].
    unfold bind, ret. pose proof (delete_cache options key' s) as Hc.
    destruct (delete options key' s) as [[[]|err] s1]; cbn in *;
      now rewrite Hc, lookup_delete_ne.
  - apply has_now.
Qed.
End MemoryMethods.


(** ** The in-process cache over its life *)

Section MemoryLife.
Variable options : Options.

Import MemoryCache.

Lemma clearTimeout_handles handle (pending : list (nat * Timer)) :
  (clearTimeout handle pending).*1 `sublist_of` pending.*1.
Proof. unfold clearTimeout. apply fmap_sublist, sublist_filter. Qed.

Lemma cancel_all_handles (entries : list (string * CacheEntry)) pending :
  (foldr (fun entry rest => clearTimeout (timeout entry.2) rest) pending entries).*1
  `sublist_of` pending.*1.
Proof.
  induction entries as [|entry entries IH]; cbn; [reflexivity|].
  etransitivity; [apply clearTimeout_handles | exact IH].
Qed.

(** Timer handles are handed out once. *)
Lemma reachable_handles_NoDup s :
  reachable options s ->
  NoDup (timers s).*1 /\ forall id, id ∈ (timers s).*1 -> (id < next_timer s)%nat.
Proof.
  assert (Hdelete : forall key s0,
            (NoDup (timers s0).*1
             /\ forall id, id ∈ (timers s0).*1 -> (id < next_timer s0)%nat) ->
            NoDup (timers (delete options key s0).2).*1
            /\ forall id, id ∈ (timers (delete options key s0).2).*1 ->
                          (id < next_timer (delete options key s0).2)%nat).
  { intros key s0 [Hnd Hfresh]. unfold delete.
    destruct (cache s0 !! _) as [e|]; cbn; [|now split].
    split.
    - eapply sublist_NoDup; [exact Hnd | apply clearTimeout_handles].
    - intros id Hin. apply Hfresh.
      eapply elem_of_sublist; [exact Hin | apply clearTimeout_handles]. }
  induction 1 as [t | key s Hs IH | key ttl s Hs IH | key s Hs IH | s Hs IH
                 | s s1 Hs IH Hstep].
  - cbn. split; [constructor|]. intros id Hin. apply elem_of_nil in Hin. contradiction.
  - unfold has. destruct (cache s !! _) as [e|]; [|exact IH].
    destruct (Qltb _ _); [|exact IH].
    unfold bind, ret. specialize (Hdelete key s IH).
    destruct (delete options key s) as [[[]|err] s1]; exact Hdelete.
  - rewrite set_unfold. cbn. specialize (Hdelete key s IH).
    rewrite delete_next_timer in Hdelete. destruct Hdelete as [Hnd Hfresh].
    rewrite fmap_app. cbn. split.
    + apply NoDup_app. split; [exact Hnd|]. split.
      * intros id Hin [->|Hnil]%elem_of_cons.
        -- specialize (Hfresh _ Hin). lia.
        -- apply elem_of_nil in Hnil. contradiction.
      * apply NoDup_singleton.
    + intros id [Hin|Hin]%elem_of_app.
      * specialize (Hfresh _ Hin). lia.
      * apply list_elem_of_singleton in Hin. lia.
  - now apply Hdelete.
  - cbn. destruct IH as [Hnd Hfresh]. split.
    + eapply sublist_NoDup; [exact Hnd | apply cancel_all_handles].
    + intros id Hin. apply Hfresh.
      eapply elem_of_sublist; [exact Hin | apply cancel_all_handles].
  - destruct IH as [Hnd Hfresh].
    destruct Hstep as [s t Hlater | s handle tm Hpending Hdue]; cbn; [now split|].
    split.
    + eapply sublist_NoDup; [exact Hnd | apply clearTimeout_handles].
    + intros id Hin. apply Hfresh.
      eapply elem_of_sublist; [exact Hin | apply clearTimeout_handles].
Qed.

(** A handle names one pending timer. *)
Lemma handle_names_one_timer (pending : list (nat * Timer)) id tm tm' :
  NoDup pending.*1 -> (id, tm) ∈ pending -> (id, tm') ∈ pending -> tm = tm'.
Proof.
  induction pending as [|[id0 tm0] pending IH]; intros Hnd Hin Hin';
    [now apply elem_of_nil in Hin|].
  cbn in Hnd. apply NoDup_cons in Hnd as [Hfresh Hnd].
  assert (Hhandle : forall t, (id0, t) ∈ pending -> False).
  { intros t Ht. apply Hfresh. apply list_elem_of_fmap. now exists (id0, t). }
  apply elem_of_cons in Hin as [Hin|Hin]; apply elem_of_cons in Hin' as [Hin'|Hin'].
  - congruence.
  - inversion Hin; subst. now destruct (Hhandle tm').
  - inversion Hin'; subst. now destruct (Hhandle tm).
  - now apply IH.
Qed.

(** X5. No timer leaks and none is missing: in every state an instance
    reaches, the pending timers are as many as the entries of the store. *)
Theorem memory_one_timer_per_entry s :
  reachable options s -> length (timers s) = size (cache s).
Proof.
  intros Hreach.
  pose proof (reachable_consistent options s Hreach) as Hs.
  destruct (reachable_handles_NoDup s Hreach) as [Hnd _].
  set (target_of := fun p : nat * Timer => target p.2).
  assert (Hperm : target_of <$> timers s ≡ₚ (map_to_list (cache s)).*1).
  { apply NoDup_Permutation.
    - apply NoDup_fmap_2_strong; [|eapply NoDup_fmap_1; exact Hnd].
      intros [id1 tm1] [id2 tm2] H1 H2 Heq. unfold target_of in Heq. cbn in Heq.
      destruct (timer_has_entry s Hs _ _ H1) as (e1 & Hk1 & Hid1).
      destruct (timer_has_entry s Hs _ _ H2) as (e2 & Hk2 & Hid2).
      rewrite Heq, Hk2 in Hk1. injection Hk1 as Hsame.
      assert (Hid : id2 = id1) by congruence.
      rewrite Hid in H2 |- *.
      f_equal. exact (handle_names_one_timer _ _ _ _ Hnd H1 H2).
    - apply NoDup_fst_map_to_list.
    - intros k. split.
      + intros [[id tm] [-> Hin]]%list_elem_of_fmap. unfold target_of. cbn.
        destruct (timer_has_entry s Hs _ _ Hin) as (e & Hk & _).
        apply list_elem_of_fmap. exists (target tm, e). split; [reflexivity|].
        now apply elem_of_map_to_list.
      + intros [[k0 e] [-> Hin]]%list_elem_of_fmap. cbn.
        apply elem_of_map_to_list in Hin.
        destruct (entry_has_timer s Hs _ _ Hin) as [d Hpending].
        apply list_elem_of_fmap. eexists. split; [|exact Hpending]. reflexivity. }
  rewrite <- (length_fmap target_of), Hperm, length_fmap. apply length_map_to_list.
Qed.

End MemoryLife.

(** ** Eviction by the runtime *)

Section MemoryEviction.
Variable options : Options.

Import MemoryCache.

End MemoryEviction.


(** ** The orchestrator over the in-process cache, continued *)

Section MemoryOrchestration.
Variables cache_options options : Options.

Import MemoryCache Deduplicator.

Local Abbreviation isDuplicate_mem :=
  (@isDuplicate State (memory_cache cache_options) options).
Local Abbreviation removeFromCache_mem :=
  (@removeFromCache State (memory_cache cache_options) options).
Local Abbreviation clearCache_mem :=
  (@clearCache State (memory_cache cache_options)).
Local Abbreviation process_mem :=
  (@processIfNotDuplicate State (memory_cache cache_options) options).

(** A first submission: the state it leaves. *)
Lemma isDuplicate_new message key s :
  getCacheKey options (normalizeMessage message) = Ok key ->
  (has cache_options key s).1 = Ok false ->
  exists s1,
    isDuplicate_mem message s = (Ok false, s1)
    /\ now s1 = now s
    /\ cache s1 !! getNamespacedKey cache_options key
       = Some {| expires := (inject_Z (now s) + ttl options * 1000)%Q;
                 timeout := next_timer s |}.
Proof.
  intros Hkey Hnew.
  destruct (has_false_absent cache_options key s Hnew) as (Habsent & Hnow & Hnext).
  destruct (has cache_options key s) as [r s0] eqn:Hhas.
  cbn in Hnew, Habsent, Hnow, Hnext. subst r.
  pose proof (set_on_absent cache_options key (ttl options) s0 Habsent) as Hset.
  cbn in Hset. rewrite Hnow, Hnext in Hset.
  eexists. split; [|split].
  - rewrite (@isDuplicate_unfold _ (memory_cache cache_options) _ _ _ _ Hkey). cbn.
    rewrite Hhas. cbn. rewrite Hset. reflexivity.
  - reflexivity.
  - cbn. apply lookup_insert_eq.
Qed.

(** In the meantime the entry of the key is the one stored, or gone. *)
Lemma meanwhile_same_or_gone key s s1 e :
  meanwhile cache_options key s s1 ->
  cache s !! getNamespacedKey cache_options key = Some e
  \/ cache s !! getNamespacedKey cache_options key = None ->
  cache s1 !! getNamespacedKey cache_options key = Some e
  \/ cache s1 !! getNamespacedKey cache_options key = None.
Proof.
  set (nk := getNamespacedKey cache_options key).
  induction 1 as [|s0 s1 s2 Hstep _ IH]; [tauto|].
  intros Hstart. apply IH. clear IH.
  assert (Hdelete : forall k (c : gmap string CacheEntry),
            c !! nk = Some e \/ c !! nk = None ->
            base.delete k c !! nk = Some e \/ base.delete k c !! nk = None).
  { intros k c Hc. destruct (decide (k = nk)) as [->|Hne].
    - right. apply lookup_delete_eq.
    - now rewrite lookup_delete_ne. }
  destruct Hstep as [s0 s1 Hrun | key' s0 | key' ttl s0 Hother | key' s0 Hother].
  - destruct Hrun as [s0 t Hlater | s0 handle tm Hpending Hdue]; cbn; auto.
  - unfold has. destruct (cache s0 !! getNamespacedKey cache_options key') as [e'|];
      [|exact Hstart].
    destruct (Qltb _ _); [|exact Hstart].
    unfold bind, ret. pose proof (delete_cache cache_options key' s0) as Hc.
    destruct (delete cache_options key' s0) as [[[]|err] s3]; cbn in *;
      rewrite Hc; auto.
  - rewrite set_unfold. cbn. rewrite lookup_insert_ne, delete_cache.
    + auto.
    + intros Hsame. now apply getNamespacedKey_inj in Hsame.
  - rewrite delete_cache. auto.
Qed.

(** X8. The window closes: once the deadline of the stored key has passed,
    whatever happened to the entry in the meantime, the message is reported
    new again and stored afresh for one TTL from then. *)
Theorem duplicate_window_closes message key s1 s2 e :
  getCacheKey options (normalizeMessage message) = Ok key ->
  cache s1 !! getNamespacedKey cache_options key = Some e ->
  meanwhile cache_options key s1 s2 ->
  (expires e < inject_Z (now s2))%Q ->
  exists s3,
    isDuplicate_mem message s2 = (Ok false, s3)
    /\ cache s3 !! getNamespacedKey cache_options key
       = Some {| expires := (inject_Z (now s2) + ttl options * 1000)%Q;
                 timeout := next_timer s2 |}.
Proof.
  intros Hkey Hstored Hmeanwhile Hpast.
  assert (Hnew : (has cache_options key s2).1 = Ok false).
  { destruct (meanwhile_same_or_gone key s1 s2 e Hmeanwhile (or_introl Hstored))
      as [Hk|Hk].
    - now rewrite (has_expired cache_options key s2 e Hk Hpast).
    - now rewrite (has_absent cache_options key s2 Hk). }
  destruct (isDuplicate_new message key s2 Hkey Hnew) as (s3 & Hdup & _ & Hentry).
  exists s3. now split.
Qed.

(** X9. [removeFromCache] makes the cache forget the message: it completes
    normally, and the next [isDuplicate] reports the message new. *)
Theorem removeFromCache_allows_reprocessing message key s :
  getCacheKey options (normalizeMessage message) = Ok key ->
  let s1 := (removeFromCache_mem message s).2 in
  removeFromCache_mem message s = (Ok tt, s1)
  /\ has cache_options key s1 = (Ok false, s1)
  /\ (isDuplicate_mem message s1).1 = Ok false.
Proof.
  intros Hkey s1.
  assert (Hremove : removeFromCache_mem message s
                    = (Ok tt, (delete cache_options key s).2)).
  { unfold removeFromCache, bind, lift, try_catch. rewrite Hkey. cbn.
    pose proof (delete_ok cache_options key s) as Hok.
    destruct (delete cache_options key s) as [[[]|err] s0]; [reflexivity | discriminate]. }
  unfold s1. rewrite Hremove. cbn [snd].
  pose proof (has_after_delete cache_options key s) as Hhas.
  split; [reflexivity|]. split; [exact Hhas|].
  destruct (isDuplicate_new message key (delete cache_options key s).2 Hkey)
    as (s2 & Hdup & _); [now rewrite Hhas|].
  now rewrite Hdup.
Qed.

(** X10. [clearCache] makes the cache forget every message: it completes
    normally, and afterwards every message whose key can be derived is
    reported new. *)
Theorem clearCache_forgets_everything s :
  let s1 := (clearCache_mem s).2 in
  clearCache_mem s = (Ok tt, s1)
  /\ forall message key,
       getCacheKey options (normalizeMessage message) = Ok key ->
       (isDuplicate_mem message s1).1 = Ok false.
Proof.
  intros s1. split; [reflexivity|].
  intros message key Hkey.
  destruct (isDuplicate_new message key s1 Hkey) as (s2 & Hdup & _).
  - rewrite has_absent; [reflexivity|]. apply lookup_empty.
  - now rewrite Hdup.
Qed.

(** X11. [processIfNotDuplicate] runs a processor once: a new message is
    handed over as its payload and the result returned; submitted again
    right away (the TTL not being negative), it is skipped and the
    processor is not run. *)
Theorem process_once_then_skip {R} (f : JSValue -> R) message key s :
  getCacheKey options (normalizeMessage message) = Ok key ->
  (has cache_options key s).1 = Ok false ->
  (0 <= ttl options)%Q ->
  exists s1,
    process_mem message (fun payload => ret (f payload)) s
    = (Ok {| result := Some (f (property "payload" (normalizeMessage message)));
             duplicate := false |}, s1)
    /\ forall processor : JSValue -> M State R,
         process_mem message processor s1
         = (Ok {| result := None; duplicate := true |}, s1).
Proof.
  intros Hkey Hnew Httl.
  destruct (isDuplicate_new message key s Hkey Hnew) as (s1 & Hdup & Hnow & Hentry).
  exists s1. split.
  - unfold processIfNotDuplicate, bind. rewrite Hdup. reflexivity.
  - intros processor. unfold processIfNotDuplicate, bind.
    rewrite (memory_duplicate_untouched cache_options options message key s1 Hkey).
    + reflexivity.
    + rewrite (has_live cache_options key s1 _ Hentry); [reflexivity|].
      cbn. rewrite Hnow. lra.
Qed.

End MemoryOrchestration.

(** ** Keys and prefixes of the networked cache *)

Section RedisKeys.

Import RedisCache RedisAdmin.

Lemma has_double_colon_cons a b rest :
  has_double_colon (String a (String b rest))
  = (Ascii.eqb a ":" && Ascii.eqb b ":") || has_double_colon (String b rest).
Proof. reflexivity. Qed.

Lemma collapse_colons_single b s :
  has_double_colon (collapse_colons b s) = false
  /\ (b = true -> forall rest, collapse_colons b s <> String ":" rest).
Proof.
  revert b. induction s as [|c s IH]; intros b; cbn.
  - split; [reflexivity | discriminate].
  - destruct (Ascii.eqb_spec c ":") as [->|Hc].
    + destruct b.
      * apply IH.
      * split; [|discriminate].
        destruct (IH true) as [Hnone Hhead].
        destruct (collapse_colons true s) as [|d rest] eqn:Hrest; [reflexivity|].
        rewrite has_double_colon_cons, Hnone.
        destruct (Ascii.eqb_spec d ":") as [->|]; [|reflexivity].
        now destruct (Hhead eq_refl rest).
    + split.
      * destruct (IH false) as [Hnone _].
        destruct (collapse_colons false s) as [|d rest] eqn:Hrest; [reflexivity|].
        rewrite has_double_colon_cons, Hnone.
        destruct (Ascii.eqb_spec c ":"); [contradiction | reflexivity].
      * intros _ rest Heq. inversion Heq. contradiction.
Qed.

Lemma collapse_colons_again b b0 s :
  (b0 = true -> b = true) ->
  collapse_colons b (collapse_colons b0 s) = collapse_colons b s.
Proof.
  revert b b0. induction s as [|c s IH]; intros b b0 Hb; cbn; [reflexivity|].
  destruct (Ascii.eqb_spec c ":") as [->|Hc].
  - destruct b0.
    + rewrite (Hb eq_refl). now apply IH.
    + cbn. destruct b; rewrite IH; auto.
  - cbn. destruct (Ascii.eqb_spec c ":"); [contradiction|].
    now rewrite IH.
Qed.

Lemma collapse_colons_app b x :
  exists b1, forall y,
    collapse_colons b (x +:+ y) = collapse_colons b x +:+ collapse_colons b1 y.
Proof.
  revert b. induction x as [|c x IH]; intros b.
  - now exists b.
  - destruct (IH (Ascii.eqb c ":")) as [b1 Hb1]. exists b1. intros y.
    change (String c x +:+ y) with (String c (x +:+ y)).
    cbn [collapse_colons].
    destruct (Ascii.eqb c ":"); [destruct b|]; rewrite Hb1; reflexivity.
Qed.

Lemma collapse_colons_nonempty s :
  s <> "" -> collapse_colons false s <> "".
Proof.
  destruct s as [|c s]; [contradiction|]. intros _. cbn.
  destruct (Ascii.eqb c ":"); discriminate.
Qed.

Lemma prefix_double_colon p k :
  has_double_colon p = true -> String.prefix p k = true -> has_double_colon k = true.
Proof.
  revert k. induction p as [|a p IH]; intros k Hp Hk; [discriminate|].
  destruct k as [|a' k]; [discriminate|].
  cbn in Hk. destruct (ascii_dec a a') as [<-|]; [|discriminate].
  destruct p as [|b p]; [discriminate|].
  destruct k as [|b' k]; [discriminate|].
  pose proof Hk as Hk'. cbn in Hk'.
  destruct (ascii_dec b b') as [<-|]; [|discriminate].
  rewrite has_double_colon_cons in Hp |- *.
  apply orb_true_iff in Hp as [Hp|Hp]; apply orb_true_iff; [now left|right].
  now apply IH.
Qed.

(** X13. A cache key never holds two colons in a row, and keys that differ
    only in how often a colon is repeated are one and the same cache key:
    the networked cache cannot tell them apart. *)
Theorem getKey_collapses_colons options key :
  key <> "" ->
  exists cacheKey,
    getKey options key = Ok cacheKey
    /\ has_double_colon cacheKey = false
    /\ forall key',
         key' <> "" ->
         collapse_colons false key' = collapse_colons false key ->
         getKey options key' = Ok cacheKey.
Proof.
  intros Hkey. exists (collapse_colons false (prefix options +:+ key)).
  assert (Hget : forall k, k <> "" ->
            getKey options k = Ok (collapse_colons false (prefix options +:+ k))).
  { intros k Hk. unfold getKey.
    destruct (String.eqb_spec k ""); [contradiction | reflexivity]. }
  split; [now apply Hget|]. split; [apply collapse_colons_single|].
  intros key' Hkey' Hsame. rewrite (Hget key' Hkey'). f_equal.
  destruct (collapse_colons_app false (prefix options)) as [b1 Happ].
  rewrite !Happ. f_equal.
  rewrite <- (collapse_colons_again b1 false key') by discriminate.
  rewrite <- (collapse_colons_again b1 false key) by discriminate.
  now rewrite Hsame.
Qed.

Lemma has_double_colon_app p q :
  has_double_colon p = true -> has_double_colon (p +:+ q) = true.
Proof.
  intros Hp. induction p as [|a p IH]; [discriminate|].
  destruct p as [|b p]; [discriminate|].
  change (String a (String b p) +:+ q) with (String a (String b (p +:+ q))).
  rewrite has_double_colon_cons in Hp |- *.
  apply orb_true_iff in Hp as [Hp|Hp]; apply orb_true_iff; [now left|right].
  now apply IH.
Qed.

(** A written key does not begin with a prefix that holds two colons in a
    row. *)
Lemma doubled_prefix_is_no_prefix options key cacheKey :
  has_double_colon (prefix options) = true ->
  getKey options key = Ok cacheKey ->
  String.prefix (prefix options) cacheKey = false.
Proof.
  intros Hprefix Hget.
  destruct (String.prefix (prefix options) cacheKey) eqn:Hstarts; [|reflexivity].
  pose proof (prefix_double_colon _ _ Hprefix Hstarts) as Hdouble.
  unfold getKey in Hget. destruct (String.eqb key ""); [discriminate|].
  inversion Hget; subst cacheKey.
  destruct (collapse_colons_single false (prefix options +:+ key)) as [Hnone _].
  congruence.
Qed.

(** X14. When the configured prefix, the one closing colon that the
    constructor removes apart, holds two colons in a row (['app::cache'],
    ['app:::']; not ['app::'], of which ['app:'] is left), the prefix of
    the instance holds them too and no key the cache writes begins with
    it; [clear] and [clearWithCount] scan for the names that begin with
    it. *)
Theorem doubled_colon_prefix_hides_keys configured ttl debug key cacheKey :
  let options :=
    createRedisCache {| prefix_option := Some configured;
                        ttl_option := ttl; debug_option := debug |} in
  has_double_colon (strip_trailing_colon configured) = true ->
  getKey options key = Ok cacheKey ->
  has_double_colon (prefix options) = true
  /\ String.prefix (prefix options) cacheKey = false.
Proof.
  intros options Hconfigured Hget.
  assert (Hprefix : has_double_colon (prefix options) = true).
  { unfold options, createRedisCache, prefix, prefix_of, cache_options. cbn.
    destruct (String.eqb_spec configured "") as [->|_]; [discriminate|].
    destruct (ends_with_colon (strip_trailing_colon configured));
      [exact Hconfigured | now apply has_double_colon_app]. }
  split; [exact Hprefix | now apply (doubled_prefix_is_no_prefix options key)].
Qed.

Lemma ends_with_colon_app s : ends_with_colon (s +:+ ":") = true.
Proof.
  induction s as [|c s IH]; [reflexivity|].
  change (String c s +:+ ":") with (String c (s +:+ ":")).
  destruct (s +:+ ":") as [|d rest] eqn:Hrest; [destruct s; discriminate|].
  exact IH.
Qed.

Lemma strip_trailing_colon_app s : strip_trailing_colon (s +:+ ":") = s.
Proof.
  induction s as [|c s IH]; [reflexivity|].
  change (String c s +:+ ":") with (String c (s +:+ ":")).
  destruct (s +:+ ":") as [|d rest] eqn:Hrest; [destruct s; discriminate|].
  change (String c (strip_trailing_colon (String d rest)) = String c s).
  now rewrite IH.
Qed.

Lemma strip_trailing_colon_none s :
  ends_with_colon s = false -> strip_trailing_colon s = s.
Proof.
  induction s as [|c s IH]; [reflexivity|].
  destruct s as [|d s].
  - cbn. intros ->. reflexivity.
  - intros Hs. change (String c (strip_trailing_colon (String d s)) = String c (String d s)).
    now rewrite IH.
Qed.

(** X15. The prefix of an instance always ends with a colon; it is
    ['ts-dedup:'] when no prefix (or an empty one) is configured, and a
    prefix configured with or without its closing colon gives the same
    instance prefix. *)
Theorem redis_prefix_normalised ttl debug :
  let configured p :=
    prefix (createRedisCache
              {| prefix_option := p; ttl_option := ttl; debug_option := debug |}) in
  (forall p, ends_with_colon (configured p) = true)
  /\ configured None = "ts-dedup:"
  /\ configured (Some "") = "ts-dedup:"
  /\ forall p, p <> "" -> ends_with_colon p = false ->
       configured (Some p) = p +:+ ":"
       /\ configured (Some (p +:+ ":")) = p +:+ ":".
Proof.
  intros configured.
  assert (Hends : forall ns,
            ends_with_colon (if ends_with_colon ns then ns else ns +:+ ":") = true).
  { intros ns. destruct (ends_with_colon ns) eqn:Hns; [exact Hns|].
    apply ends_with_colon_app. }
  split; [|split; [reflexivity | split; [reflexivity|]]].
  - intros p. unfold configured, createRedisCache, prefix, prefix_of, cache_options.
    cbn. apply Hends.
  - intros p Hp Hopen.
    assert (Hplain : String.eqb p "" = false) by now apply String.eqb_neq.
    assert (Hclosed : String.eqb (p +:+ ":") "" = false).
    { apply String.eqb_neq. destruct p; discriminate. }
    unfold configured, createRedisCache, prefix, prefix_of, cache_options. cbn.
    rewrite Hplain, Hclosed, strip_trailing_colon_app,
      (strip_trailing_colon_none p Hopen), Hopen.
    now split.
Qed.
End RedisKeys.

(** ** The networked cache, call by call *)

Section RedisCalls.
Context {C : Type} `{RedisCache.RedisClient C} `{RedisAdmin.RedisInfo C}.
Variable options : Options.

Import RedisCache RedisAdmin.

(** X16. Apart from [set] and [clearWithCount], no method of the networked
    cache ever throws, whatever the client does: every failure is turned
    into a normal completion. *)
Theorem redis_failures_stay_inside key (s : State C) :
  (exists present s1, has options key s = (Ok present, s1))
  /\ (exists s1, delete options key s = (Ok tt, s1))
  /\ (exists deleted s1, deleteWithResult options key s = (Ok deleted, s1))
  /\ (exists s1, clear options s = (Ok tt, s1))
  /\ (exists done s1, disconnect s = (Ok done, s1))
  /\ (exists text s1, getServerInfo s = (Ok text, s1)).
Proof.
  repeat apply conj.
  - apply has_never_throws.
  - apply delete_never_throws.
  - unfold deleteWithResult, bind, gets, ret, lift, try_catch, call.
    destruct (String.eqb key ""), (isConnected s); cbn; eauto.
    destruct (getKey options key) as [cacheKey|e]; [|eauto].
    destruct (del [cacheKey] (client s)) as [[n|e] c]; eauto.
  - apply clear_never_throws.
  - unfold disconnect, bind, gets, ret, try_catch, call, modify.
    destruct (isConnected s); cbn; [|eauto].
    destruct (quit (client s)) as [[[]|e] c]; eauto.
  - unfold getServerInfo, bind, gets, ret, try_catch, call.
    destruct (isConnected s); cbn; [|eauto].
    destruct (info (client s)) as [[text|e] c]; eauto.
Qed.

(** X17. An instance that knows its connection to be down does nothing:
    every method returns its neutral answer at once, and neither the
    instance nor its client changes.  A valid [set] is dropped in silence. *)
Theorem redis_disconnected_is_inert key ttl (s : State C) :
  isConnected s = false ->
  has options key s = (Ok false, s)
  /\ delete options key s = (Ok tt, s)
  /\ deleteWithResult options key s = (Ok false, s)
  /\ clear options s = (Ok tt, s)
  /\ clearWithCount options s = (Ok 0%nat, s)
  /\ disconnect s = (Ok true, s)
  /\ getServerInfo s = (Ok "Redis client not connected", s)
  /\ isConnectedToRedis s = false
  /\ (key <> "" -> (0 < ttl)%Q -> set options key ttl s = (Ok tt, s)).
Proof.
  intros Hdown. repeat apply conj.
  - unfold has, bind, gets, ret. now rewrite Hdown.
  - unfold delete, bind, gets, ret.
    destruct (String.eqb key ""); [reflexivity|]. now rewrite Hdown.
  - unfold deleteWithResult, bind, gets, ret. rewrite Hdown. cbn.
    now rewrite orb_true_r.
  - unfold clear, bind, gets, ret. now rewrite Hdown.
  - unfold clearWithCount, bind, gets, ret. now rewrite Hdown.
  - unfold disconnect, bind, gets, ret. now rewrite Hdown.
  - unfold getServerInfo, bind, gets, ret. now rewrite Hdown.
  - unfold isConnectedToRedis. now rewrite Hdown.
  - intros Hkey Httl. now apply set_disconnected.
Qed.

(** X18. [disconnect] quits the client once: when [quit] succeeds the
    instance is marked disconnected and [disconnect] answers [true], and a
    further [disconnect] answers [true] without calling the client; when
    [quit] fails the answer is [false] and the instance stays marked
    connected. *)
Theorem redis_disconnect_once (s : State C) :
  isConnected s = true ->
  match quit (client s) with
  | (Ok _, c) =>
      let s1 := {| client := c; isConnected := false |} in
      disconnect s = (Ok true, s1) /\ disconnect s1 = (Ok true, s1)
  | (Throw _, c) =>
      disconnect s = (Ok false, {| client := c; isConnected := true |})
  end.
Proof.
  intros Hup. destruct s as [c0 connected]. cbn in Hup. subst connected.
  unfold disconnect, bind, gets, ret, try_catch, call, modify. cbn.
  destruct (quit c0) as [[[]|e] c]; cbn; [split|]; reflexivity.
Qed.

Lemma on_data_accounts (batches : list (list string)) (acc : Scan) :
  deletedCount acc = length (concat (pipeline acc)) ->
  (length (keysToDelete acc) < 100)%nat ->
  Forall (fun batch => (100 <= length batch)%nat) (pipeline acc) ->
  let acc1 := fold_left on_data batches acc in
  concat (pipeline acc1) ++ keysToDelete acc1
  = (concat (pipeline acc) ++ keysToDelete acc) ++ concat batches
  /\ deletedCount acc1 = length (concat (pipeline acc1))
  /\ (length (keysToDelete acc1) < 100)%nat
  /\ Forall (fun batch => (100 <= length batch)%nat) (pipeline acc1).
Proof.
  revert acc. induction batches as [|keys batches IH]; intros acc Hcount Hshort Hfull.
  - cbn. rewrite app_nil_r.
    split; [reflexivity|]. split; [exact Hcount|]. split; [exact Hshort | exact Hfull].
  - cbn [fold_left concat].
    assert (Hstep : deletedCount (on_data acc keys) = length (concat (pipeline (on_data acc keys)))
                    /\ (length (keysToDelete (on_data acc keys)) < 100)%nat
                    /\ Forall (fun batch => (100 <= length batch)%nat)
                              (pipeline (on_data acc keys))
                    /\ concat (pipeline (on_data acc keys)) ++ keysToDelete (on_data acc keys)
                       = (concat (pipeline acc) ++ keysToDelete acc) ++ keys).
    { unfold on_data. destruct (Nat.eqb_spec (length keys) 0) as [Hnone|Hsome].
      - apply nil_length_inv in Hnone. subst keys. rewrite app_nil_r.
        split; [exact Hcount|]. split; [exact Hshort|]. split; [exact Hfull | reflexivity].
      - destruct (Nat.leb_spec 100 (length (keysToDelete acc ++ keys))) as [Hbig|Hsmall]; cbn.
        + split; [|split; [|split]].
          * rewrite concat_app, !length_app. cbn. rewrite app_nil_r, length_app. lia.
          * lia.
          * apply Forall_app. split; [exact Hfull|]. now constructor.
          * rewrite concat_app. cbn. rewrite !app_nil_r. now rewrite app_assoc.
        + split; [exact Hcount|]. split; [exact Hsmall|]. split; [exact Hfull|].
          now rewrite app_assoc. }
    destruct Hstep as (Hcount1 & Hshort1 & Hfull1 & Hkeys1).
    destruct (IH _ Hcount1 Hshort1 Hfull1) as (Hkeys & Hrest).
    split; [|exact Hrest].
    cbv zeta in Hkeys. rewrite Hkeys, Hkeys1. now rewrite <- !app_assoc.
Qed.

(** X19. [clearWithCount] deletes what the scan found: the keys of all
    batches of the scan, in scan order, are sent to the client in one
    pipeline of non-empty [del] commands, each but the last of at least a
    hundred keys, and their number is the count returned; when the scan
    finds nothing the pipeline is not sent.  When the scan fails, the
    error is thrown and no key is deleted, not even those found before. *)
Theorem clearWithCount_accounting (s : State C) events c :
  isConnected s = true ->
  scanStream (prefix options +:+ "*") 100 (client s) = (events, c) ->
  let found := concat (data events) in
  let after c1 := {| client := c1; isConnected := true |} in
  match failure events with
  | Some e => clearWithCount options s = (Throw e, after c)
  | None =>
      exists commands,
        concat commands = found
        /\ Forall (fun command => command <> []) commands
        /\ (forall i command,
              commands !! i = Some command ->
              (S i < length commands)%nat -> (100 <= length command)%nat)
        /\ clearWithCount options s
           = match found with
             | [] => (Ok 0%nat, after c)
             | _ :: _ =>
                 match exec commands c with
                 | (Ok _, c1) => (Ok (length found), after c1)
                 | (Throw e, c1) => (Throw e, after c1)
                 end
             end
  end.
Proof.
  intros Hup Hscan found after.
  destruct s as [c0 connected]. cbn in Hup, Hscan. subst connected.
  unfold clearWithCount, bind, gets, try_catch. cbn. rewrite Hscan.
  destruct (failure events) as [e|] eqn:Hfailure; [reflexivity|].
  set (start := {| pipeline := []; keysToDelete := []; deletedCount := 0 |}).
  destruct (on_data_accounts (data events) start eq_refl) as (Hkeys & Hcount & Hshort & Hfull);
    [cbn; lia | constructor |].
  cbv zeta in Hkeys, Hcount, Hshort, Hfull. cbn in Hkeys. fold found in Hkeys.
  set (acc := fold_left on_data (data events) start) in *.
  assert (Hnonempty : forall batch : list string, (100 <= length batch)%nat -> batch <> []).
  { intros batch Hlen ->. cbn in Hlen. lia. }
  unfold on_stream_end, try_catch, bind, ret, call, throw.
  destruct (keysToDelete acc) as [|key rest] eqn:Hrest.
  - (* nothing is left over at the end of the stream *)
    rewrite app_nil_r in Hkeys. cbn [length Nat.ltb Nat.leb].
    exists (pipeline acc). split; [exact Hkeys|]. split; [|split].
    + eapply Forall_impl; [exact Hfull | exact Hnonempty].
    + intros i command Hi _. exact (proj1 (Forall_lookup _ _) Hfull i command Hi).
    + rewrite Hcount, Hkeys. destruct found as [|k found']; [reflexivity|].
      cbn [length Nat.ltb Nat.leb client isConnected].
      destruct (exec (pipeline acc) c) as [[[]|e] c1]; reflexivity.
  - (* the keys left over make the last command *)
    exists (pipeline acc ++ [key :: rest]).
    assert (Hall : concat (pipeline acc ++ [key :: rest]) = found).
    { rewrite concat_app. cbn. now rewrite app_nil_r. }
    split; [exact Hall|]. split; [|split].
    + apply Forall_app. split.
      * eapply Forall_impl; [exact Hfull | exact Hnonempty].
      * now constructor.
    + intros i command Hi Hlast. rewrite length_app in Hlast. cbn in Hlast.
      rewrite lookup_app_l in Hi by lia.
      exact (proj1 (Forall_lookup _ _) Hfull i command Hi).
    + cbn [length Nat.ltb Nat.leb pipeline keysToDelete deletedCount].
      assert (Hlen : (deletedCount acc + S (length rest))%nat = length found).
      { rewrite <- Hkeys, Hcount, length_app. reflexivity. }
      rewrite Hlen.
      destruct found as [|k found']; [cbn in Hlen; lia|].
      cbn [length Nat.ltb Nat.leb client isConnected].
      destruct (exec (pipeline acc ++ [key :: rest]) c) as [[[]|e] c1]; reflexivity.
Qed.
End RedisCalls.

(** ** The orchestrator over the networked cache *)

Section RedisOrchestration.
Context {C : Type} `{RedisCache.RedisClient C}.
Variables backend_options options : Options.

Import RedisCache Deduplicator.

Local Abbreviation isDuplicate_redis :=
  (@isDuplicate (State C) (redis_cache backend_options) options).
Local Abbreviation process_redis :=
  (@processIfNotDuplicate (State C) (redis_cache backend_options) options).

(** X20. While the networked cache knows its connection to be down, the
    deduplicator reports every message new, records nothing and sends
    nothing to the client; so [processIfNotDuplicate] runs the processor on
    every submission, repeated or not. *)
Theorem redis_down_every_message_is_new message key (s : State C) :
  getCacheKey options (normalizeMessage message) = Ok key ->
  isConnected s = false ->
  isDuplicate_redis message s = (Ok false, s)
  /\ forall (R : Type) (processor : JSValue -> M (State C) R),
       process_redis message processor s
       = match processor (property "payload" (normalizeMessage message)) s with
         | (Ok r, s1) => (Ok {| result := Some r; duplicate := false |}, s1)
         | (Throw e, s1) => (Throw e, s1)
         end.
Proof.
  intros Hkey Hdown.
  assert (Hdup : isDuplicate_redis message s = (Ok false, s)).
  { rewrite (@isDuplicate_unfold _ (redis_cache backend_options) _ _ _ _ Hkey).
    cbn [Base.has Base.set redis_cache].
    assert (Hhas : has backend_options key s = (Ok false, s)).
    { unfold has, bind, gets, ret. now rewrite Hdown. }
    rewrite Hhas.
    pose proof (getCacheKey_nonempty options _ _ Hkey) as Hnonempty.
    destruct (Qlt_le_dec 0 (ttl options)) as [Hpos|Hneg].
    - now rewrite (set_disconnected backend_options key _ s Hnonempty Hpos Hdown).
    - destruct (set_rejects backend_options key (ttl options) s (or_intror Hneg))
        as [e Hset].
      now rewrite Hset. }
  split; [exact Hdup|].
  intros R processor. unfold processIfNotDuplicate, bind. rewrite Hdup.
  unfold ret. destruct (processor _ s) as [[r|e] s1]; reflexivity.
Qed.
End RedisOrchestration.

(** ** Keys chosen by the sender *)

Section ExplicitKeys.
Variable options : Options.

Import Deduplicator.

(** X21. An envelope that carries a non-empty [deduplicationKey] is
    identified by that key alone: its payload is not hashed, so the key is
    derived even where hashing would fail, and two such envelopes with the
    same key are one message whatever their payloads.  An empty
    [deduplicationKey] counts as none: the key is derived from the payload. *)
Theorem explicit_key_bypasses_hashing message :
  is_envelope message = true ->
  (forall k,
      property "deduplicationKey" message = JString k -> k <> "" ->
      getCacheKey options (normalizeMessage message)
      = Ok (namespace options +:+ ":" +:+ k))
  /\ (property "deduplicationKey" message = JString ""
      \/ property "deduplicationKey" message = JUndefined ->
      getCacheKey options (normalizeMessage message)
      = res_bind (hashMessage (property "payload" message) (property "format" message))
                 (fun hash => Ok (namespace options +:+ ":" +:+ hash))).
Proof.
  intros Henvelope. unfold normalizeMessage. rewrite Henvelope.
  unfold getCacheKey. split.
  - intros k -> Hk. destruct k; [contradiction | reflexivity].
  - intros [-> | ->]; reflexivity.
Qed.
End ExplicitKeys.

(** ** Digests *)

Section Digests.

Import Crypto.

Lemma length_append (s1 s2 : string) :
  String.length (s1 +:+ s2) = (String.length s1 + String.length s2)%nat.
Proof.
  induction s1 as [|c s1 IH]; [reflexivity|].
  change (S (String.length (s1 +:+ s2)) = S (String.length s1 + String.length s2)).
  now rewrite IH.
Qed.

Lemma length_string_concat (n : nat) (parts : list string) :
  Forall (fun part => String.length part = n) parts ->
  String.length (String.concat "" parts) = (n * length parts)%nat.
Proof.
  induction 1 as [|part parts Hpart _ IH]; [cbn; lia|].
  destruct parts as [|next parts].
  - cbn in *. lia.
  - change (String.concat "" (part :: next :: parts))
      with (part +:+ "" +:+ String.concat "" (next :: parts)).
    rewrite !length_append, IH. cbn. lia.
Qed.

Lemma length_hex_of_words ws :
  String.length (hex_of_words ws) = (8 * length ws)%nat.
Proof.
  unfold hex_of_words. rewrite (length_string_concat 2).
  - rewrite length_map. induction ws as [|w ws IH]; [reflexivity|].
    cbn [map concat length]. rewrite length_app. unfold be_bytes at 1.
    rewrite length_map, length_rev, length_seq. lia.
  - apply Forall_map. apply Forall_forall. reflexivity.
Qed.

Lemma length_round st k : length (round st k).1 = length st.1.
Proof.
  destruct st as [hs w]. cbn [fst].
  do 8 (destruct hs as [|? hs]; [reflexivity|]).
  destruct hs; reflexivity.
Qed.

Lemma length_rounds ks st : length (fold_left round ks st).1 = length st.1.
Proof.
  revert st. induction ks as [|k ks IH]; intros st; [reflexivity|].
  cbn [fold_left]. now rewrite IH, length_round.
Qed.

Lemma length_compress hs block : length (compress hs block) = length hs.
Proof.
  unfold compress.
  pose proof (length_rounds K256 (hs, block)) as Hlen.
  destruct (fold_left round K256 (hs, block)) as [out w].
  cbn [fst] in Hlen.
  rewrite length_map, length_combine. lia.
Qed.

Lemma fold_left_preserves {A B} (f : A -> B -> A) (size : A -> nat) l a :
  (forall a b, size (f a b) = size a) -> size (fold_left f l a) = size a.
Proof.
  intros Hf. revert a. induction l as [|b l IH]; intros a; [reflexivity|].
  cbn. now rewrite IH.
Qed.

Lemma length_compress_all bs hs : length (fold_left compress bs hs) = length hs.
Proof. apply (fold_left_preserves compress (@length Z)), length_compress. Qed.

Lemma length_H256 : length H256 = 8%nat.
Proof. vm_compute. reflexivity. Qed.

(** A digest is sixty-four hexadecimal characters long. *)
Lemma length_sha256_bytes msg : String.length (sha256_bytes msg) = 64%nat.
Proof.
  unfold sha256_bytes. cbv zeta.
  now rewrite length_hex_of_words, length_compress_all, length_H256.
Qed.
End Digests.

(** ** Outcomes of canonical hashing *)

Section HashOutcomes.

Import Payloads.

Local Arguments Crypto.sha256 : simpl never.
Local Arguments Crypto.sha256_bytes : simpl never.

(** One turn of the loop of [normalizeObject]. *)
Local Abbreviation turn recur props :=
  (fun (result : Res (list (string * JSValue))) (key : string) =>
     res_bind result (fun fields =>
       match get_with (normalize_value recur) key props with
       | Some step =>
           res_bind step (fun assigned =>
             match assigned with
             | Some v => Ok (set_field key v fields)
             | None => Ok fields
             end)
       | None => Ok fields
       end)).

Lemma loop_thrown recur props keys e :
  fold_left (turn recur props) keys (Throw e) = Throw e.
Proof. induction keys as [|key keys IH]; [reflexivity | exact IH]. Qed.

(** The loop throws exactly what the first failing property throws. *)
Lemma loop_outcome recur props keys acc :
  match fold_left (turn recur props) keys (Ok acc) with
  | Ok _ =>
      forall key e, key ∈ keys ->
        get_with (normalize_value recur) key props <> Some (Throw e)
  | Throw e =>
      exists key, key ∈ keys
        /\ get_with (normalize_value recur) key props = Some (Throw e)
  end.
Proof.
  revert acc. induction keys as [|key keys IH]; intros acc.
  - cbn. intros key e Hin. apply elem_of_nil in Hin. contradiction.
  - cbn [fold_left res_bind].
    destruct (get_with (normalize_value recur) key props) as [[assigned|e]|] eqn:Hread;
      cbn [res_bind].
    + specialize (IH (match assigned with
                      | Some v => set_field key v acc
                      | None => acc
                      end)).
      replace (match assigned with
               | Some v => Ok (set_field key v acc)
               | None => Ok acc
               end)
        with (Ok (match assigned with
                  | Some v => set_field key v acc
                  | None => acc
                  end)) by now destruct assigned.
      destruct (fold_left _ keys _) as [fields|e].
      * intros key' e Hin. apply elem_of_cons in Hin as [->|Hin]; [congruence|].
        now apply IH.
      * destruct IH as (key' & Hin & Hthrows). exists key'. split; [now right | exact Hthrows].
    + rewrite loop_thrown. exists key. split; [left | exact Hread].
    + specialize (IH acc). destruct (fold_left _ keys _) as [fields|e].
      * intros key' e Hin. apply elem_of_cons in Hin as [->|Hin]; [congruence|].
        now apply IH.
      * destruct IH as (key' & Hin & Hthrows). exists key'. split; [now right | exact Hthrows].
Qed.

Lemma map_items_outcome (f : JSValue -> Res JSValue) items :
  match map_items f items with
  | Ok vs => Forall2 (fun item v => f item = Ok v) items vs
  | Throw e => exists item, item ∈ items /\ f item = Throw e
  end.
Proof.
  induction items as [|item items IH]; cbn; [constructor|].
  destruct (f item) as [v|e] eqn:Hitem; cbn.
  - destruct (map_items f items) as [vs|e]; cbn.
    + now constructor.
    + destruct IH as (item' & Hin & Hthrows). exists item'. split; [now right | exact Hthrows].
  - exists item. split; [left | exact Hitem].
Qed.

Lemma get_with_read {A B} (f : A -> B) key (fields : list (string * A)) r :
  get_with f key fields = Some r -> exists v, (key, v) ∈ fields /\ r = f v.
Proof.
  rewrite get_with_get_field. destruct (get_field key fields) as [v|] eqn:Hget; [|discriminate].
  intros [= <-]. exists v. split; [now apply get_field_elem_of | reflexivity].
Qed.

Lemma normalize_props_outcome recur props :
  match normalize_props recur props with
  | Ok n => exists fields, n = obj fields
            /\ forall key v e, (key, v) ∈ props -> NoDup props.*1 ->
                                normalize_value recur v <> Throw e
  | Throw e => exists key v, (key, v) ∈ props /\ normalize_value recur v = Throw e
  end.
Proof.
  unfold normalize_props, normalize_loop.
  pose proof (loop_outcome recur props (sort_keys (map fst props)) []) as Hout.
  destruct (fold_left _ _ _) as [fields|e]; cbn [res_bind].
  - exists fields. split; [reflexivity|].
    intros key v e Hin Hnd Hthrows.
    apply (Hout key e).
    + unfold sort_keys. rewrite merge_sort_Permutation.
      apply list_elem_of_fmap. now exists (key, v).
    + rewrite get_with_get_field.
      apply (get_field_Some key v props Hnd) in Hin. rewrite Hin. cbn. now rewrite Hthrows.
  - destruct Hout as (key & _ & Hread).
    apply get_with_read in Hread as (v & Hin & Hthrows). now exists key, v.
Qed.

(** The only error [normalizeObject] raises is that of [toISOString] on an
    invalid date. *)
Lemma normalizeObject_throws v e :
  normalizeObject v = Throw e -> e = Error "Invalid time value".
Proof.
  revert e.
  induction v as [| |b|n|s|t|bytes|items IH|ser fields IH] using JSValue_nested_ind;
    intros e; try discriminate.
  - change (normalizeObject (JBuffer bytes))
      with (normalize_props (fun v => Ok v) (buffer_props bytes)).
    pose proof (normalize_props_outcome (fun v => Ok v) (buffer_props bytes)) as Hout.
    destruct (normalize_props _ _) as [n|e']; [discriminate|].
    destruct Hout as (key & v & Hin & Hthrows).
    unfold buffer_props in Hin. apply elem_of_lookup_imap in Hin as (i & x & Heq & _).
    inversion Heq; subst. discriminate.
  - cbn. pose proof (map_items_outcome normalizeObject items) as Hout.
    destruct (map_items normalizeObject items) as [vs|e']; [discriminate|].
    cbn. intros [= <-]. destruct Hout as (item & Hin & Hthrows).
    rewrite Forall_forall in IH. exact (IH item Hin e' Hthrows).
  - change (normalizeObject (JObject ser fields))
      with (normalize_props normalizeObject fields).
    pose proof (normalize_props_outcome normalizeObject fields) as Hout.
    destruct (normalize_props _ _) as [n|e']; [discriminate|].
    intros [= <-]. destruct Hout as (key & v & Hin & Hthrows).
    rewrite Forall_forall in IH. specialize (IH _ Hin). cbn in IH.
    destruct v as [| |b|n|s|[t|]|bytes|items|ser' fields']; try discriminate.
    + cbn in Hthrows. congruence.
    + cbn [normalize_value] in Hthrows.
      destruct (normalizeObject (JArray items)) as [v'|e''] eqn:Hv; [discriminate|].
      cbn in Hthrows. inversion Hthrows; subst. now apply IH.
    + cbn [normalize_value] in Hthrows.
      destruct (normalizeObject (JObject ser' fields')) as [v'|e''] eqn:Hv; [discriminate|].
      cbn in Hthrows. inversion Hthrows; subst. now apply IH.
Qed.

(** What [normalizeObject] returns for an object is an object or an array,
    which has a JSON text. *)
Lemma normalizeObject_has_text v n :
  typeof_object v = true -> v <> JNull ->
  normalizeObject v = Ok n -> exists text, stringify n = Some text.
Proof.
  intros Hobject Hnull Hnorm.
  assert (Hprops : forall recur props,
            normalize_props recur props = Ok n -> exists text, stringify n = Some text).
  { intros recur props Hn.
    pose proof (normalize_props_outcome recur props) as Hout. rewrite Hn in Hout.
    destruct Hout as (fields & -> & _). cbn. eauto. }
  destruct v as [| |b|k|s|t|bytes|items|ser fields]; try discriminate; try contradiction.
  - now apply (Hprops (fun v => Ok v) []).
  - now apply (Hprops (fun v => Ok v) (buffer_props bytes)).
  - cbn in Hnorm. destruct (map_items normalizeObject items) as [vs|e]; [|discriminate].
    cbn in Hnorm. inversion Hnorm; subst. cbn. eauto.
  - now apply (Hprops normalizeObject fields).
Qed.

(** Normalization goes through when no property holds an invalid date. *)
Lemma normalizeObject_succeeds v :
  date_properties_valid v -> exists n, normalizeObject v = Ok n.
Proof.
  induction v as [| |b|k|s|t|bytes|items IH|ser fields IH] using JSValue_nested_ind;
    intros Hvalid; try (eexists; reflexivity).
  - change (normalizeObject (JBuffer bytes))
      with (normalize_props (fun v => Ok v) (buffer_props bytes)).
    pose proof (normalize_props_outcome (fun v => Ok v) (buffer_props bytes)) as Hout.
    destruct (normalize_props _ _) as [n|e]; [eauto|].
    destruct Hout as (key & v & Hin & Hthrows).
    unfold buffer_props in Hin. apply elem_of_lookup_imap in Hin as (i & x & Heq & _).
    inversion Heq; subst. discriminate.
  - inversion Hvalid as [| | | | | | |? Hitems|]; subst.
    cbn. pose proof (map_items_outcome normalizeObject items) as Hout.
    destruct (map_items normalizeObject items) as [vs|e]; cbn; [eauto|].
    destruct Hout as (item & Hin & Hthrows).
    rewrite Forall_forall in IH, Hitems.
    destruct (IH item Hin (Hitems item Hin)) as [n Hn]. congruence.
  - inversion Hvalid as [| | | | | | | |? ? Hfields]; subst.
    change (normalizeObject (JObject ser fields))
      with (normalize_props normalizeObject fields).
    pose proof (normalize_props_outcome normalizeObject fields) as Hout.
    destruct (normalize_props normalizeObject fields) as [n|e]; [eauto|].
    destruct Hout as (key & v & Hin & Hthrows).
    rewrite Forall_forall in IH, Hfields.
    destruct (Hfields _ Hin) as [Hdate Hv]. specialize (IH _ Hin Hv). cbn in IH, Hdate, Hv.
    destruct IH as [n Hn].
    destruct v as [| |b|k|s|[t|]|bytes|items|ser' fields']; try discriminate;
      try contradiction; cbn [normalize_value] in Hthrows; rewrite Hn in Hthrows;
      discriminate.
Qed.

(** And only then, for a payload whose objects have distinct property
    names. *)
Lemma normalizeObject_succeeds_only v n :
  well_formed v -> normalizeObject v = Ok n -> date_properties_valid v.
Proof.
  revert n.
  induction v as [| |b|k|s|t|bytes|items IH|ser fields IH] using JSValue_nested_ind;
    intros n Hwf Hnorm; try constructor.
  - inversion Hwf as [| | | | | | |? Hitems|]; subst.
    cbn in Hnorm. pose proof (map_items_outcome normalizeObject items) as Hout.
    destruct (map_items normalizeObject items) as [vs|e]; [|discriminate].
    rewrite Forall_forall in IH, Hitems. apply Forall_forall. intros item Hin.
    apply list_elem_of_lookup in Hin as Hlookup. destruct Hlookup as [i Hi].
    destruct (Forall2_lookup_l _ _ _ _ _ Hout Hi) as (v & _ & Hv).
    exact (IH item Hin v (Hitems item Hin) Hv).
  - inversion Hwf as [| | | | | | | |? ? Hnd Hvalues]; subst.
    change (normalizeObject (JObject ser fields))
      with (normalize_props normalizeObject fields) in Hnorm.
    pose proof (normalize_props_outcome normalizeObject fields) as Hout.
    rewrite Hnorm in Hout. destruct Hout as (fields' & _ & Hreads).
    rewrite Forall_forall in IH, Hvalues. apply Forall_forall. intros [key v] Hin.
    specialize (IH _ Hin). specialize (Hvalues _ Hin). cbn in IH, Hvalues |- *.
    pose proof (fun e => Hreads key v e Hin Hnd) as Hread.
    destruct v as [| |b|k|s|[t|]|bytes|items|ser' fields'']; split;
      try discriminate; try constructor.
    + exfalso. now apply (Hread (Error "Invalid time value")).
    + cbn [normalize_value] in Hread.
      destruct (normalizeObject (JArray items)) as [v'|e] eqn:Hv.
      * specialize (IH v' Hvalues eq_refl). now inversion IH.
      * exfalso. now apply (Hread e).
    + cbn [normalize_value] in Hread.
      destruct (normalizeObject (JObject ser' fields'')) as [v'|e] eqn:Hv.
      * specialize (IH v' Hvalues eq_refl). now inversion IH.
      * exfalso. now apply (Hread e).
Qed.

(** How [hashJson] ends, by how [normalizeObject] ends. *)
Lemma hashJson_outcome v :
  match hashJson v with
  | Ok digest =>
      v <> JUndefined /\ String.length digest = 64%nat
      /\ exists n, normalizeObject v = Ok n
  | Throw e =>
      (v = JUndefined /\ e = Error "Cannot hash undefined value")
      \/ (normalizeObject v = Throw e /\ e = Error "Invalid time value")
  end.
Proof.
  assert (Hobject : typeof_object v = true -> v <> JNull ->
            match hashJson v with
            | Ok digest =>
                v <> JUndefined /\ String.length digest = 64%nat
                /\ exists n, normalizeObject v = Ok n
            | Throw e => normalizeObject v = Throw e /\ e = Error "Invalid time value"
            end).
  { intros Hobject Hnull.
    assert (Hhash : hashJson v
                    = res_bind (normalizeObject v) (fun n => sha256_text (stringify n))).
    { destruct v; try discriminate; try contradiction; reflexivity. }
    rewrite Hhash.
    destruct (normalizeObject v) as [n|e] eqn:Hn; cbn.
    - destruct (normalizeObject_has_text v n Hobject Hnull Hn) as [text ->]. cbn.
      split; [intros ->; discriminate|]. split; [apply length_sha256_bytes | eauto].
    - split; [reflexivity | now apply (normalizeObject_throws v)]. }
  destruct v as [| |b|k|s|t|bytes|items|ser fields];
    try (cbn; split; [discriminate|]; split; [apply length_sha256_bytes | eauto]);
    try (specialize (Hobject eq_refl ltac:(discriminate));
         destruct (hashJson _); [exact Hobject | now right]).
  left. split; reflexivity.
Qed.

(** X22. [hashJson] fails in two cases only.  For a payload whose objects
    have distinct property names, it returns a digest exactly when the
    payload is not [undefined] and no property of an object, at any depth,
    holds an invalid Date; the digest is sixty-four characters long. *)
Theorem hashJson_succeeds_exactly v :
  well_formed v ->
  (v <> JUndefined /\ date_properties_valid v <->
   exists digest, hashJson v = Ok digest)
  /\ (forall digest, hashJson v = Ok digest -> String.length digest = 64%nat)
  /\ (forall e, hashJson v = Throw e ->
                e = Error "Cannot hash undefined value"
                \/ e = Error "Invalid time value").
Proof.
  intros Hwf. pose proof (hashJson_outcome v) as Hout.
  split; [split|split].
  - intros [Hdefined Hvalid].
    destruct (normalizeObject_succeeds v Hvalid) as [n Hn].
    destruct (hashJson v) as [digest|e]; [eauto|].
    destruct Hout as [[-> _] | [Hthrows _]]; [contradiction | congruence].
  - intros [digest Hhash]. rewrite Hhash in Hout.
    destruct Hout as (Hdefined & _ & n & Hn).
    split; [exact Hdefined | exact (normalizeObject_succeeds_only v n Hwf Hn)].
  - intros digest Hhash. rewrite Hhash in Hout. apply Hout.
  - intros e Hhash. rewrite Hhash in Hout.
    destruct Hout as [[_ ->] | [_ ->]]; auto.
Qed.

(** X23. For a format that is a string or left [undefined], every error
    of [hashMessage] is wrapped: its message begins with
    ['Failed to hash message: '] and goes on with one of six causes.  A
    format other than ['json'] and ['protobuf'] always fails, with the
    format in the message. *)
Theorem hashMessage_errors message (given : option string) :
  let format := from_option JString JUndefined given in
  (forall e, hashMessage message format = Throw e ->
     exists cause,
       e = Error ("Failed to hash message: " +:+ cause)
       /\ (cause = "Cannot hash undefined value"
           \/ cause = "Invalid time value"
           \/ cause = "Cannot hash null or undefined Protobuf message"
           \/ cause = "Invalid Protobuf message: missing serializeBinary method"
           \/ (exists inner, cause = "Failed to serialize Protobuf message: " +:+ inner)
           \/ (exists f, given = Some f /\ f <> "json" /\ f <> "protobuf"
                         /\ cause = "Unsupported message format: " +:+ f)))
  /\ (forall f, given = Some f -> f <> "json" -> f <> "protobuf" ->
      hashMessage message format
      = Throw (Error ("Failed to hash message: Unsupported message format: " +:+ f))).
Proof.
  intros format.
  assert (Hjson : forall e0, hashJson message = Throw e0 ->
            error_message e0 = "Cannot hash undefined value"
            \/ error_message e0 = "Invalid time value").
  { intros e0 He0. pose proof (hashJson_outcome message) as Hout.
    rewrite He0 in Hout. destruct Hout as [[_ ->] | [_ ->]]; auto. }
  assert (Hproto : forall e0, hashProtobuf message = Throw e0 ->
            error_message e0 = "Cannot hash null or undefined Protobuf message"
            \/ error_message e0 = "Invalid Protobuf message: missing serializeBinary method"
            \/ exists inner,
                 error_message e0 = "Failed to serialize Protobuf message: " +:+ inner).
  { intros e0. unfold hashProtobuf.
    destruct (negb (truthy message)); [intros [= <-]; now left|].
    destruct (serializeBinary_method message) as [[binary|inner]|];
      [discriminate | | intros [= <-]; right; now left].
    cbn. intros [= <-]. right. right. now eexists. }
  assert (Hdefault : forall e, hashMessage message (JString "json") = Throw e ->
            exists cause,
              e = Error ("Failed to hash message: " +:+ cause)
              /\ (cause = "Cannot hash undefined value" \/ cause = "Invalid time value")).
  { intros e. unfold hashMessage. cbn [String.eqb].
    change (String.eqb "json" "json") with true. cbv iota.
    destruct (hashJson message) as [digest|e0] eqn:Hhash; [discriminate|].
    cbn. intros [= <-]. eexists. split; [reflexivity|]. now apply Hjson. }
  assert (Hother : forall f, f <> "json" -> f <> "protobuf" ->
            hashMessage message (JString f)
            = Throw (Error ("Failed to hash message: Unsupported message format: "
                            +:+ f))).
  { intros f Hnot_json Hnot_proto. unfold hashMessage.
    destruct (String.eqb_spec f "json") as [->|_]; [contradiction|].
    destruct (String.eqb_spec f "protobuf") as [->|_]; [contradiction|].
    reflexivity. }
  split.
  - intros e. destruct given as [f|]; cbn in format; unfold format.
    + destruct (String.eqb_spec f "json") as [->|Hnot_json].
      { intros Hthrow. destruct (Hdefault e Hthrow) as (cause & He & [Hc|Hc]).
        - exists cause. auto.
        - exists cause. auto. }
      destruct (String.eqb_spec f "protobuf") as [->|Hnot_proto].
      * unfold hashMessage. change (String.eqb "protobuf" "json") with false.
        change (String.eqb "protobuf" "protobuf") with true. cbv iota.
        destruct (hashProtobuf message) as [digest|e0] eqn:Hhash; [discriminate|].
        cbn. intros [= <-]. eexists. split; [reflexivity|].
        destruct (Hproto e0 eq_refl) as [-> | [-> | [inner ->]]]; eauto 10.
      * rewrite (Hother f Hnot_json Hnot_proto). intros [= <-].
        eexists. split; [reflexivity|]. do 5 right. now exists f.
    + change (hashMessage message JUndefined) with (hashMessage message (JString "json")).
      intros Hthrow. destruct (Hdefault e Hthrow) as (cause & He & [Hc|Hc]);
        exists cause; auto.
  - intros f -> Hnot_json Hnot_proto. now apply Hother.
Qed.
End HashOutcomes.

(** ** The normal form *)

Section NormalForm.

Import Payloads.

Lemma fold_left_skip {A B} (f : A -> B -> A) (P : B -> Prop)
    `{forall x, Decision (P x)} (l : list B) (a : A) :
  (forall a x, ~ P x -> f a x = a) ->
  fold_left f (filter P l) a = fold_left f l a.
Proof.
  intros Hskip. revert a. induction l as [|x l IH]; intros a; [reflexivity|].
  rewrite filter_cons. destruct (decide (P x)) as [Hx|Hx]; cbn.
  - apply IH.
  - rewrite (Hskip a x Hx). apply IH.
Qed.

Lemma fold_left_ext_in {A B} (f g : A -> B -> A) (l : list B) (a : A) :
  (forall a b, b ∈ l -> f a b = g a b) -> fold_left f l a = fold_left g l a.
Proof.
  revert a. induction l as [|b l IH]; intros a Hfg; [reflexivity|].
  cbn. rewrite (Hfg a b) by left. apply IH. intros a' b' Hin. apply Hfg. now right.
Qed.

Lemma StronglySorted_filter {A} (R : relation A) (P : A -> Prop)
    `{forall x, Decision (P x)} (l : list A) :
  StronglySorted R l -> StronglySorted R (filter P l).
Proof.
  induction 1 as [|x l Hsorted IH Hall]; [constructor|].
  rewrite filter_cons. destruct (decide (P x)); [|exact IH].
  constructor; [exact IH|].
  rewrite Forall_forall in Hall |- *. intros y Hy.
  apply list_elem_of_filter in Hy as [_ Hy]. now apply Hall.
Qed.

(** Sorting and leaving keys out commute. *)
Lemma sort_keys_filter (P : string -> Prop) `{forall x, Decision (P x)} keys :
  sort_keys (filter P keys) = filter P (sort_keys keys).
Proof.
  unfold sort_keys. apply (Sorted_unique String.le).
  - apply Sorted_merge_sort; apply _.
  - apply StronglySorted_Sorted, StronglySorted_filter.
    apply StronglySorted_merge_sort; apply _.
  - now rewrite !merge_sort_Permutation.
Qed.

Lemma sort_keys_sorted keys : sort_keys (sort_keys keys) = sort_keys keys.
Proof. apply sort_keys_permutation. unfold sort_keys. apply merge_sort_Permutation. Qed.

(** *** Assignments to the result object *)

Lemma get_field_None {A} key (fields : list (string * A)) :
  get_field key fields = None <-> key ∉ fields.*1.
Proof.
  induction fields as [|[k v] fields IH]; cbn.
  - split; [|reflexivity]. intros _ Hin. apply elem_of_nil in Hin. contradiction.
  - destruct (String.eqb_spec k key) as [->|Hne].
    + split; [discriminate|]. intros Hout. exfalso. apply Hout. left.
    + rewrite IH. split.
      * intros Hout [Heq|Hin]%elem_of_cons; [congruence | contradiction].
      * intros Hout Hin. apply Hout. now right.
Qed.

Lemma get_field_app {A} key (fields rest : list (string * A)) :
  get_field key (fields ++ rest)
  = match get_field key fields with
    | Some v => Some v
    | None => get_field key rest
    end.
Proof.
  induction fields as [|[k v] fields IH]; cbn; [reflexivity|].
  destruct (String.eqb k key); [reflexivity | exact IH].
Qed.

Lemma get_field_replace {A} key key' (v : A) fields :
  get_field key' (replace_field key v fields)
  = if String.eqb key key'
    then match get_field key fields with Some _ => Some v | None => None end
    else get_field key' fields.
Proof.
  induction fields as [|[k x] fields IH]; cbn.
  - now destruct (String.eqb key key').
  - destruct (String.eqb_spec k key) as [->|Hne]; cbn.
    + destruct (String.eqb_spec key key') as [->|Hne']; [reflexivity|].
      reflexivity.
    + rewrite IH. destruct (String.eqb_spec key key') as [<-|Hne'].
      * destruct (String.eqb_spec k key); [contradiction | reflexivity].
      * reflexivity.
Qed.

Lemma get_field_insert_index {A} n key key' (v : A) fields :
  array_index key = Some n ->
  get_field key' (insert_index n key v fields)
  = if String.eqb key key' then Some v else get_field key' fields.
Proof.
  intros Hindex. induction fields as [|[k x] fields IH]; cbn; [reflexivity|].
  destruct (array_index k) as [m|] eqn:Hk; [destruct (N.ltb_spec m n) as [Hlt|Hge]|];
    cbn; try reflexivity.
  rewrite IH. destruct (String.eqb_spec k key') as [->|Hne]; [|reflexivity].
  destruct (String.eqb_spec key key') as [->|]; [|reflexivity].
  rewrite Hindex in Hk. inversion Hk. lia.
Qed.

Lemma get_field_set_field {A} key key' (v : A) fields :
  get_field key' (set_field key v fields)
  = if String.eqb key key' then Some v else get_field key' fields.
Proof.
  unfold set_field, has_field.
  destruct (get_field key fields) as [x|] eqn:Hget.
  - rewrite get_field_replace, Hget. reflexivity.
  - destruct (array_index key) as [n|] eqn:Hindex.
    + now apply get_field_insert_index.
    + rewrite get_field_app. cbn.
      destruct (String.eqb_spec key key') as [<-|Hne].
      * now rewrite Hget.
      * now destruct (get_field key' fields).
Qed.

Lemma insert_index_Permutation {A} n key (v : A) fields :
  insert_index n key v fields ≡ₚ (key, v) :: fields.
Proof.
  induction fields as [|[k x] fields IH]; cbn; [reflexivity|].
  destruct (array_index k) as [m|]; [destruct (m <? n)%N|]; try reflexivity.
  rewrite IH. apply Permutation_swap.
Qed.

Lemma set_field_keys {A} key (v : A) fields :
  get_field key fields = None ->
  (set_field key v fields).*1 ≡ₚ key :: fields.*1.
Proof.
  intros Hnew. unfold set_field, has_field. rewrite Hnew.
  destruct (array_index key) as [n|].
  - now rewrite insert_index_Permutation.
  - rewrite fmap_app. cbn. now rewrite Permutation_app_comm.
Qed.

(** *** The loop as a sequence of assignments *)

Local Abbreviation turn recur props :=
  (fun (result : Res (list (string * JSValue))) (key : string) =>
     res_bind result (fun fields =>
       match get_with (normalize_value recur) key props with
       | Some step =>
           res_bind step (fun assigned =>
             match assigned with
             | Some v => Ok (set_field key v fields)
             | None => Ok fields
             end)
       | None => Ok fields
       end)).

(** What the loop assigns for a key, if anything. *)
Local Abbreviation assigned recur props :=
  (fun key : string =>
     match get_with (normalize_value recur) key props with
     | Some (Ok (Some v)) => Some v
     | _ => None
     end).

Local Abbreviation build a :=
  (fun (fields : list (string * JSValue)) (key : string) =>
     match a key : option JSValue with
     | Some v => set_field key v fields
     | None => fields
     end).

Lemma loop_pure recur props keys acc :
  (forall key e, key ∈ keys ->
     get_with (normalize_value recur) key props <> Some (Throw e)) ->
  fold_left (turn recur props) keys (Ok acc)
  = Ok (fold_left (build (assigned recur props)) keys acc).
Proof.
  revert acc. induction keys as [|key keys IH]; intros acc Hreads; [reflexivity|].
  cbn [fold_left res_bind].
  assert (Hrest : forall key' e, key' ∈ keys ->
            get_with (normalize_value recur) key' props <> Some (Throw e)).
  { intros key' e Hin. apply Hreads. now right. }
  destruct (get_with (normalize_value recur) key props) as [[[v|]|e]|] eqn:Hread;
    cbn [res_bind]; try (now apply IH).
  exfalso. apply (Hreads key e); [left | exact Hread].
Qed.

Lemma build_spec (a : string -> option JSValue) keys acc :
  NoDup keys ->
  (forall key, key ∈ keys -> get_field key acc = None) ->
  (forall key,
     get_field key (fold_left (build a) keys acc)
     = if decide (key ∈ keys) then a key else get_field key acc)
  /\ (fold_left (build a) keys acc).*1
     ≡ₚ acc.*1 ++ filter (fun key => is_Some (a key)) keys.
Proof.
  revert acc. induction keys as [|k0 keys IH]; intros acc Hnd Hfresh.
  - cbn. split; [reflexivity|]. now rewrite app_nil_r.
  - apply NoDup_cons in Hnd as [Hk0 Hnd]. cbn [fold_left].
    assert (Hother : forall key, key <> k0 ->
              get_field key (build a acc k0) = get_field key acc).
    { intros key Hne. destruct (a k0) as [v|]; [|reflexivity].
      rewrite get_field_set_field.
      destruct (String.eqb_spec k0 key); [congruence | reflexivity]. }
    assert (Hsame : get_field k0 (build a acc k0) = a k0).
    { destruct (a k0) as [v|].
      - rewrite get_field_set_field. now rewrite String.eqb_refl.
      - apply Hfresh. left. }
    destruct (IH (build a acc k0) Hnd) as [Hget Hkeys].
    { intros key Hin. rewrite Hother; [apply Hfresh; now right|].
      intros ->. contradiction. }
    split.
    + intros key. rewrite Hget.
      destruct (decide (key ∈ keys)) as [Hin|Hout].
      * rewrite decide_True by now right. reflexivity.
      * destruct (decide (key = k0)) as [->|Hne].
        -- rewrite decide_True by left. exact Hsame.
        -- rewrite decide_False; [now apply Hother|].
           intros [Heq|Hin]%elem_of_cons; contradiction.
    + rewrite Hkeys, filter_cons.
      destruct (a k0) as [v|] eqn:Ha.
      * rewrite decide_True by eauto.
        rewrite (set_field_keys k0 v acc) by (apply Hfresh; left).
        cbn. apply Permutation_middle.
      * rewrite decide_False; [reflexivity|]. intros [v Hv]. discriminate.
Qed.

(** Normalizing the result of the loop gives it back, when what the loop
    assigned is itself kept as it is by the loop. *)
Lemma normalize_props_fixed recur props n :
  NoDup props.*1 ->
  normalize_props recur props = Ok n ->
  (forall key v v',
     (key, v) ∈ props -> normalize_value recur v = Ok (Some v') ->
     normalize_value normalizeObject v' = Ok (Some v')) ->
  normalizeObject n = Ok n.
Proof.
  intros Hnd Hnorm Hkept. unfold normalize_props, normalize_loop in Hnorm.
  set (keys := sort_keys (map fst props)) in *.
  assert (Hkeys : NoDup keys).
  { unfold keys, sort_keys. now rewrite merge_sort_Permutation. }
  pose proof (loop_outcome recur props keys []) as Hreads.
  destruct (fold_left (turn recur props) keys (Ok [])) as [fields|e] eqn:Hloop;
    [|discriminate].
  cbn in Hnorm. injection Hnorm as <-.
  rewrite loop_pure in Hloop by exact Hreads. injection Hloop as Hfields0.
  pose (a := assigned recur props).
  assert (Hfields : fold_left (build a) keys [] = fields) by exact Hfields0.
  clear Hfields0.
  destruct (build_spec a keys [] Hkeys (fun _ _ => eq_refl)) as [Hget Hnames].
  rewrite Hfields in Hget, Hnames. cbn [fmap list_fmap app] in Hnames.
  change (normalizeObject (obj fields)) with (normalize_props normalizeObject fields).
  unfold normalize_props, normalize_loop.
  assert (Hsorted : sort_keys (map fst fields)
                    = filter (fun key => is_Some (a key)) keys).
  { rewrite (sort_keys_permutation (map fst fields) _ Hnames), sort_keys_filter.
    unfold keys. now rewrite sort_keys_sorted. }
  rewrite Hsorted.
  assert (Hagain : forall key v',
            key ∈ keys -> a key = Some v' ->
            get_with (normalize_value normalizeObject) key fields = Some (Ok (Some v'))).
  { intros key v' Hin Ha. rewrite get_with_get_field, Hget, decide_True by exact Hin.
    rewrite Ha. cbn. f_equal. unfold a in Ha.
    destruct (get_with (normalize_value recur) key props) as [[[v0|]|e]|] eqn:Hread;
      try discriminate.
    inversion Ha; subst v0.
    apply get_with_read in Hread as (v & Hv & Hstep).
    now apply (Hkept key v). }
  rewrite loop_pure.
  - cbn [res_bind]. do 2 f_equal. etransitivity; [|exact Hfields].
    rewrite <- (fold_left_skip (build a) (fun key => is_Some (a key)) keys []).
    + apply fold_left_ext_in. intros acc key Hin.
      apply list_elem_of_filter in Hin as [[v' Ha] Hin].
      now rewrite (Hagain key v' Hin Ha), Ha.
    + intros acc key Hnone. destruct (a key) as [v'|] eqn:Ha; [|reflexivity].
      exfalso. apply Hnone. eauto.
  - intros key e Hin. apply list_elem_of_filter in Hin as [[v' Ha] Hin].
    now rewrite (Hagain key v' Hin Ha).
Qed.

Lemma buffer_props_NoDup bytes : NoDup (buffer_props bytes).*1.
Proof.
  apply NoDup_alt. intros i j key Hi Hj.
  rewrite list_lookup_fmap in Hi, Hj. unfold buffer_props in Hi, Hj.
  rewrite list_lookup_imap in Hi, Hj.
  destruct (bytes !! i) as [x|]; [|discriminate].
  destruct (bytes !! j) as [y|]; [|discriminate].
  cbn in Hi, Hj. inversion Hi as [Hki]. inversion Hj as [Hkj].
  rewrite <- Hkj in Hki. apply (inj pretty) in Hki. lia.
Qed.

Lemma map_items_fixed (f : JSValue -> Res JSValue) vs :
  Forall (fun v => f v = Ok v) vs -> map_items f vs = Ok vs.
Proof.
  induction 1 as [|v vs Hv _ IH]; cbn; [reflexivity|].
  now rewrite Hv, IH.
Qed.

Lemma normalizeObject_fixed v :
  forall n, well_formed v -> normalizeObject v = Ok n -> normalizeObject n = Ok n.
Proof.
  induction v as [| |b|k|s|t|bytes|items IH|ser fields IH] using JSValue_nested_ind;
    intros n Hwf Hnorm; try (injection Hnorm as <-; reflexivity).
  - (* a Buffer: the loop meets numbers only *)
    change (normalizeObject (JBuffer bytes))
      with (normalize_props (fun v => Ok v) (buffer_props bytes)) in Hnorm.
    apply (normalize_props_fixed _ _ _ (buffer_props_NoDup bytes) Hnorm).
    intros key v v' Hin Hstep.
    unfold buffer_props in Hin. apply elem_of_lookup_imap in Hin as (i & x & Heq & _).
    inversion Heq; subst. cbn in Hstep. now inversion Hstep.
  - (* an array *)
    inversion Hwf as [| | | | | | |? Hitems|]; subst.
    cbn in Hnorm. pose proof (map_items_outcome normalizeObject items) as Hout.
    destruct (map_items normalizeObject items) as [vs|e]; [|discriminate].
    cbn in Hnorm. injection Hnorm as <-.
    cbn. rewrite map_items_fixed; [reflexivity|].
    rewrite Forall_forall in IH, Hitems. apply Forall_forall. intros v Hv.
    apply list_elem_of_lookup in Hv as [i Hi].
    destruct (Forall2_lookup_r _ _ _ _ _ Hout Hi) as (item & Hitem & Hv).
    apply list_elem_of_lookup_2 in Hitem.
    exact (IH item Hitem v (Hitems item Hitem) Hv).
  - (* any other object *)
    inversion Hwf as [| | | | | | | |? ? Hnd Hvalues]; subst.
    change (normalizeObject (JObject ser fields))
      with (normalize_props normalizeObject fields) in Hnorm.
    apply (normalize_props_fixed _ _ _ Hnd Hnorm).
    intros key v v' Hin Hstep.
    rewrite Forall_forall in IH, Hvalues.
    specialize (IH _ Hin). specialize (Hvalues _ Hin). cbn in IH, Hvalues.
    destruct v as [| |b|k|s|[t|]|bytes|items|ser' fields']; cbn in Hstep;
      try discriminate; try (injection Hstep as <-; reflexivity).
    + destruct (map_items normalizeObject items) as [vs|e] eqn:Hitems; [|discriminate].
      cbn in Hstep. injection Hstep as <-.
      assert (Hv : normalizeObject (JArray items) = Ok (JArray vs)).
      { cbn. now rewrite Hitems. }
      specialize (IH (JArray vs) Hvalues Hv).
      change (normalize_value normalizeObject (JArray vs))
        with (res_bind (normalizeObject (JArray vs)) (fun v => Ok (Some v))).
      now rewrite IH.
    + change (normalize_props normalizeObject fields')
        with (normalizeObject (JObject ser' fields')) in Hstep.
      destruct (normalizeObject (JObject ser' fields')) as [n'|e] eqn:Hn'; [|discriminate].
      cbn in Hstep. injection Hstep as <-.
      pose proof (normalize_props_outcome normalizeObject fields') as Hshape.
      change (normalize_props normalizeObject fields')
        with (normalizeObject (JObject ser' fields')) in Hshape.
      rewrite Hn' in Hshape. destruct Hshape as (fields'' & -> & _).
      specialize (IH _ Hvalues eq_refl).
      change (normalize_value normalizeObject (obj fields''))
        with (res_bind (normalizeObject (obj fields'')) (fun v => Ok (Some v))).
      now rewrite IH.
Qed.

(** X24. Normalizing is idempotent: for a payload whose objects have
    distinct property names, the normal form is its own normal form, and
    hashing it gives the digest of the payload. *)
Theorem normalizeObject_idempotent v n :
  well_formed v ->
  normalizeObject v = Ok n ->
  normalizeObject n = Ok n /\ hashJson n = hashJson v.
Proof.
  intros Hwf Hnorm.
  pose proof (normalizeObject_fixed v n Hwf Hnorm) as Hfixed.
  split; [exact Hfixed|].
  assert (Hobject : forall x, typeof_object x = true -> x <> JNull ->
            hashJson x = res_bind (normalizeObject x) (fun y => sha256_text (stringify y))).
  { intros x Hx Hnull. destruct x; try discriminate; try contradiction; reflexivity. }
  assert (Hshape : typeof_object v = true -> v <> JNull ->
            typeof_object n = true /\ n <> JNull).
  { intros Hv Hnull.
    assert (Hprops : forall recur props,
              normalize_props recur props = Ok n -> typeof_object n = true /\ n <> JNull).
    { intros recur props Hn.
      pose proof (normalize_props_outcome recur props) as Hout. rewrite Hn in Hout.
      destruct Hout as (fields & -> & _). now split. }
    destruct v as [| |b|k|s|t|bytes|items|ser fields]; try discriminate; try contradiction.
    - now apply (Hprops (fun v => Ok v) []).
    - now apply (Hprops (fun v => Ok v) (buffer_props bytes)).
    - cbn in Hnorm. destruct (map_items normalizeObject items); [|discriminate].
      cbn in Hnorm. injection Hnorm as <-. now split.
    - now apply (Hprops normalizeObject fields). }
  destruct (typeof_object v) eqn:Hv.
  - assert (Hcases : v = JNull \/ v <> JNull).
    { destruct v; try (now left); right; discriminate. }
    destruct Hcases as [->|Hnull].
    + injection Hnorm as <-. reflexivity.
    + destruct (Hshape eq_refl Hnull) as [Hn Hnnull].
      rewrite (Hobject v Hv Hnull), (Hobject n Hn Hnnull), Hnorm, Hfixed. reflexivity.
  - destruct v; try discriminate; injection Hnorm as <-; reflexivity.
Qed.

(** *** Properties that hold [undefined] *)

Local Abbreviation holds fields :=
  (fun key : string =>
     Is_true match get_field key fields with
             | Some JUndefined | None => false
             | Some _ => true
             end).

Lemma filter_ext_in {A} (P Q : A -> Prop) `{forall x, Decision (P x)}
    `{forall x, Decision (Q x)} (l : list A) :
  (forall x, x ∈ l -> P x <-> Q x) -> filter P l = filter Q l.
Proof.
  induction l as [|x l IH]; intros HPQ; [reflexivity|].
  rewrite !filter_cons, IH by (intros y Hy; apply HPQ; now right).
  destruct (decide (P x)) as [HP|HP], (decide (Q x)) as [HQ|HQ]; try reflexivity.
  - exfalso. apply HQ, (HPQ x); [left | exact HP].
  - exfalso. apply HP, (HPQ x); [left | exact HQ].
Qed.

Lemma defined_fields_keys f (fields : list (string * JSValue)) :
  NoDup fields.*1 ->
  (defined_fields f fields).*1 = filter (holds fields) fields.*1.
Proof.
  induction fields as [|[k x] fields IH]; intros Hnd; [reflexivity|].
  apply NoDup_cons in Hnd as [Hfresh Hnd].
  assert (Hrest : filter (holds ((k, x) :: fields)) fields.*1
                  = filter (holds fields) fields.*1).
  { apply filter_ext_in. intros key Hin. cbn.
    destruct (String.eqb_spec k key) as [->|]; [contradiction | reflexivity]. }
  cbn [fmap list_fmap fst]. rewrite filter_cons, Hrest, <- IH by exact Hnd.
  cbn [get_field]. rewrite String.eqb_refl.
  destruct x; reflexivity.
Qed.

Lemma get_field_defined_fields f key (fields : list (string * JSValue)) :
  NoDup fields.*1 ->
  get_field key (defined_fields f fields)
  = match get_field key fields with
    | Some JUndefined | None => None
    | Some v => Some (f v)
    end.
Proof.
  induction fields as [|[k x] fields IH]; intros Hnd; [reflexivity|].
  apply NoDup_cons in Hnd as [Hfresh Hnd]. specialize (IH Hnd).
  assert (Hskip : k = key -> get_field key (defined_fields f fields) = None).
  { intros ->. rewrite IH.
    apply (get_field_None key fields) in Hfresh. now rewrite Hfresh. }
  destruct x; cbn; destruct (String.eqb_spec k key) as [Heq|Hne];
    try reflexivity; try exact IH.
  now apply Hskip.
Qed.

Lemma normalizeObject_without_undefined v :
  well_formed v -> normalizeObject (without_undefined v) = normalizeObject v.
Proof.
  induction v as [| |b|k|s|t|bytes|items IH|ser fields IH] using JSValue_nested_ind;
    intros Hwf; try reflexivity.
  - inversion Hwf as [| | | | | | |? Hitems|]; subst.
    cbn. f_equal. apply map_items_ext. apply Forall2_fmap_l, Forall_Forall2_diag.
    rewrite Forall_forall in IH, Hitems |- *. intros item Hin.
    exact (IH item Hin (Hitems item Hin)).
  - inversion Hwf as [| | | | | | | |? ? Hnd Hvalues]; subst.
    change (normalize_props normalizeObject (defined_fields without_undefined fields)
            = normalize_props normalizeObject fields).
    unfold normalize_props, normalize_loop. f_equal.
    change (map fst (defined_fields without_undefined fields))
      with ((defined_fields without_undefined fields).*1).
    change (map fst fields) with (fields.*1).
    rewrite (defined_fields_keys _ _ Hnd), sort_keys_filter.
    rewrite <- (fold_left_skip (turn normalizeObject fields) (holds fields)
                  (sort_keys fields.*1)).
    + apply fold_left_ext_in. intros result key Hin.
      apply list_elem_of_filter in Hin as [Hholds _].
      rewrite !get_with_get_field, (get_field_defined_fields _ _ _ Hnd).
      destruct (get_field key fields) as [v|] eqn:Hget; [|contradiction].
      apply get_field_elem_of in Hget.
      rewrite Forall_forall in IH, Hvalues.
      specialize (IH _ Hget (Hvalues _ Hget)). cbn in IH.
      destruct v as [| |b|k|s|t|bytes|items|ser' fields']; try contradiction;
        try reflexivity.
      * cbn [fmap option_fmap option_map].
        change (normalize_value normalizeObject (without_undefined (JArray items)))
          with (res_bind (normalizeObject (without_undefined (JArray items)))
                         (fun v => Ok (Some v))).
        now rewrite IH.
      * cbn [fmap option_fmap option_map].
        change (normalize_value normalizeObject (without_undefined (JObject ser' fields')))
          with (res_bind (normalizeObject (without_undefined (JObject ser' fields')))
                         (fun v => Ok (Some v))).
        now rewrite IH.
    + intros result key Hnot. rewrite get_with_get_field.
      destruct (get_field key fields) as [[]|]; cbn in Hnot |- *;
        try (exfalso; now apply Hnot); now destruct result.
Qed.

(** X25. A property that holds [undefined] does not count: for a payload
    whose objects have distinct property names, leaving such properties
    out, at any depth, changes neither the normal form nor the digest. *)
Theorem undefined_properties_do_not_count v :
  well_formed v ->
  normalizeObject (without_undefined v) = normalizeObject v
  /\ hashJson (without_undefined v) = hashJson v.
Proof.
  intros Hwf. pose proof (normalizeObject_without_undefined v Hwf) as Hnorm.
  split; [exact Hnorm|].
  destruct v as [| |b|k|s|t|bytes|items|ser fields]; try reflexivity.
  - change (res_bind (normalizeObject (without_undefined (JArray items)))
                     (fun n => sha256_text (stringify n))
            = res_bind (normalizeObject (JArray items))
                       (fun n => sha256_text (stringify n))).
    now rewrite Hnorm.
  - change (res_bind (normalizeObject (without_undefined (JObject ser fields)))
                     (fun n => sha256_text (stringify n))
            = res_bind (normalizeObject (JObject ser fields))
                       (fun n => sha256_text (stringify n))).
    now rewrite Hnorm.
Qed.

End NormalForm.

(** ** What [set] sends *)

Section RedisWrites.
Context {C : Type} `{RedisCache.RedisClient C}.
Variable options : Options.

Import RedisCache.

(** X26. A valid [set] on a connected instance sends one write: the cache
    key, the value ['1'] and a TTL in whole seconds, the requested TTL
    rounded down, and one second when less than a second was requested.
    The outcome of the write is the outcome of [set]. *)
Theorem redis_set_whole_seconds key ttl (s : State C) :
  key <> "" -> (0 < ttl)%Q -> isConnected s = true ->
  exists cacheKey seconds,
    getKey options key = Ok cacheKey
    /\ 1 <= seconds
    /\ ((1 <= ttl)%Q -> (inject_Z seconds <= ttl < inject_Z seconds + 1)%Q)
    /\ ((ttl < 1)%Q -> seconds = 1)
    /\ set options key ttl s
       = (let '(outcome, c) := set_ex cacheKey "1" seconds (client s) in
          (outcome, {| client := c; isConnected := true |})).
Proof.
  intros Hkey Httl Hup.
  exists (collapse_colons false (prefix options +:+ key)), (Z.max 1 (Qfloor ttl)).
  split; [now apply getKey_nonempty|]. split; [lia|].
  pose proof (Qfloor_le ttl) as Hbelow. pose proof (Qlt_floor ttl) as Habove.
  split; [|split].
  - intros Hone.
    assert (Hfloor : 1 <= Qfloor ttl).
    { change 1 with (Qfloor 1). now apply Qfloor_resp_le. }
    rewrite Z.max_r by exact Hfloor.
    split; [exact Hbelow|]. rewrite inject_Z_plus in Habove. exact Habove.
  - intros Hsmall.
    assert (Hfloor : Qfloor ttl < 1).
    { rewrite Zlt_Qlt. eapply Qle_lt_trans; [exact Hbelow | exact Hsmall]. }
    lia.
  - rewrite set_accepts by assumption.
    destruct s as [c0 connected]. cbn in Hup. subst connected.
    unfold bind, gets, ret, lift, try_catch, call, throw.
    rewrite getKey_nonempty by assumption. cbn.
    destruct (set_ex _ _ _ c0) as [[[]|e] c]; reflexivity.
Qed.
End RedisWrites.

(** ** The earlier networked cache *)

Section Legacy.
Context {C : Type} `{RedisCache.RedisClient C}.
Variable legacy : RedisCacheLegacy.Settings.
Variable options : Options.

Import RedisCacheLegacy.

Lemma try_catch_rethrow {S A} (body : M S A) (s : S) :
  try_catch body (fun error => throw error) s = body s.
Proof. unfold try_catch, throw. now destruct (body s) as [[a|e] s1]. Qed.

(** X27. The earlier networked cache hands every key and TTL to the
    client as they come (no validation, no connection guard, the prefix
    put in front as it is), and what the client answers or throws is what
    [set], [delete] and [disconnect] answer or throw; only [has] turns a
    failure into [false].  So over this cache a failed [delete] does reach
    the caller of [removeFromCache]. *)
Theorem legacy_failures_reach_caller key ttl (c : C) :
  set legacy key ttl c
  = RedisCache.set_ex (prefix legacy +:+ key) "1" (Z.max 1 (Qfloor ttl)) c
  /\ delete legacy key c
     = (let '(outcome, c1) := RedisCache.del [prefix legacy +:+ key] c in
        (match outcome with Ok _ => Ok tt | Throw e => Throw e end, c1))
  /\ disconnect c = RedisCache.quit c
  /\ has legacy key c
     = (let '(outcome, c1) := RedisCache.exists_ (prefix legacy +:+ key) c in
        (match outcome with Ok n => Ok (n =? 1) | Throw _ => Ok false end, c1))
  /\ (forall events c1 e,
        RedisCache.scanStream (prefix legacy +:+ "*") 100 c = (events, c1) ->
        RedisCache.failure events = Some e ->
        clear legacy c = (Throw e, c1))
  /\ (forall message e c1,
        Deduplicator.getCacheKey options (Deduplicator.normalizeMessage message) = Ok key ->
        RedisCache.del [prefix legacy +:+ key] c = (Throw e, c1) ->
        @Deduplicator.removeFromCache C (legacy_cache legacy) options message c
        = (Throw e, c1)).
Proof.
  assert (Hdelete : delete legacy key c
            = (let '(outcome, c1) := RedisCache.del [prefix legacy +:+ key] c in
               (match outcome with Ok _ => Ok tt | Throw e => Throw e end, c1))).
  { unfold delete. rewrite try_catch_rethrow. unfold bind, ret, getKey.
    now destruct (RedisCache.del _ c) as [[n|e] c1]. }
  repeat apply conj.
  - unfold set. apply try_catch_rethrow.
  - exact Hdelete.
  - unfold disconnect. apply try_catch_rethrow.
  - unfold has, try_catch, bind, ret, getKey.
    now destruct (RedisCache.exists_ _ c) as [[n|e] c1].
  - intros events c1 e Hscan Hfailure. unfold clear. rewrite try_catch_rethrow.
    rewrite Hscan, Hfailure. reflexivity.
  - intros message e c1 Hkey Hdel.
    apply (@removeFromCache_propagates C (legacy_cache legacy) options message key e c c1 Hkey).
    cbn [Base.delete legacy_cache]. rewrite Hdelete, Hdel. reflexivity.
Qed.
End Legacy.

(** ** Defaults of the factories *)

Section Factories.

Import Construction Deduplicator.

Lemma getCacheKey_namespace options message key :
  getCacheKey options message = Ok key ->
  String.prefix (namespace options +:+ ":") key = true.
Proof.
  assert (Hprefix : forall p rest, String.prefix p (p +:+ rest) = true).
  { induction p as [|a p IH]; intros rest; [now destruct rest|].
    change (String.prefix (String a p) (String a (p +:+ rest)) = true).
    cbn [String.prefix]. destruct (ascii_dec a a); [apply IH | contradiction]. }
  assert (Hassoc : forall p q r : string, p +:+ q +:+ r = (p +:+ q) +:+ r).
  { induction p as [|a p IH]; intros q r; [reflexivity|].
    change (String a (p +:+ q +:+ r) = String a ((p +:+ q) +:+ r)). now rewrite IH. }
  unfold getCacheKey. destruct (truthy _).
  - intros [= <-]. rewrite Hassoc. apply Hprefix.
  - destruct (hashMessage _ _) as [hash|e]; cbn [res_bind]; [|discriminate].
    intros [= <-]. rewrite Hassoc. apply Hprefix.
Qed.

(** X28. The two factories do not agree on the defaults.  Called without
    a namespace and without a TTL, [createMemoryDeduplicator] derives keys
    under ['ts-dedup'] and stores them for 300 seconds, while
    [createRedisDeduplicator] writes both options as [undefined] over the
    defaults: its keys begin with ['undefined:'], and the TTL is left to
    the default of the cache. *)
Theorem factories_disagree_on_defaults supplied defaultTtl message :
  namespace_supplied supplied = Absent ->
  ttl_supplied supplied = Absent ->
  let memory := in_use defaultTtl (createMemoryDeduplicator supplied) in
  let redis := in_use defaultTtl (createRedisDeduplicator supplied) in
  (namespace memory = "ts-dedup" /\ ttl memory = 300%Q)
  /\ (namespace redis = "undefined" /\ ttl redis = defaultTtl)
  /\ (forall key, getCacheKey memory (normalizeMessage message) = Ok key ->
                  String.prefix "ts-dedup:" key = true)
  /\ (forall key, getCacheKey redis (normalizeMessage message) = Ok key ->
                  String.prefix "undefined:" key = true).
Proof.
  intros Hnamespace Httl memory redis.
  assert (Hmemory : namespace memory = "ts-dedup" /\ ttl memory = 300%Q).
  { unfold memory, createMemoryDeduplicator, constructor, in_use. cbn.
    now rewrite Hnamespace, Httl. }
  assert (Hredis : namespace redis = "undefined" /\ ttl redis = defaultTtl).
  { unfold redis, createRedisDeduplicator, constructor, in_use. cbn.
    now rewrite Hnamespace, Httl. }
  split; [exact Hmemory|]. split; [exact Hredis|]. split.
  - intros key Hkey. apply getCacheKey_namespace in Hkey.
    now rewrite (proj1 Hmemory) in Hkey.
  - intros key Hkey. apply getCacheKey_namespace in Hkey.
    now rewrite (proj1 Hredis) in Hkey.
Qed.
End Factories.

(** ** Protobuf messages *)

Section Protobuf.
Variable options : Options.

Import Deduplicator.

Local Arguments Crypto.sha256_bytes : simpl never.

(** X29. A Protobuf message is identified by its serialization alone: the
    digest is that of the bytes [serializeBinary] returns, whatever own
    properties the message object has, and so is the cache key of an
    envelope of format ['protobuf']; a throw of [serializeBinary] is
    reported with its message. *)
Theorem hashProtobuf_digests_serialization bytes fields :
  has_field "serializeBinary" fields = false ->
  let message := JObject (Some (Ok bytes)) fields in
  hashProtobuf message = Ok (Crypto.sha256_bytes bytes)
  /\ hashMessage message (JString "protobuf") = Ok (Crypto.sha256_bytes bytes)
  /\ getCacheKey options
       (normalizeMessage (obj [("payload", message); ("format", JString "protobuf")]))
     = Ok (namespace options +:+ ":" +:+ Crypto.sha256_bytes bytes)
  /\ String.length (Crypto.sha256_bytes bytes) = 64%nat
  /\ forall e,
       hashProtobuf (JObject (Some (Throw e)) fields)
       = Throw (Error ("Failed to serialize Protobuf message: " +:+ error_message e)).
Proof.
  intros Hown message.
  assert (Hproto : hashProtobuf message = Ok (Crypto.sha256_bytes bytes)).
  { unfold hashProtobuf, message, serializeBinary_method. cbn [truthy negb].
    now rewrite Hown. }
  assert (Hmessage : hashMessage message (JString "protobuf")
                     = Ok (Crypto.sha256_bytes bytes)).
  { unfold hashMessage. cbn [String.eqb Ascii.eqb Bool.eqb]. now rewrite Hproto. }
  split; [exact Hproto|]. split; [exact Hmessage|]. split; [|split].
  - unfold normalizeMessage, getCacheKey.
    cbn [is_envelope truthy typeof_object has_payload has_field get_field String.eqb
         Ascii.eqb Bool.eqb andb property default].
    unfold id. fold message. now rewrite Hmessage.
  - apply length_sha256_bytes.
  - intros e. unfold hashProtobuf, serializeBinary_method. cbn [truthy negb].
    now rewrite Hown.
Qed.
End Protobuf.

(** ** The empty key *)

Section EmptyKey.
Context {C : Type} `{RedisCache.RedisClient C}.
Variable options : Options.

Import RedisCache.

(** X30. The empty key never reaches the client of the networked cache:
    [has] and [deleteWithResult] answer [false], [delete] returns, and
    [set] throws ['Cache key cannot be empty'], each leaving the instance
    and its client as they were. *)
Theorem redis_empty_key_never_sent ttl (s : State C) :
  has options "" s = (Ok false, s)
  /\ delete options "" s = (Ok tt, s)
  /\ deleteWithResult options "" s = (Ok false, s)
  /\ set options "" ttl s = (Throw (Error "Cache key cannot be empty"), s).
Proof.
  split; [|split; [|split]].
  - unfold has, bind, gets, ret, lift, try_catch. now destruct (isConnected s).
  - reflexivity.
  - reflexivity.
  - reflexivity.
Qed.
End EmptyKey.

(** * Further concrete runs *)

Import Scenarios.

Lemma two_entries_reachable : MemoryCache.reachable defaults two_entries.
Proof.
  unfold two_entries. do 2 apply MemoryCache.reach_set. apply MemoryCache.reach_new.
Defined.

(** X4 on the keys ["a"] and ["b"] of a cache that holds both. *)
Lemma memory_keys_independent_witness :
  (MemoryCache.has defaults "a" (MemoryCache.set defaults "b" 5 two_entries).2).1
  = (MemoryCache.has defaults "a" two_entries).1
  /\ (MemoryCache.has defaults "a" (MemoryCache.delete defaults "b" two_entries).2).1
     = (MemoryCache.has defaults "a" two_entries).1
  /\ (MemoryCache.has defaults "a" (MemoryCache.has defaults "b" two_entries).2).1
     = (MemoryCache.has defaults "a" two_entries).1.
Proof.
  apply (memory_keys_independent defaults "a" "b" 5 two_entries). discriminate.
Defined.

(** X5 on that cache. *)
Lemma memory_one_timer_per_entry_witness :
  length (MemoryCache.timers two_entries) = size (MemoryCache.cache two_entries).
Proof.
  apply (memory_one_timer_per_entry defaults two_entries), two_entries_reachable.
Defined.


(** X8: the message [{id: "1"}] stored at instant 0 for five minutes and
    submitted again one millisecond after they are over. *)
Lemma duplicate_window_closes_witness :
  exists s3,
    @isDuplicate _ (MemoryCache.memory_cache defaults) defaults message_1
      (MemoryCache.tick 300001 one_entry) = (Ok false, s3).
Proof.
  destruct (duplicate_window_closes defaults defaults message_1 key_1 one_entry
              (MemoryCache.tick 300001 one_entry) entry_1) as (s3 & Hnew & _).
  - vm_compute. reflexivity.
  - vm_compute. reflexivity.
  - apply rtc_once, MemoryCache.meanwhile_runtime, MemoryCache.step_tick.
    vm_compute. discriminate.
  - vm_compute. reflexivity.
  - exists s3. exact Hnew.
Defined.

(** X9 on the same message and cache. *)
Lemma removeFromCache_allows_reprocessing_witness :
  (@isDuplicate _ (MemoryCache.memory_cache defaults) defaults message_1
     (@removeFromCache _ (MemoryCache.memory_cache defaults) defaults message_1
        one_entry).2).1
  = Ok false.
Proof.
  apply (removeFromCache_allows_reprocessing defaults defaults message_1 key_1 one_entry).
  vm_compute. reflexivity.
Defined.

(** X11 with a processor that returns its argument. *)
Lemma process_once_then_skip_witness :
  exists s1,
    @processIfNotDuplicate _ (MemoryCache.memory_cache defaults) defaults JSValue
      message_1 (fun payload => ret payload) (MemoryCache.empty 0)
    = (Ok {| result := Some message_1; duplicate := false |}, s1)
    /\ @processIfNotDuplicate _ (MemoryCache.memory_cache defaults) defaults JSValue
         message_1 (fun payload => ret payload) s1
       = (Ok {| result := None; duplicate := true |}, s1).
Proof.
  destruct (process_once_then_skip defaults defaults (fun payload => payload)
              message_1 key_1 (MemoryCache.empty 0)) as (s1 & Hfirst & Hsecond).
  - vm_compute. reflexivity.
  - reflexivity.
  - vm_compute. discriminate.
  - exists s1. split; [exact Hfirst | apply Hsecond].
Defined.


(** X13 on the keys ["a::b"] and ["a:b"]. *)
Lemma getKey_collapses_colons_witness :
  RedisCache.getKey defaults "a:b" = RedisCache.getKey defaults "a::b".
Proof.
  destruct (getKey_collapses_colons defaults "a::b" ltac:(discriminate))
    as (cacheKey & Hkey & _ & Hsame).
  rewrite Hkey. apply Hsame; [discriminate | reflexivity].
Defined.

(** X14 on the prefix ["app::cache"]. *)
Lemma doubled_colon_prefix_hides_keys_witness :
  RedisCache.prefix doubled = "app::cache:"
  /\ RedisCache.getKey doubled "k" = Ok "app:cache:k"
  /\ String.prefix (RedisCache.prefix doubled) "app:cache:k" = false.
Proof.
  split; [reflexivity|]. split; [reflexivity|].
  apply (doubled_colon_prefix_hides_keys "app::cache" None None "k" "app:cache:k");
    reflexivity.
Defined.

(** X17 on an instance that has seen its connection end. *)
Lemma redis_disconnected_is_inert_witness :
  RedisCache.has defaults "k" (redis three_keys true false)
  = (Ok false, redis three_keys true false)
  /\ RedisCache.set defaults "k" 60 (redis three_keys true false)
     = (Ok tt, redis three_keys true false).
Proof.
  pose proof (redis_disconnected_is_inert defaults "k" 60 (redis three_keys true false)
                eq_refl) as Hinert.
  split; [apply Hinert|].
  apply Hinert; [discriminate | reflexivity].
Defined.

(** X18 on a connected instance. *)
Lemma redis_disconnect_once_witness :
  RedisCache.disconnect (redis three_keys true true)
  = (Ok true, redis three_keys false false)
  /\ RedisCache.disconnect (redis three_keys false false)
     = (Ok true, redis three_keys false false).
Proof.
  exact (redis_disconnect_once (redis three_keys true true) eq_refl).
Defined.

(** X19 on a server that holds two keys of the prefix. *)
Lemma clearWithCount_accounting_witness :
  exists commands,
    concat commands
    = concat (RedisCache.data
                (RedisCache.scanStream "ts-dedup:*" 100
                   {| stored := three_keys; up := true |}).1)
    /\ Forall (fun command => command <> []) commands.
Proof.
  pose proof (clearWithCount_accounting defaults (redis three_keys true true)
                (RedisCache.scanStream "ts-dedup:*" 100
                   {| stored := three_keys; up := true |}).1
                (RedisCache.scanStream "ts-dedup:*" 100
                   {| stored := three_keys; up := true |}).2
                eq_refl (surjective_pairing _)) as Haccount.
  cbv zeta in Haccount.
  change (RedisCache.failure _) with (@None JSError) in Haccount.
  destruct Haccount as (commands & Hall & Hfull & _).
  exists commands. split; [exact Hall | exact Hfull].
Defined.

(** X20 on the message [{id: "1"}]. *)
Lemma redis_down_every_message_is_new_witness :
  @isDuplicate _ (RedisCache.redis_cache defaults) defaults message_1
    (redis three_keys true false)
  = (Ok false, redis three_keys true false).
Proof.
  apply (redis_down_every_message_is_new defaults defaults message_1 key_1
           (redis three_keys true false)).
  - vm_compute. reflexivity.
  - reflexivity.
Defined.

(** X21 on an envelope that names the key ["order-1"]. *)
Lemma explicit_key_bypasses_hashing_witness :
  getCacheKey defaults (normalizeMessage keyed_1) = Ok "ts-dedup:order-1".
Proof.
  apply (proj1 (explicit_key_bypasses_hashing defaults keyed_1 eq_refl) "order-1");
    [reflexivity | discriminate].
Defined.

Lemma sparse_1_well_formed : well_formed sparse_1.
Proof.
  unfold sparse_1.
  repeat (first [ apply wf_object | apply wf_string | apply wf_undefined | apply wf_date
                | apply Forall_cons; split | apply Forall_nil ]);
    apply (bool_decide_unpack _); vm_compute; exact I.
Defined.

(** X22 on that payload. *)
Lemma hashJson_succeeds_exactly_witness :
  exists digest, hashJson sparse_1 = Ok digest.
Proof.
  apply (proj1 (hashJson_succeeds_exactly sparse_1 sparse_1_well_formed)).
  split; [discriminate|].
  unfold sparse_1. apply Payloads.valid_object.
  repeat (apply List.Forall_cons; [split; [discriminate | constructor]|]).
  apply List.Forall_nil.
Defined.

(** X24: the normal form of [order_1] is [order_2]. *)
Lemma normalizeObject_idempotent_witness :
  normalizeObject order_1 = Ok order_2
  /\ normalizeObject order_2 = Ok order_2
  /\ hashJson order_2 = hashJson order_1.
Proof.
  assert (Hnormal : normalizeObject order_1 = Ok order_2) by (vm_compute; reflexivity).
  split; [exact Hnormal|].
  exact (normalizeObject_idempotent order_1 order_2 order_1_well_formed Hnormal).
Defined.

(** X25 on the payload with a property left [undefined]. *)
Lemma undefined_properties_do_not_count_witness :
  hashJson (obj [("id", JString "1"); ("at", JDate (Some 0))]) = hashJson sparse_1.
Proof.
  exact (proj2 (undefined_properties_do_not_count sparse_1 sparse_1_well_formed)).
Defined.

(** X26 at a TTL of two and a half seconds. *)
Lemma redis_set_whole_seconds_witness :
  exists cacheKey seconds,
    RedisCache.getKey defaults "k" = Ok cacheKey
    /\ 1 <= seconds
    /\ ((1 <= 5 # 2)%Q -> (inject_Z seconds <= 5 # 2 < inject_Z seconds + 1)%Q).
Proof.
  destruct (redis_set_whole_seconds defaults "k" (5 # 2) (redis three_keys true true))
    as (cacheKey & seconds & Hkey & Hone & Hfloor & _).
  - discriminate.
  - reflexivity.
  - reflexivity.
  - exists cacheKey, seconds. split; [exact Hkey|]. split; [exact Hone | exact Hfloor].
Defined.

(** X28 with nothing supplied and the default TTL of the networked cache. *)
Lemma factories_disagree_on_defaults_witness :
  namespace (Construction.in_use 300
               (Construction.createMemoryDeduplicator nothing_supplied)) = "ts-dedup"
  /\ namespace (Construction.in_use 300
                  (Construction.createRedisDeduplicator nothing_supplied)) = "undefined".
Proof.
  pose proof (factories_disagree_on_defaults nothing_supplied 300 message_1
                eq_refl eq_refl) as Hdefaults.
  cbv zeta in Hdefaults.
  split; [apply Hdefaults | apply Hdefaults].
Defined.


(** X29 on a message that serializes to two bytes. *)
Lemma hashProtobuf_digests_serialization_witness :
  hashProtobuf (JObject (Some (Ok [Byte.x01; Byte.x02])) [("id", JNumber 7)])
  = Ok (Crypto.sha256_bytes [Byte.x01; Byte.x02]).
Proof.
  apply (hashProtobuf_digests_serialization defaults [Byte.x01; Byte.x02]
           [("id", JNumber 7)]).
  reflexivity.
Defined.
